(** * VIPO Pareto frontier viewer: parser, framer, camera and controller

    A shallow embedding of [src/pareto-viewer/main.cpp].

    - [IStream] models the formatted extraction ([operator>>]) of the C++
      standard library on a [std::stringstream], with its [eofbit] and
      [failbit], as explicit state passing.
    - [Float] models binary32: a finite value is the rational it stands
      for, every operation rounds its exact result to the nearest binary32
      value (ties to even), with the subnormal range, underflow to a signed
      zero, overflow to an infinity, and NaN.
    - [Glm] gives the vector and matrix types of GLM, polymorphic in the
      scalar as [glm::vec<L, T>] is.
    - [Viewer] is [main]: command line, parser, AABB and model matrix, on
      [Float].
    - [Application] is [application::detail]: the scroll, key and resize
      callbacks and [update]. The code calls [cos], [sin], [tan], [exp] and
      [sqrt], whose binary32 results the C library does not fix bit by
      bit; the module is written over the real numbers, in exact
      arithmetic, and the statements about computed values carry the range
      in which the program follows it up to rounding.
    - [Zoom32] is the scroll callback once more, in binary32, where the
      range of a [float] decides what happens. *)

From Stdlib Require Import List String Ascii Bool Arith ZArith Lia.
From Stdlib Require Import QArith Qcanon Qround Qpower SpecFloat.
From Stdlib Require Import Reals Lra Qreals.
From Stdlib Require Import DecimalPos DecimalN.
Import ListNotations.
Open Scope list_scope.

(** ** Formatted input on a string stream *)

Module IStream.

(** The unread characters and the two state bits the code can observe. *)
Record istream : Type := mk_istream {
  buf : list ascii;
  eofbit : bool;
  failbit : bool
}.

(** [std::stringstream stream{line}] *)
Definition open (line : list ascii) : istream :=
  {| buf := line; eofbit := false; failbit := false |}.

Definition good (s : istream) : bool := negb (eofbit s) && negb (failbit s).

(** [isspace] in the "C" locale: space, \t, \n, \v, \f, \r. *)
Definition isspace (c : ascii) : bool :=
  let n := nat_of_ascii c in
  (n =? 32) || ((9 <=? n) && (n <=? 13)).

Definition isdigit (c : ascii) : bool :=
  let n := nat_of_ascii c in (48 <=? n) && (n <=? 57).

Definition digit_value (c : ascii) : Z := Z.of_nat (nat_of_ascii c) - 48.

Definition is_nil {A : Type} (l : list A) : bool :=
  match l with [] => true | _ :: _ => false end.

Fixpoint skipws (l : list ascii) : list ascii :=
  match l with
  | c :: t => if isspace c then skipws t else l
  | [] => []
  end.

(** Longest prefix whose characters satisfy [p], and what follows it. *)
Fixpoint span (p : ascii -> bool) (l : list ascii) : list ascii * list ascii :=
  match l with
  | c :: t => if p c then let (a, b) := span p t in (c :: a, b) else ([], l)
  | [] => ([], [])
  end.

(** The [sentry] every formatted extraction builds first (the stream has
    [skipws] set): on a stream that is not good it sets [failbit]; otherwise
    it skips white space, and running into the end while doing so sets
    [eofbit] and [failbit]. The boolean tells whether extraction goes on. *)
Definition sentry (s : istream) : istream * bool :=
  if good s then
    match skipws (buf s) with
    | [] => ({| buf := []; eofbit := true; failbit := true |}, false)
    | b => ({| buf := b; eofbit := false; failbit := false |}, true)
    end
  else ({| buf := buf s; eofbit := eofbit s; failbit := true |}, false).

(** [stream >> str] on a [std::string]: the maximal run of characters that
    are not white space. When the sentry fails [str] keeps its old value. *)
Definition get_string (s : istream) (old : list ascii) : istream * list ascii :=
  let (s1, ok) := sentry s in
  if ok then
    let (tok, rest) := span (fun c => negb (isspace c)) (buf s1) in
    ({| buf := rest; eofbit := is_nil rest; failbit := false |}, tok)
  else (s1, old).

(** An optional sign in front of a number: [true] for '-'. *)
Definition get_sign (l : list ascii) : bool * list ascii :=
  match l with
  | "-"%char :: t => (true, t)
  | "+"%char :: t => (false, t)
  | _ => (false, l)
  end.

Definition digits_value (ds : list ascii) : Z :=
  fold_left (fun acc c => 10 * acc + digit_value c)%Z ds 0%Z.

Definition UINT32_MAX : Z := 4294967295.

(** [stream >> n] on a [uint32_t] ([num_get] with base ten): sign, digits.
    No digit: the value is 0 and [failbit] is set. A magnitude above the
    largest [uint32_t]: the value is that largest one and [failbit] is set.
    A '-' negates modulo 2^32. A failed sentry leaves [n] as it was. *)
Definition get_uint32 (s : istream) (old : Z) : istream * Z :=
  let (s1, ok) := sentry s in
  if ok then
    let (neg, b1) := get_sign (buf s1) in
    let (ds, rest) := span isdigit b1 in
    let st f := {| buf := rest; eofbit := is_nil rest; failbit := f |} in
    match ds with
    | [] => (st true, 0%Z)
    | _ :: _ =>
        let n := digits_value ds in
        if (UINT32_MAX <? n)%Z then (st true, UINT32_MAX)
        else (st false, if neg then ((UINT32_MAX + 1 - n) mod (UINT32_MAX + 1))%Z else n)
    end
  else (s1, old).

(** What [num_get] reads for a floating-point field: sign, digits with at
    most one '.', and an exponent part introduced by 'e' or 'E'. The result
    is the exact decimal value, or [None] when the characters read are not a
    complete number (no digit in the mantissa, or no digit after 'e'). *)
Definition is_e (c : ascii) : bool :=
  let n := nat_of_ascii c in (n =? 101) || (n =? 69).

Definition scan_float (l : list ascii) : option Q * list ascii :=
  let (neg, b1) := get_sign l in
  let (ip, b2) := span isdigit b1 in
  let (fp, b3) :=
    match b2 with
    | "."%char :: t => span isdigit t
    | _ => ([], b2)
    end in
  let m := digits_value (ip ++ fp) in
  let m := if neg then (- m)%Z else m in
  let scale := (- Z.of_nat (List.length fp))%Z in
  match ip ++ fp with
  | [] => (None, b3)
  | _ :: _ =>
      match b3 with
      | c :: t =>
          if is_e c then
            let (eneg, b4) := get_sign t in
            let (ed, b5) := span isdigit b4 in
            match ed with
            | [] => (None, b5)
            | _ :: _ =>
                let e := digits_value ed in
                let e := if eneg then (- e)%Z else e in
                (Some (inject_Z m * Qpower (10 # 1) (e + scale))%Q, b5)
            end
          else (Some (inject_Z m * Qpower (10 # 1) scale)%Q, b3)
      | [] => (Some (inject_Z m * Qpower (10 # 1) scale)%Q, b3)
      end
  end.

End IStream.

(** ** The [float] type *)

Module Float.

(** A binary32 value: a finite value other than the negative zero is the
    rational it stands for ([Fin 0] is the positive zero), then the negative
    zero, the two infinities and NaN. The operations below give a binary32
    result for every finite argument, also for a rational that is no
    binary32 value; what is proved for every [Fin q] holds of the floats
    among them. *)
Inductive float : Type :=
| Fin (q : Qc)
| NZero
| PInf
| NInf
| NaN.

(** The float that is exactly [q]; used for the literals of the code, which
    are binary32 values, and in statements. *)
Definition of_Q (q : Q) : float := Fin (Q2Qc q).
Definition of_Z (n : Z) : float := of_Q (inject_Z n).

Definition is_finite (x : float) : bool :=
  match x with Fin _ | NZero => true | _ => false end.

(** The value of a finite float. *)
Definition fval (x : float) : Qc :=
  match x with Fin q => q | _ => 0%Qc end.

Definition Qc_is_zero (q : Qc) : bool :=
  match (q ?= 0)%Qc with Eq => true | _ => false end.

Definition is_zero (x : float) : bool :=
  match x with Fin q => Qc_is_zero q | NZero => true | _ => false end.

(** The sign bit ([false] for NaN, whose sign nothing here looks at). *)
Definition sign_bit (x : float) : bool :=
  match x with
  | Fin q => match (q ?= 0)%Qc with Lt => true | _ => false end
  | NZero | NInf => true
  | PInf | NaN => false
  end.

Definition signed_zero (neg : bool) : float := if neg then NZero else Fin 0.
Definition infinity (neg : bool) : float := if neg then NInf else PInf.

(** *** Rounding to binary32

    24 bits of precision; the smallest positive value is [2^-149]; a
    magnitude that rounds to [2^128] or more is an infinity. *)
Definition prec : Z := 24.
Definition emin : Z := -149.
Definition emax : Z := 128.

Definition two_pow (e : Z) : Q := Qpower 2 e.

(** The largest [e] with [2^e <= a], for a positive [a]. *)
Definition ilog2 (a : Q) : Z :=
  if Qle_bool 1 a then Z.log2 (Qfloor a) else (- Z.log2_up (Qceiling (/ a)))%Z.

(** The nearest integer, the even one of two that are equally near. *)
Definition rne (a : Q) : Z :=
  let k := Qfloor a in
  match (a - inject_Z k ?= 1 # 2)%Q with
  | Lt => k
  | Gt => (k + 1)%Z
  | Eq => if Z.even k then k else (k + 1)%Z
  end.

(** The float of sign [neg] and magnitude [m * 2^fe]: an infinity from
    [2^128] on, a signed zero for [m = 0]. *)
Definition pack (neg : bool) (m fe : Z) : float :=
  let v := (inject_Z m * two_pow fe)%Q in
  if Qle_bool (two_pow emax) v then infinity neg
  else if (m =? 0)%Z then signed_zero neg
  else Fin (Q2Qc (Qred (if neg then - v else v))).

(** Round to nearest, ties to even, of the positive magnitude [a] with the
    sign [neg]: the nearest multiple of [2^fe], where [fe] is the exponent
    of the last of the 24 bits, and not below [emin]. *)
Definition round_mag (neg : bool) (a : Q) : float :=
  let fe := Z.max (ilog2 a - (prec - 1)) emin in
  pack neg (rne (a / two_pow fe)) fe.

Definition round32 (q : Q) : float :=
  match (q ?= 0)%Q with
  | Eq => Fin 0
  | Gt => round_mag false q
  | Lt => round_mag true (- q)
  end.

Definition roundc (q : Qc) : float := round32 q.

(** [numeric_limits<float>::max()] *)
Definition FLT_MAX : Q := (16777215 # 1) * two_pow 104.

(** *** Arithmetic (IEEE 754, round to nearest) *)

Definition fopp (x : float) : float :=
  match x with
  | Fin q => if Qc_is_zero q then NZero else Fin (- q)%Qc
  | NZero => Fin 0
  | PInf => NInf
  | NInf => PInf
  | NaN => NaN
  end.

(** A sum that is exactly zero is the positive zero, but for
    [(-0) + (-0)]. *)
Definition fadd (x y : float) : float :=
  match x, y with
  | NaN, _ | _, NaN => NaN
  | PInf, NInf | NInf, PInf => NaN
  | PInf, _ | _, PInf => PInf
  | NInf, _ | _, NInf => NInf
  | NZero, NZero => NZero
  | _, _ => roundc (fval x + fval y)
  end.

Definition fsub (x y : float) : float := fadd x (fopp y).

(** The sign of a product or quotient is the exclusive or of the signs,
    also when the result is a zero or an infinity; [0 * inf] is NaN. *)
Definition fmul (x y : float) : float :=
  match x, y with
  | NaN, _ | _, NaN => NaN
  | _, _ =>
      let neg := xorb (sign_bit x) (sign_bit y) in
      if is_finite x && is_finite y then
        let p := (fval x * fval y)%Qc in
        if Qc_is_zero p then signed_zero neg else roundc p
      else if is_zero x || is_zero y then NaN
      else infinity neg
  end.

(** [a / 0] is an infinity for [a] other than zero; [0 / 0] and
    [inf / inf] are NaN. *)
Definition fdiv (x y : float) : float :=
  match x, y with
  | NaN, _ | _, NaN => NaN
  | _, _ =>
      let neg := xorb (sign_bit x) (sign_bit y) in
      match is_finite x, is_finite y with
      | true, true =>
          if is_zero y then (if is_zero x then NaN else infinity neg)
          else
            let q := (fval x / fval y)%Qc in
            if Qc_is_zero q then signed_zero neg else roundc q
      | true, false => signed_zero neg
      | false, true => infinity neg
      | false, false => NaN
      end
  end.

(** [x < y]; false as soon as one side is NaN; the two zeros are equal. *)
Definition fltb (x y : float) : bool :=
  match x, y with
  | NaN, _ | _, NaN => false
  | PInf, _ => false
  | NInf, NInf => false
  | NInf, _ => true
  | _, PInf => true
  | _, NInf => false
  | _, _ => match (fval x ?= fval y)%Qc with Lt => true | _ => false end
  end.

(** *** Vocabulary of the statements *)

(** The same float (which [0 == -0] is not). *)
Definition float_eqb (x y : float) : bool :=
  match x, y with
  | Fin a, Fin b => Qc_is_zero (a - b)
  | NZero, NZero | PInf, PInf | NInf, NInf | NaN, NaN => true
  | _, _ => false
  end.

(** The rational [q] is a binary32 value: rounding does not change it. *)
Definition is_float32 (q : Qc) : bool := float_eqb (roundc q) (Fin q).

(** [x] is finite and its value is [q]. *)
Definition has_val (x : float) (q : Qc) : Prop :=
  is_finite x = true /\ fval x = q.

(** The quotient [n / d] rounded by the IEEE division of the Standard
    Library's [SpecFloat], at the precision and exponent range of binary32;
    [round32] is checked against it below. *)
Definition of_spec_float (x : spec_float) : float :=
  match x with
  | S754_zero s => signed_zero s
  | S754_infinity s => infinity s
  | S754_nan => NaN
  | S754_finite s m e =>
      let v := (inject_Z (Zpos m) * two_pow e)%Q in
      Fin (Q2Qc (Qred (if s then - v else v)))
  end.

Definition spec_round (q : Q) : float :=
  match Qnum q with
  | Z0 => Fin 0
  | Zpos n =>
      of_spec_float (SFdiv prec emax (S754_finite false n 0)
                           (S754_finite false (Qden q) 0))
  | Zneg n =>
      of_spec_float (SFdiv prec emax (S754_finite true n 0)
                           (S754_finite false (Qden q) 0))
  end.

Declare Scope float_scope.
Delimit Scope float_scope with float.
Bind Scope float_scope with float.
Infix "+" := fadd : float_scope.
Infix "-" := fsub : float_scope.
Infix "*" := fmul : float_scope.
Infix "/" := fdiv : float_scope.
Notation "- x" := (fopp x) : float_scope.
Infix "<?" := fltb : float_scope.

End Float.

(** ** GLM vectors and matrices *)

Module Glm.

Record vec2 (T : Type) : Type := Vec2 { x2 : T; y2 : T }.
Record vec3 (T : Type) : Type := Vec3 { x : T; y : T; z : T }.
Record vec4 (T : Type) : Type := Vec4 { x4 : T; y4 : T; z4 : T; w4 : T }.

(** [glm::mat4] is column-major: [m[i]] is column [i]. *)
Record mat4 (T : Type) : Type :=
  Mat4 { col0 : vec4 T; col1 : vec4 T; col2 : vec4 T; col3 : vec4 T }.

Arguments Vec2 {T}.
Arguments x2 {T}.
Arguments y2 {T}.
Arguments Vec3 {T}.
Arguments x {T}.
Arguments y {T}.
Arguments z {T}.
Arguments Vec4 {T}.
Arguments x4 {T}.
Arguments y4 {T}.
Arguments z4 {T}.
Arguments w4 {T}.
Arguments Mat4 {T}.
Arguments col0 {T}.
Arguments col1 {T}.
Arguments col2 {T}.
Arguments col3 {T}.

(** [vec4(v, w)] *)
Definition vec4_of {T : Type} (v : vec3 T) (w : T) : vec4 T :=
  Vec4 (x v) (y v) (z v) w.

(** [vec3(v)] of a [vec4]: the first three components. *)
Definition xyz {T : Type} (v : vec4 T) : vec3 T := Vec3 (x4 v) (y4 v) (z4 v).

(** The operations [main] uses, on [float]. *)
Section OnFloat.
Import Float.
Local Open Scope float_scope.

Definition fzero : float := of_Z 0.
Definition fone : float := of_Z 1.
Definition fhalf : float := of_Q (1 # 2).

(** [glm::min(x, y)] is [(y < x) ? y : x] on every component. *)
Definition fmin (a b : float) : float := if b <? a then b else a.
(** [glm::max(x, y)] is [(x < y) ? y : x] on every component. *)
Definition fmax (a b : float) : float := if a <? b then b else a.

Definition min (a b : vec3 float) : vec3 float :=
  Vec3 (fmin (x a) (x b)) (fmin (y a) (y b)) (fmin (z a) (z b)).
Definition max (a b : vec3 float) : vec3 float :=
  Vec3 (fmax (x a) (x b)) (fmax (y a) (y b)) (fmax (z a) (z b)).

Definition vadd (a b : vec3 float) : vec3 float :=
  Vec3 (x a + x b) (y a + y b) (z a + z b).
Definition vsub (a b : vec3 float) : vec3 float :=
  Vec3 (x a - x b) (y a - y b) (z a - z b).
(** [s * v] *)
Definition smul (s : float) (v : vec3 float) : vec3 float :=
  Vec3 (s * x v) (s * y v) (s * z v).
(** [s / v] *)
Definition sdiv (s : float) (v : vec3 float) : vec3 float :=
  Vec3 (s / x v) (s / y v) (s / z v).

(** [c * s] and [a + b] on columns. *)
Definition cmul (c : vec4 float) (s : float) : vec4 float :=
  Vec4 (x4 c * s) (y4 c * s) (z4 c * s) (w4 c * s).
Definition cadd (a b : vec4 float) : vec4 float :=
  Vec4 (x4 a + x4 b) (y4 a + y4 b) (z4 a + z4 b) (w4 a + w4 b).

(** [glm::mat4{1.0f}] *)
Definition identity : mat4 float :=
  Mat4 (Vec4 fone fzero fzero fzero) (Vec4 fzero fone fzero fzero)
       (Vec4 fzero fzero fone fzero) (Vec4 fzero fzero fzero fone).

(** [glm::scale(m, v)]: columns 0 to 2 of [m] times the components of [v]. *)
Definition scale (m : mat4 float) (v : vec3 float) : mat4 float :=
  Mat4 (cmul (col0 m) (x v)) (cmul (col1 m) (y v)) (cmul (col2 m) (z v))
       (col3 m).

(** [glm::translate(m, v)]: column 3 becomes
    [m[0] * v[0] + m[1] * v[1] + m[2] * v[2] + m[3]]. *)
Definition translate (m : mat4 float) (v : vec3 float) : mat4 float :=
  Mat4 (col0 m) (col1 m) (col2 m)
       (cadd (cadd (cadd (cmul (col0 m) (x v)) (cmul (col1 m) (y v)))
                   (cmul (col2 m) (z v)))
             (col3 m)).

(** [m * v] for a column vector, which GLM sums as
    [(m[0] * v[0] + m[1] * v[1]) + (m[2] * v[2] + m[3] * v[3])]; the vertex
    shader applies a matrix to [vec4(vPos, 1.0)] in this way. *)
Definition mul_vec4 (m : mat4 float) (v : vec4 float) : vec4 float :=
  cadd (cadd (cmul (col0 m) (x4 v)) (cmul (col1 m) (y4 v)))
       (cadd (cmul (col2 m) (z4 v)) (cmul (col3 m) (w4 v))).

(** The image of a point under an affine matrix. *)
Definition transform_point (m : mat4 float) (p : vec3 float) : vec3 float :=
  xyz (mul_vec4 m (vec4_of p fone)).

Definition vec4_finite (v : vec4 float) : bool :=
  is_finite (x4 v) && is_finite (y4 v) && is_finite (z4 v) && is_finite (w4 v).
Definition mat4_finite (m : mat4 float) : bool :=
  vec4_finite (col0 m) && vec4_finite (col1 m) && vec4_finite (col2 m)
  && vec4_finite (col3 m).

End OnFloat.

End Glm.

(** ** [main]: command line, parser, framer *)

Module Viewer.
Import IStream Float Glm.

Definition vertex : Type := vec3 float.
(** [pair<uint32_t, uint32_t>] *)
Definition edge : Type := (Z * Z)%type.

(** The two global vectors the parser fills. *)
Record frontier : Type := mk_frontier {
  vertices : list vertex;
  edges : list edge
}.

(** [while (getline(file, line))]: the pieces of the file between line
    feeds; a last piece is a line only if it is not empty. *)
Fixpoint getlines_from (cur : list ascii) (l : list ascii) : list (list ascii) :=
  match l with
  | [] => match cur with [] => [] | _ :: _ => [rev cur] end
  | c :: t =>
      if Ascii.eqb c "010"%char then rev cur :: getlines_from [] t
      else getlines_from (c :: cur) t
  end.

Definition getlines (file : list ascii) : list (list ascii) :=
  getlines_from [] file.

(** [strtof] on the characters of a number: the sign character and the
    exact decimal value give the nearest float; a zero keeps the sign. *)
Definition strtof (neg : bool) (q : Q) : float :=
  if Qeq_bool q 0 then signed_zero neg else round32 q.

(** [stream >> v.x] on a [float]. A field that is no number stores 0 and
    sets [failbit]; a number whose nearest float is an infinity stores the
    largest finite float of its sign and sets [failbit]; a failed sentry
    leaves the variable untouched. *)
Definition get_float (s : istream) (old : float) : istream * float :=
  let (s1, ok) := sentry s in
  if ok then
    let (r, rest) := scan_float (buf s1) in
    let st f := {| buf := rest; eofbit := is_nil rest; failbit := f |} in
    match r with
    | Some q =>
        match strtof (fst (get_sign (buf s1))) q with
        | PInf => (st true, of_Q FLT_MAX)
        | NInf => (st true, of_Q (- FLT_MAX))
        | v => (st false, v)
        end
    | None => (st true, of_Z 0)
    end
  else (s1, old).

Definition cmd_v : list ascii := ["v"%char].
Definition cmd_l : list ascii := ["l"%char].

Definition command_eqb (a b : list ascii) : bool :=
  if list_eq_dec Ascii.ascii_dec a b then true else false.

(** The first token of a line: [string command; stream >> command;]. *)
Definition command_of (line : list ascii) : list ascii :=
  snd (get_string (open line) []).

Section Parser.

(** [glm::vec3 v;] is not initialised: what it holds before the three
    extractions is whatever the storage held. *)
Variable indet : vertex.

(** One turn of the loop body on a non-empty line: the frontier after it,
    or the unknown command. *)
Definition parse_line (line : list ascii) (f : frontier)
  : list ascii + frontier :=
  let stream := open line in
  let (stream, command) := get_string stream [] in
  if command_eqb command cmd_v then
    let (stream, vx) := get_float stream (x indet) in
    let (stream, vy) := get_float stream (y indet) in
    let (stream, vz) := get_float stream (z indet) in
    inr {| vertices := vertices f ++ [Vec3 vx vy vz]; edges := edges f |}
  else if command_eqb command cmd_l then
    let (stream, e1) := get_uint32 stream 0%Z in
    let (stream, e2) := get_uint32 stream 0%Z in
    inr {| vertices := vertices f; edges := edges f ++ [(e1, e2)] |}
  else inl command.

(** The loop over the lines: empty lines are skipped, the first unknown
    command ends the parse. *)
Fixpoint parse_lines (ls : list (list ascii)) (f : frontier)
  : list ascii + frontier :=
  match ls with
  | [] => inr f
  | line :: rest =>
      if is_nil line then parse_lines rest f
      else match parse_line line f with
           | inr f' => parse_lines rest f'
           | inl command => inl command
           end
  end.

Definition parse (file : string) : list ascii + frontier :=
  parse_lines (getlines (list_ascii_of_string file))
              {| vertices := []; edges := [] |}.

(** [aabb_min] and [aabb_max] after the loop
    [for (size_t i = 2; i < vertices.size(); i += 2)]; every turn moves [i]
    towards the size, [fuel] bounds the number of turns. *)
Fixpoint aabb_loop (fuel i : nat) (vs : list vertex) (mn mx : vertex)
  : vertex * vertex :=
  match fuel with
  | O => (mn, mx)
  | S fuel' =>
      if (i <? List.length vs)%nat then
        match nth_error vs i with
        | Some v => aabb_loop fuel' (i + 2) vs (min mn v) (max mx v)
        | None => (mn, mx)
        end
      else (mn, mx)
  end.

(** The AABB of the vertex list; [None] when [vertices[0]] does not exist
    (the read is outside the vector: undefined behaviour). *)
Definition aabb (vs : list vertex) : option (vertex * vertex) :=
  match nth_error vs 0 with
  | Some v0 => Some (aabb_loop (List.length vs) 2 vs v0 v0)
  | None => None
  end.

(** The eight corners written to [aabb_vertices]. *)
Definition aabb_corners (mn mx : vertex) : list vertex :=
  [ mn;
    Vec3 (x mn) (y mn) (z mx);
    Vec3 (x mx) (y mn) (z mn);
    Vec3 (x mx) (y mn) (z mx);
    Vec3 (x mn) (y mx) (z mn);
    Vec3 (x mn) (y mx) (z mx);
    Vec3 (x mx) (y mx) (z mn);
    mx ].

Definition aabb_edges : list edge :=
  [ (0, 2); (0, 4); (0, 1);
    (1, 3); (3, 2); (5, 7); (7, 6); (6, 4); (4, 5); (1, 5); (3, 7); (2, 6) ]%Z.

(** [model = glm::scale(model, 1.0f / (0.5f * (aabb_max - aabb_min)));
     model = glm::translate(model, -0.5f * (aabb_max + aabb_min));] *)
Definition model_scale (mn mx : vertex) : vec3 float :=
  sdiv fone (smul fhalf (vsub mx mn)).
Definition model_shift (mn mx : vertex) : vec3 float :=
  smul (fopp fhalf) (vadd mx mn).
Definition model_matrix (mn mx : vertex) : mat4 float :=
  translate (scale identity (model_scale mn mx)) (model_shift mn mx).

(** What [main] hands to [application::run]. *)
Record scene : Type := mk_scene {
  scene_frontier : frontier;
  aabb_min : vertex;
  aabb_max : vertex;
  aabb_vertices : list vertex;
  model : mat4 float
}.

(** How [main] ends: a return before any window exists, with what was
    written to the two output streams; the out-of-range read of
    [vertices[0]]; or the call of [application::run]. *)
Inductive outcome : Type :=
| Exit (code : Z) (out err : string)
| OutOfRange
| Run (sc : scene).

Definition frame (f : frontier) : outcome :=
  match aabb (vertices f) with
  | None => OutOfRange
  | Some (mn, mx) =>
      Run {| scene_frontier := f; aabb_min := mn; aabb_max := mx;
             aabb_vertices := aabb_corners mn mx;
             model := model_matrix mn mx |}
  end.

Definition parse_error_message (command : list ascii) : string :=
  ("Failed to parse given file. Command '" ++ string_of_list_ascii command
   ++ "' is unknown." ++ String "010"%char EmptyString)%string.

(** [main] once the file is open, on the content of the file. *)
Definition main_on (file : string) : outcome :=
  match parse file with
  | inl command => Exit (-1) EmptyString (parse_error_message command)
  | inr f => frame f
  end.

(** [main]: [argv] and the files that can be opened for reading. *)
Definition main (argv : list string) (fs : string -> option string) : outcome :=
  match argv with
  | [_; path] =>
      match fs path with
      | None =>
          Exit (-1) EmptyString
               ("Failed to open file '" ++ path ++ "' for reading."
                ++ String "010"%char EmptyString)%string
      | Some file => main_on file
      end
  | _ =>
      Exit (-1)
           ("usage:" ++ String "010"%char EmptyString ++ nth 0 argv EmptyString
            ++ " <pareto frontier file>" ++ String "010"%char EmptyString)%string
           EmptyString
  end.

End Parser.

(** *** Vocabulary of the statements *)

(** A line the parser stops at: not empty, and its first token is neither
    [v] nor [l]. *)
Definition unknown_command (line : list ascii) : bool :=
  negb (is_nil line)
  && negb (command_eqb (command_of line) cmd_v)
  && negb (command_eqb (command_of line) cmd_l).

(** A blank line: nothing but white space; the empty line is one. *)
Definition blank (line : list ascii) : bool := forallb isspace line.

(** A line that is not blank and whose command token is neither [v] nor
    [l], as the specification words the lines the parser stops at. *)
Definition bad_command (line : list ascii) : bool :=
  negb (blank line)
  && negb (command_eqb (command_of line) cmd_v)
  && negb (command_eqb (command_of line) cmd_l).

(** No line is made of white space only: every blank line is empty. *)
Definition blank_lines_empty (ls : list (list ascii)) : Prop :=
  forall line, In line ls -> blank line = true -> line = [].

(** A line the [v] branch, respectively the [l] branch, handles. *)
Definition is_v_line (line : list ascii) : bool :=
  negb (is_nil line) && command_eqb (command_of line) cmd_v.
Definition is_l_line (line : list ascii) : bool :=
  negb (is_nil line) && negb (command_eqb (command_of line) cmd_v)
  && command_eqb (command_of line) cmd_l.

(** What the [v] branch and the [l] branch read from a line. *)
Definition read_vertex (indet : vertex) (line : list ascii) : vertex :=
  let (s, _) := get_string (open line) [] in
  let (s1, vx) := get_float s (x indet) in
  let (s2, vy) := get_float s1 (y indet) in
  let (_, vz) := get_float s2 (z indet) in
  Vec3 vx vy vz.

Definition read_edge (line : list ascii) : edge :=
  let (s, _) := get_string (open line) [] in
  let (s1, e1) := get_uint32 s 0%Z in
  let (_, e2) := get_uint32 s1 0%Z in
  (e1, e2).

(** Whether one of the numeric extractions of a [v] line, respectively of
    an [l] line, failed: [failbit] after the last of them (once set it
    stays set). *)
Definition v_fields_fail (line : list ascii) : bool :=
  let (s, _) := get_string (open line) [] in
  let (s1, _) := get_float s fzero in
  let (s2, _) := get_float s1 fzero in
  let (s3, _) := get_float s2 fzero in
  failbit s3.

Definition l_fields_fail (line : list ascii) : bool :=
  let (s, _) := get_string (open line) [] in
  let (s1, _) := get_uint32 s 0%Z in
  let (s2, _) := get_uint32 s1 0%Z in
  failbit s2.

(** A [v] or [l] line with a malformed numeric field. *)
Definition malformed_number (line : list ascii) : bool :=
  (is_v_line line && v_fields_fail line)
  || (is_l_line line && l_fields_fail line).

Definition is_uint32 (n : Z) : Prop := (0 <= n <= UINT32_MAX)%Z.

(** Both indices of an edge are below the number of vertices. *)
Definition edge_in_range (f : frontier) (e : edge) : Prop :=
  (0 <= fst e < Z.of_nat (List.length (vertices f)))%Z
  /\ (0 <= snd e < Z.of_nat (List.length (vertices f)))%Z.

(** A vector of three finite components. *)
Definition fin3 (a b c : Qc) : vec3 float := Vec3 (Fin a) (Fin b) (Fin c).

(** The elements at the positions 0, 2, 4, ... of a list. *)
Fixpoint evens {A : Type} (l : list A) : list A :=
  match l with
  | [] => []
  | a :: t => a :: match t with [] => [] | _ :: t' => evens t' end
  end.

(** The four components of a column are finite, with the given values. *)
Definition hv4 (v : vec4 float) (a b c d : Qc) : Prop :=
  has_val (x4 v) a /\ has_val (y4 v) b /\ has_val (z4 v) c /\ has_val (w4 v) d.

(** One component of [1.0f / (0.5f * (aabb_max - aabb_min))]. *)
Definition scale_factor (a b : Qc) : float :=
  (fone / (fhalf * (Fin b - Fin a)))%float.

(** No operation that the lines 150 and 151 and the product of the model
    matrix with the two corners carry out on the axis with minimum [a] and
    maximum [b] rounds: the extent, its half, the scale factor [s], the
    sum, the shift [t], and the products [s * t], [s * a] and [s * b] are
    binary32 values. *)
Definition exact_axis (a b : Qc) : bool :=
  let half := Q2Qc (1 # 2) in
  let d := (b - a)%Qc in
  let h := (half * d)%Qc in
  let s := (1 / h)%Qc in
  let u := (b + a)%Qc in
  let t := (- half * u)%Qc in
  is_float32 d && is_float32 h && is_float32 s && is_float32 u
  && is_float32 t && is_float32 (s * t) && is_float32 (s * a)
  && is_float32 (s * b).

(** The bounding box as the specification words it: the componentwise
    minimum and maximum over every vertex of a non-empty list. *)
Definition bounds_of_all (vs : list vertex) : option (vertex * vertex) :=
  match vs with
  | [] => None
  | v0 :: rest =>
      Some (fold_left (fun b v => (min (fst b) v, max (snd b) v)) rest (v0, v0))
  end.

(** The tetrahedron of the end-to-end scenarios. *)
Definition nl : string := String "010"%char EmptyString.
Definition tetrahedron : string :=
  ("v 0 0 0" ++ nl ++ "v 1 0 0" ++ nl ++ "v 0 1 0" ++ nl ++ "v 0 0 1" ++ nl
   ++ "l 0 1" ++ nl ++ "l 0 2" ++ nl ++ "l 0 3" ++ nl
   ++ "l 1 2" ++ nl ++ "l 2 3" ++ nl ++ "l 3 1" ++ nl)%string.

Definition fvec (a b c : Z) : vertex := Vec3 (of_Z a) (of_Z b) (of_Z c).

End Viewer.

(** ** [application]: camera state, callbacks and [update] *)

Module Application.
Import Glm.
Local Open Scope R_scope.

(** Vector operations of GLM that [update] uses. *)
Definition add (a b : vec3 R) : vec3 R := Vec3 (x a + x b) (y a + y b) (z a + z b).
Definition opp (a : vec3 R) : vec3 R := Vec3 (- x a) (- y a) (- z a).
(** [s * v] and [v * s] *)
Definition smul (s : R) (v : vec3 R) : vec3 R := Vec3 (s * x v) (s * y v) (s * z v).
Definition muls (v : vec3 R) (s : R) : vec3 R := Vec3 (x v * s) (y v * s) (z v * s).
Definition dot (a b : vec3 R) : R := x a * x b + y a * y b + z a * z b.
Definition cross (a b : vec3 R) : vec3 R :=
  Vec3 (y a * z b - y b * z a) (z a * x b - z b * x a) (x a * y b - x b * y a).
Definition length (v : vec3 R) : R := sqrt (dot v v).
(** [glm::normalize(v)] is [v * inversesqrt(dot(v, v))]. *)
Definition normalize (v : vec3 R) : vec3 R := muls v (1 / sqrt (dot v v)).

Definition zero4 : vec4 R := Vec4 0 0 0 0.

(** [glm::perspective(fovy, aspect, zNear, zFar)], the right-handed
    projection with depth in [-1, 1] that GLM builds by default. GLM takes
    every angle in radians: the matrix is built from [tan(fovy / 2)]. *)
Definition perspective (fovy aspect zNear zFar : R) : mat4 R :=
  let tanHalfFovy := tan (fovy / 2) in
  Mat4 (Vec4 (1 / (aspect * tanHalfFovy)) 0 0 0)
       (Vec4 0 (1 / tanHalfFovy) 0 0)
       (Vec4 0 0 (- (zFar + zNear) / (zFar - zNear)) (- 1))
       (Vec4 0 0 (- (2 * zFar * zNear) / (zFar - zNear)) 0).

(** [glm::radians] *)
Definition radians (degrees : R) : R := degrees * PI / 180.

(** Globals that are never assigned. *)
Definition up : vec3 R := Vec3 0 0 1.
Definition fov : R := 45.

(** The globals the callbacks and [update] read and write. [view] and the
    product [mvp] are computed and sent to the shader but never read back;
    they are left out. *)
Record state : Type := mk_state {
  screen_width : Z;
  screen_height : Z;
  origin : vec3 R;
  radius : R;
  altitude : R;
  azimuth : R;
  projection : mat4 R;
  old_mouse_pos : vec2 R;
  mouse_pos : vec2 R;
  should_close : bool
}.

(** The initial values of the globals ([projection] and the two cursor
    positions have static storage: zero). *)
Definition initial : state :=
  {| screen_width := 500; screen_height := 500;
     origin := Vec3 0 0 0; radius := 5; altitude := 0; azimuth := 0;
     projection := Mat4 zero4 zero4 zero4 zero4;
     old_mouse_pos := Vec2 0 0; mouse_pos := Vec2 0 0;
     should_close := false |}.

Definition set_radius (s : state) (r : R) : state :=
  mk_state (screen_width s) (screen_height s) (origin s) r (altitude s)
           (azimuth s) (projection s) (old_mouse_pos s) (mouse_pos s)
           (should_close s).
Definition set_origin (s : state) (o : vec3 R) : state :=
  mk_state (screen_width s) (screen_height s) o (radius s) (altitude s)
           (azimuth s) (projection s) (old_mouse_pos s) (mouse_pos s)
           (should_close s).
Definition set_angles (s : state) (alt az : R) : state :=
  mk_state (screen_width s) (screen_height s) (origin s) (radius s) alt az
           (projection s) (old_mouse_pos s) (mouse_pos s) (should_close s).
Definition set_mouse (s : state) (old new : vec2 R) : state :=
  mk_state (screen_width s) (screen_height s) (origin s) (radius s)
           (altitude s) (azimuth s) (projection s) old new (should_close s).
Definition set_close (s : state) : state :=
  mk_state (screen_width s) (screen_height s) (origin s) (radius s)
           (altitude s) (azimuth s) (projection s) (old_mouse_pos s)
           (mouse_pos s) true.

(** The scroll callback: [radius *= exp(-0.1f * float(y));] *)
Definition scroll (s : state) (xoff yoff : R) : state :=
  set_radius s (radius s * exp (- 0.1 * yoff)).

Definition GLFW_KEY_ESCAPE : Z := 256.
Definition GLFW_PRESS : Z := 1.

(** The key callback. *)
Definition key_callback (s : state) (key action : Z) : state :=
  if (key =? GLFW_KEY_ESCAPE)%Z && (action =? GLFW_PRESS)%Z
  then set_close s else s.

(** [resize], on the size [glfwGetFramebufferSize] reports. *)
Definition resize (s : state) (width height : Z) : state :=
  let aspect_ratio := IZR width / IZR height in
  mk_state width height (origin s) (radius s) (altitude s) (azimuth s)
           (perspective fov aspect_ratio 0.1 10000)
           (old_mouse_pos s) (mouse_pos s) (should_close s).

(** [std::clamp(v, lo, hi)] *)
Definition clamp (v lo hi : R) : R :=
  if Rlt_dec v lo then lo else if Rlt_dec hi v then hi else v.

(** [constexpr float bound = M_PI_2 - 1e-5f;] *)
Definition bound : R := PI / 2 - 1e-5.

(** The locals at the head of [update]. *)
Definition camera (s : state) : vec3 R :=
  muls (Vec3 (cos (altitude s) * cos (azimuth s))
             (cos (altitude s) * sin (azimuth s))
             (sin (altitude s)))
       (radius s).
Definition camera_right (s : state) : vec3 R :=
  normalize (cross (opp (camera s)) up).
Definition camera_up (s : state) : vec3 R :=
  normalize (cross (camera_right s) (opp (camera s))).
Definition pixel_size (s : state) : R :=
  2 * tan (0.5 * fov * PI / 180) / IZR (screen_height s).

(** The left-button branch. *)
Definition orbit (s : state) (mouse_move : vec2 R) : state :=
  let altitude' := altitude s + y2 mouse_move * 0.01 in
  let azimuth' := azimuth s - x2 mouse_move * 0.01 in
  set_angles s (clamp altitude' (- bound) bound) azimuth'.

(** The right-button branch; [s0] is the state at the head of [update],
    from which [camera], [camera_right], [camera_up] and [pixel_size] were
    computed. *)
Definition pan (s0 s : state) (mouse_move : vec2 R) : state :=
  let scale := 1.3 * pixel_size s0 * length (camera s0) in
  set_origin s
    (add (origin s)
         (add (smul (- scale * x2 mouse_move) (camera_right s0))
              (smul (scale * y2 mouse_move) (camera_up s0)))).

(** [update], on the cursor position [glfwGetCursorPos] reports and on
    whether [glfwGetMouseButton] reports the left and the right button as
    pressed. *)
Definition update (s : state) (xpos ypos : R) (left_down right_down : bool) : state :=
  let s1 := set_mouse s (mouse_pos s) (Vec2 xpos ypos) in
  let mouse_move :=
    Vec2 (x2 (mouse_pos s1) - x2 (old_mouse_pos s1))
         (y2 (mouse_pos s1) - y2 (old_mouse_pos s1)) in
  let s2 := if left_down then orbit s1 mouse_move else s1 in
  if right_down then pan s s2 mouse_move else s2.

(** What the window system delivers between two frames, and the frame. *)
Inductive event : Type :=
| Scroll (xoff yoff : R)
| Key (key action : Z)
| FramebufferSize (width height : Z)
| Update (xpos ypos : R) (left_down right_down : bool).

Definition step (s : state) (e : event) : state :=
  match e with
  | Scroll xoff yoff => scroll s xoff yoff
  | Key key action => key_callback s key action
  | FramebufferSize width height => resize s width height
  | Update xpos ypos left_down right_down =>
      update s xpos ypos left_down right_down
  end.

Definition run (s : state) (es : list event) : state := fold_left step es s.

(** The state a sequence of events leads to from the start. *)
Definition reachable (s : state) : Prop := exists es, s = run initial es.

(** *** Vocabulary of the statements *)

(** The vertical offsets of the scroll events of a sequence, in order. *)
Fixpoint scroll_deltas (es : list event) : list R :=
  match es with
  | [] => []
  | Scroll _ yoff :: rest => yoff :: scroll_deltas rest
  | _ :: rest => scroll_deltas rest
  end.

Definition Rsum (l : list R) : R := fold_right Rplus 0 l.

(** The altitude is within the two bounds of the clamp. *)
Definition altitude_clamped (s : state) : Prop :=
  - bound <= altitude s <= bound.

(** The distance the wheel was turned: the sum of the magnitudes of the
    scroll offsets. *)
Definition scroll_travel (es : list event) : R :=
  Rsum (map Rabs (scroll_deltas es)).

(** *** The range in which exact arithmetic stands for binary32

    The callbacks and [update] are modelled over the real numbers: the
    rounding of every binary32 operation is left out. What is proved of a
    computed value therefore holds of the program up to rounding, and only
    where no operation of the program overflows, underflows or divides by
    zero. The statements carry the hypotheses that keep the program there:
    a cursor position of moderate size, and a state whose radius is
    neither tiny nor huge (its square is a normal binary32 value), whose
    altitude is within the clamp (so that the cosine is away from zero),
    whose framebuffer height is a positive [int], and whose azimuth, focus
    and cursor are of moderate size. *)
Definition cursor_in_range (xpos ypos : R) : Prop :=
  Rabs xpos <= 2 ^ 40 /\ Rabs ypos <= 2 ^ 40.

Definition in_range (s : state) : Prop :=
  / 2 ^ 40 <= radius s <= 2 ^ 40
  /\ - (PI / 2 - 1 / 100000) <= altitude s <= PI / 2 - 1 / 100000
  /\ Rabs (azimuth s) <= 2 ^ 40
  /\ (0 < screen_height s < 2 ^ 31)%Z
  /\ Rabs (x (origin s)) <= 2 ^ 40 /\ Rabs (y (origin s)) <= 2 ^ 40
  /\ Rabs (z (origin s)) <= 2 ^ 40
  /\ cursor_in_range (x2 (mouse_pos s)) (y2 (mouse_pos s)).

(** The focus is not far from the camera in units of the radius: the sum
    [camera + origin] keeps the digits of [camera]. *)
Definition focus_near (s : state) : Prop :=
  Rabs (x (origin s)) <= 16 * radius s /\ Rabs (y (origin s)) <= 16 * radius s
  /\ Rabs (z (origin s)) <= 16 * radius s.

(** [n] frames of a left drag, each 1000 pixels further down. *)
Definition drag_down (n : nat) : list event :=
  map (fun k => Update 0 (1000 * INR (S k)) true false) (seq 0 n).

(** The projection the specification words: the perspective matrix of a
    vertical field of view of [fov] degrees. *)
Definition projection_of_degrees (width height : Z) : mat4 R :=
  perspective (radians fov) (IZR width / IZR height) 0.1 10000.

End Application.

(** ** The scroll callback in binary32 *)

(** [radius *= exp(-0.1f * float(y));] with the rounding of every
    operation. The [exp] of the C library on a [float] is taken as the
    correctly rounded exponential; the rounding of a real number follows
    [Float.round32] step by step. *)
Module Zoom32.
Import Float.
Local Open Scope R_scope.

Definition ilog2R (a : R) : Z := Int_part (ln a / ln 2).

Definition rneR (a : R) : Z :=
  let k := Int_part a in
  match total_order_T (a - IZR k) (1 / 2) with
  | inleft (left _) => k
  | inleft (right _) => if Z.even k then k else (k + 1)%Z
  | inright _ => (k + 1)%Z
  end.

Definition round_magR (neg : bool) (a : R) : float :=
  let fe := Z.max (ilog2R a - (prec - 1)) emin in
  pack neg (rneR (a * powerRZ 2 (- fe))) fe.

Definition round32R (r : R) : float :=
  match total_order_T r 0 with
  | inleft (left _) => round_magR true (- r)
  | inleft (right _) => Fin 0
  | inright _ => round_magR false r
  end.

(** [exp] on a [float]. *)
Definition expf (x : float) : float :=
  match x with
  | Fin q => round32R (exp (Q2R q))
  | NZero => of_Z 1
  | PInf => PInf
  | NInf => of_Z 0
  | NaN => NaN
  end.

(** The callback on the radius; the offset [y] is a [double], a rational,
    which [float(y)] rounds. *)
Definition scroll32 (radius : float) (y : Q) : float :=
  (radius * expf (fopp (round32 (1 # 10)) * round32 y))%float.

(** The radius after scroll events of the offsets [ys], in order. Nothing
    but the scroll callback writes [radius]. *)
Definition run32 (radius : float) (ys : list Q) : float :=
  fold_left scroll32 ys radius.

(** *** Vocabulary of the statements *)

(** The real number a finite float stands for. *)
Definition F2R (x : float) : R := Q2R (fval x).

(** The sum of the offsets, and the sum of their magnitudes. *)
Definition sumQ (ys : list Q) : R := Application.Rsum (map Q2R ys).
Definition travelQ (ys : list Q) : R :=
  Application.Rsum (map Rabs (map Q2R ys)).

End Zoom32.

(** ** Writing a frontier file *)

(** The text of a frontier with integer coordinates, one command per line,
    every line ended by a line feed: the inverse the parser is checked
    against. *)
Module Writer.
Import IStream Float Glm Viewer.

Definition line_feed : ascii := "010"%char.

Definition unlines (ls : list (list ascii)) : list ascii :=
  flat_map (fun l => l ++ [line_feed]) ls.

Fixpoint uint_chars (d : Decimal.uint) : list ascii :=
  match d with
  | Decimal.Nil => []
  | Decimal.D0 d => "0"%char :: uint_chars d
  | Decimal.D1 d => "1"%char :: uint_chars d
  | Decimal.D2 d => "2"%char :: uint_chars d
  | Decimal.D3 d => "3"%char :: uint_chars d
  | Decimal.D4 d => "4"%char :: uint_chars d
  | Decimal.D5 d => "5"%char :: uint_chars d
  | Decimal.D6 d => "6"%char :: uint_chars d
  | Decimal.D7 d => "7"%char :: uint_chars d
  | Decimal.D8 d => "8"%char :: uint_chars d
  | Decimal.D9 d => "9"%char :: uint_chars d
  end.

(** A natural number in decimal, without leading zeros. *)
Definition decimal (n : N) : list ascii := uint_chars (N.to_uint n).

(** An integer in decimal, with '-' in front of a negative one. *)
Definition decimal_Z (n : Z) : list ascii :=
  match n with
  | Zneg p => "-"%char :: decimal (Npos p)
  | _ => decimal (Z.to_N n)
  end.

Definition v_line (p : Z * Z * Z) : list ascii :=
  let '(a, b, c) := p in
  "v"%char :: " "%char :: decimal_Z a
  ++ " "%char :: decimal_Z b ++ " "%char :: decimal_Z c.

Definition l_line (e : N * N) : list ascii :=
  "l"%char :: " "%char :: decimal (fst e) ++ " "%char :: decimal (snd e).

Definition write_frontier (vs : list (Z * Z * Z)) (es : list (N * N)) : string :=
  string_of_list_ascii (unlines (map v_line vs ++ map l_line es)).

Definition vertex_of (p : Z * Z * Z) : vertex :=
  let '(a, b, c) := p in fvec a b c.

Definition edge_of (e : N * N) : edge := (Z.of_N (fst e), Z.of_N (snd e)).

(** Three integers of magnitude at most [2^24]: each is a binary32 value. *)
Definition small_integers (p : Z * Z * Z) : Prop :=
  let '(a, b, c) := p in
  (Z.abs a <= 2 ^ 24)%Z /\ (Z.abs b <= 2 ^ 24)%Z /\ (Z.abs c <= 2 ^ 24)%Z.

(** What may follow a numeric field: the end of the line or a space. *)
Definition field_end (rest : list ascii) : Prop :=
  rest = [] \/ exists t, rest = " "%char :: t.

Definition magnitude (z : Z) : N := Z.abs_N z.
Definition negative (z : Z) : bool :=
  match z with Zneg _ => true | _ => false end.

End Writer.

(** ** Vocabulary for the parser and the box *)

Module Box.
Import IStream Float Glm Viewer.

(** The stream of a line once the command has been read. *)
Definition after_command (line : list ascii) : istream :=
  fst (get_string (open line) []).

(** Whether the extraction of the first field of a [v] line, respectively
    of an [l] line, fails. *)
Definition first_v_field_fails (line : list ascii) : bool :=
  failbit (fst (get_float (after_command line) fzero)).
Definition first_l_field_fails (line : list ascii) : bool :=
  failbit (fst (get_uint32 (after_command line) 0%Z)).

Definition finite_vertex (v : vertex) : Prop :=
  is_finite (x v) = true /\ is_finite (y v) = true /\ is_finite (z v) = true.

(** Order on finite values; the two zeros are equal. *)
Definition fle (a b : float) : Prop :=
  is_finite a = true /\ is_finite b = true /\ (fval a <= fval b)%Qc.

Definition vle (a b : vertex) : Prop :=
  fle (x a) (x b) /\ fle (y a) (y b) /\ fle (z a) (z b).

(** Corner [i] of the box, as an index into [aabb_vertices]. *)
Definition corner (mn mx : vertex) (i : Z) : option vertex :=
  nth_error (aabb_corners mn mx) (Z.to_nat i).

(** [a] and [b] are the two ends of an edge of the box along [p]: one has
    the coordinate of [mn] and the other that of [mx] on this axis. *)
Definition spans {T : Type} (p : vertex -> T) (mn mx a b : vertex) : Prop :=
  (p a = p mn /\ p b = p mx) \/ (p a = p mx /\ p b = p mn).

Definition box_edge (mn mx a b : vertex) : Prop :=
  (spans x mn mx a b /\ y a = y b /\ z a = z b)
  \/ (spans y mn mx a b /\ x a = x b /\ z a = z b)
  \/ (spans z mn mx a b /\ x a = x b /\ y a = y b).

(** An index pair without its direction. *)
Definition undirected (e : edge) : edge :=
  (Z.min (fst e) (snd e), Z.max (fst e) (snd e)).

End Box.

(** ** The view matrix and the frame loop *)

Module View.
Import Glm Application.
Local Open Scope R_scope.

Definition sub (a b : vec3 R) : vec3 R :=
  Vec3 (x a - x b) (y a - y b) (z a - z b).

(** [glm::lookAt(eye, center, up)], the right-handed one GLM builds by
    default. *)
Definition lookAt (eye center up : vec3 R) : mat4 R :=
  let f := normalize (sub center eye) in
  let s := normalize (cross f up) in
  let u := cross s f in
  Mat4 (Vec4 (x s) (x u) (- x f) 0)
       (Vec4 (y s) (y u) (- y f) 0)
       (Vec4 (z s) (z u) (- z f) 0)
       (Vec4 (- dot s eye) (- dot u eye) (dot f eye) 1).

(** [view = glm::lookAt(camera + origin, origin, up);] at the head of
    [update]. *)
Definition eye (s : state) : vec3 R := add (camera s) (origin s).
Definition view (s : state) : mat4 R := lookAt (eye s) (origin s) up.

(** [m * v] on real matrices, summed as GLM does. *)
Definition mul_vec4 (m : mat4 R) (v : vec4 R) : vec4 R :=
  let c (k : vec4 R) (a : R) := Vec4 (x4 k * a) (y4 k * a) (z4 k * a) (w4 k * a) in
  let p (a b : vec4 R) := Vec4 (x4 a + x4 b) (y4 a + y4 b) (z4 a + z4 b) (w4 a + w4 b) in
  p (p (c (col0 m) (x4 v)) (c (col1 m) (y4 v)))
    (p (c (col2 m) (z4 v)) (c (col3 m) (w4 v))).

(** An event that is no frame with the left button down. *)
Definition left_up (e : event) : bool :=
  match e with Update _ _ l _ => negb l | _ => true end.

(** A press of the Escape key. *)
Definition escape_press (e : event) : bool :=
  match e with
  | Key key action => (key =? GLFW_KEY_ESCAPE)%Z && (action =? GLFW_PRESS)%Z
  | _ => false
  end.

(** The size of the last resize of a sequence of events. *)
Fixpoint last_size (es : list event) : option (Z * Z) :=
  match es with
  | [] => None
  | e :: rest =>
      match last_size rest with
      | Some size => Some size
      | None => match e with
                | FramebufferSize width height => Some (width, height)
                | _ => None
                end
      end
  end.

(** What one turn of the loop of [application::run] receives: the
    callbacks [glfwPollEvents] runs, whether the window system asked for
    the window to be closed meanwhile, and what [update] reads. *)
Inductive callback : Type :=
| OnScroll (xoff yoff : R)
| OnKey (key action : Z)
| OnFramebufferSize (width height : Z).

Definition event_of (c : callback) : event :=
  match c with
  | OnScroll xoff yoff => Scroll xoff yoff
  | OnKey key action => Key key action
  | OnFramebufferSize width height => FramebufferSize width height
  end.

Record frame_input : Type := mk_frame_input {
  polled : list callback;
  close_requested : bool;
  cursor : R * R;
  left_button : bool;
  right_button : bool
}.

(** [glfwPollEvents(); update();] ([render] and [glfwSwapBuffers] do not
    touch the state). *)
Definition poll_events (s : state) (fr : frame_input) : state :=
  let s1 := run s (map event_of (polled fr)) in
  if close_requested fr then set_close s1 else s1.

Definition turn (s : state) (fr : frame_input) : state :=
  update (poll_events s fr) (fst (cursor fr)) (snd (cursor fr))
         (left_button fr) (right_button fr).

(** The loop of [application::run] on the inputs of its turns, as long as
    there are any: the last state and the number of frames rendered. *)
Fixpoint main_loop (frames : list frame_input) (s : state) : state * nat :=
  match frames with
  | [] => (s, O)
  | fr :: rest =>
      if should_close s then (s, O)
      else let (s', n) := main_loop rest (turn s fr) in (s', S n)
  end.

(** The state after the turns of [frames], whatever the close flag. *)
Definition turns (s : state) (frames : list frame_input) : state :=
  fold_left turn frames s.

(** A turn in which the window is asked to close. *)
Definition closes (fr : frame_input) : bool :=
  close_requested fr || existsb escape_press (map event_of (polled fr)).

End View.

(** ** [render] and the element buffers *)

Module Render.
Import Glm Viewer.

(** The two vertex arrays, each with its element buffer bound. *)
Inductive array_id : Type :=
| vertex_array
| aabb_vertex_array.

(** The calls of [render]; a draw is [glDrawElements(GL_LINES, count,
    GL_UNSIGNED_INT, offset)] with the offset in bytes. *)
Inductive gl_call : Type :=
| glClear
| glUseProgram
| glBindVertexArray (a : array_id)
| glLineWidth (width : Q)
| glDrawElements (count : nat) (offset : nat).

(** [sizeof(pair<uint32_t, uint32_t>)] and the size of one index. *)
Definition sizeof_edge : nat := 8.
Definition sizeof_index : nat := 4.

Definition render (edges : list edge) : list gl_call :=
  [ glClear; glUseProgram;
    glBindVertexArray vertex_array; glLineWidth (3 # 2)%Q;
    glDrawElements (2 * List.length edges) 0;
    glBindVertexArray aabb_vertex_array; glLineWidth 3%Q;
    glDrawElements (3 * 2) 0;
    glLineWidth 1%Q;
    glDrawElements (9 * 2) (3 * sizeof_edge) ].

(** What [glBufferData] uploads from [edges.data()]: the two indices of
    every pair, one pair after the other. *)
Definition element_data (es : list edge) : list Z :=
  flat_map (fun e => [fst e; snd e]) es.

(** The element buffer of each vertex array after [init_vertex_data]. *)
Definition element_buffer_of (edges : list edge) (a : array_id) : list Z :=
  match a with
  | vertex_array => element_data edges
  | aabb_vertex_array => element_data aabb_edges
  end.

(** [GL_LINES]: every two consecutive indices are one segment. *)
Fixpoint pair_up (l : list Z) : list edge :=
  match l with
  | a :: b :: t => (a, b) :: pair_up t
  | _ => []
  end.

(** The segments a draw reads from an element buffer. *)
Definition drawn (buffer : list Z) (count offset : nat) : list edge :=
  pair_up (firstn count (skipn (offset / sizeof_index) buffer)).

(** The segments a sequence of calls draws, each with the vertex array
    bound and the line width set when it is drawn. *)
Fixpoint segments (buffers : array_id -> list Z) (bound : array_id)
  (width : Q) (calls : list gl_call) : list (array_id * Q * edge) :=
  match calls with
  | [] => []
  | glBindVertexArray a :: rest => segments buffers a width rest
  | glLineWidth w :: rest => segments buffers bound w rest
  | glDrawElements count offset :: rest =>
      map (fun e => (bound, width, e)) (drawn (buffers bound) count offset)
      ++ segments buffers bound width rest
  | _ :: rest => segments buffers bound width rest
  end.

End Render.

(** ** [init], [free] and [run] *)

Module Lifecycle.
Import Glm Application View.

(** What the graphics collaborators answer during [init]: the three status
    flags [init_shader] asks for, the info log it reads after a failure,
    and the framebuffer size [resize] reads. *)
Record answers : Type := mk_answers {
  vertex_compiled : bool;
  fragment_compiled : bool;
  program_linked : bool;
  info_log : string;
  framebuffer_size : Z * Z
}.

(** The application: the private flag, whether a window exists, whether
    GLFW is initialised, whether the shader program exists, and the
    globals of the controller. *)
Record app : Type := mk_app {
  is_initialized : bool;
  window : bool;
  glfw : bool;
  program : bool;
  globals : state
}.

(** A call returns or throws a [runtime_error]. *)
Inductive call_result : Type :=
| Returned (a : app)
| Thrown (what : string) (a : app).

Definition init_window (a : app) : app :=
  mk_app (is_initialized a) true true (program a) (globals a).

(** [init_shader]: the three checks in the order of the source; the
    program object is created after both shaders compiled. *)
Definition init_shader (env : answers) (a : app) : call_result :=
  if negb (vertex_compiled env) then
    Thrown ("OpenGL Error: Failed to compile vertex shader!: "
            ++ info_log env)%string a
  else if negb (fragment_compiled env) then
    Thrown ("OpenGL Error: Failed to compile fragment shader!: "
            ++ info_log env)%string a
  else
    let a1 := mk_app (is_initialized a) (window a) (glfw a) true (globals a) in
    if negb (program_linked env) then
      Thrown ("OpenGL Error: Failed to link shader program!: "
              ++ info_log env)%string a1
    else Returned a1.

Definition init (env : answers) (a : app) : call_result :=
  if is_initialized a then Returned a
  else
    match init_shader env (init_window a) with
    | Thrown what a1 => Thrown what a1
    | Returned a1 =>
        (* init_vertex_data(); resize(); is_initialized = true; *)
        Returned
          (mk_app true (window a1) (glfw a1) (program a1)
                  (resize (globals a1) (fst (framebuffer_size env))
                          (snd (framebuffer_size env))))
    end.

Definition free (a : app) : app :=
  if negb (is_initialized a) then a
  else mk_app false false false false (globals a).

(** [run]: [init] when it has not been called, then the loop. *)
Definition app_run (env : answers) (a : app) (frames : list frame_input)
  : call_result :=
  match (if negb (is_initialized a) then init env a else Returned a) with
  | Thrown what a1 => Thrown what a1
  | Returned a1 =>
      Returned (mk_app (is_initialized a1) (window a1) (glfw a1) (program a1)
                       (fst (main_loop frames (globals a1))))
  end.

(** The application before [main] calls [run]. *)
Definition fresh : app := mk_app false false false false initial.

Definition shaders_ok (env : answers) : bool :=
  vertex_compiled env && fragment_compiled env && program_linked env.

End Lifecycle.

(** * Properties *)

Module FloatFacts.
Import Float.

(** ** Rounding *)

Lemma Qc_is_zero_true (q : Qc) : Qc_is_zero q = true <-> q = 0%Qc.
Proof.
  unfold Qc_is_zero. rewrite Qceq_alt.
  destruct (q ?= 0)%Qc; split; congruence.
Qed.

Lemma Qc_is_zero_false (q : Qc) : Qc_is_zero q = false <-> q <> 0%Qc.
Proof.
  rewrite <- Qc_is_zero_true. destruct (Qc_is_zero q); split; congruence.
Qed.

Lemma float_eqb_eq (x y : float) : float_eqb x y = true -> x = y.
Proof.
  destruct x as [a| | | |], y as [b| | | |]; simpl; try congruence.
  intros H. apply Qc_is_zero_true in H. f_equal.
  assert (E : a = (a - b + b)%Qc) by ring. rewrite E, H. ring.
Qed.

Lemma is_float32_round (q : Qc) : is_float32 q = true -> roundc q = Fin q.
Proof. apply float_eqb_eq. Qed.

(** Powers of two *)

Lemma two_neq_0 : ~ (2 : Q) == 0.
Proof. discriminate. Qed.

Lemma two_pow_pos (e : Z) : 0 < two_pow e.
Proof. apply Qpower_0_lt. reflexivity. Qed.

Lemma two_pow_plus (a b : Z) : two_pow (a + b) == two_pow a * two_pow b.
Proof. apply Qpower_plus, two_neq_0. Qed.

Lemma two_pow_le (a b : Z) : (a <= b)%Z -> two_pow a <= two_pow b.
Proof. intros H. apply Qpower_le_compat_l; [exact H | discriminate]. Qed.

Lemma two_pow_Z (n : Z) : (0 <= n)%Z -> two_pow n == inject_Z (2 ^ n).
Proof. intros H. unfold two_pow. now rewrite Zpower_Qpower. Qed.

Lemma two_pow_opp (n : Z) : two_pow (- n) == / two_pow n.
Proof. apply Qpower_opp. Qed.

(** [ilog2 a] is at most the binary logarithm of [a]. *)
Lemma ilog2_le (a : Q) : 0 < a -> two_pow (ilog2 a) <= a.
Proof.
  intros Ha. unfold ilog2. destruct (Qle_bool 1 a) eqn:E.
  - apply Qle_bool_iff in E.
    assert (H1 : (1 <= Qfloor a)%Z).
    { change 1%Z with (Qfloor 1). now apply Qfloor_resp_le. }
    rewrite two_pow_Z by apply Z.log2_nonneg.
    apply Qle_trans with (inject_Z (Qfloor a)); [|apply Qfloor_le].
    rewrite <- Zle_Qle. apply Z.log2_spec. lia.
  - assert (Hlt : a < 1).
    { apply Qnot_le_lt. intros H. apply Qle_bool_iff in H. congruence. }
    set (c := Qceiling (/ a)).
    assert (Hinv : 1 < / a).
    { apply Qlt_shift_inv_l; [exact Ha|]. now rewrite Qmult_1_l. }
    assert (Hc : (1 < c)%Z).
    { apply Z.lt_le_trans with (Qceiling 1 + 1)%Z; [reflexivity|].
      assert (H : inject_Z 1 < inject_Z c).
      { apply Qlt_le_trans with (/ a); [exact Hinv | apply Qle_ceiling]. }
      rewrite <- Zlt_Qlt in H. simpl. lia. }
    rewrite two_pow_opp.
    assert (Hk : / a <= two_pow (Z.log2_up c)).
    { rewrite two_pow_Z by apply Z.log2_up_nonneg.
      apply Qle_trans with (inject_Z c); [apply Qle_ceiling|].
      rewrite <- Zle_Qle. apply Z.log2_up_spec. exact Hc. }
    apply Qle_shift_inv_r; [apply two_pow_pos|].
    assert (Ha' : ~ a == 0) by (intros E0; rewrite E0 in Ha; discriminate).
    rewrite Qmult_comm.
    setoid_replace 1 with (/ a * a) by (field; exact Ha').
    apply Qmult_le_compat_r; [exact Hk | now apply Qlt_le_weak].
Qed.

Lemma ilog2_comp (a b : Q) : a == b -> ilog2 a = ilog2 b.
Proof.
  intros H. unfold ilog2. rewrite H.
  destruct (Qle_bool 1 b).
  - now rewrite H.
  - now rewrite H.
Qed.

Lemma rne_comp (a b : Q) : a == b -> rne a = rne b.
Proof.
  intros H. unfold rne. rewrite (Qfloor_comp _ _ H).
  rewrite H. reflexivity.
Qed.

Lemma rne_Z (k : Z) : rne (inject_Z k) = k.
Proof.
  unfold rne. rewrite Qfloor_Z.
  assert (E : inject_Z k - inject_Z k == 0) by ring.
  rewrite E. reflexivity.
Qed.

Lemma round_mag_comp (neg : bool) (a b : Q) :
  a == b -> round_mag neg a = round_mag neg b.
Proof.
  intros H. unfold round_mag.
  rewrite (ilog2_comp _ _ H).
  set (fe := Z.max _ _).
  assert (E : rne (a / two_pow fe) = rne (b / two_pow fe))
    by (apply rne_comp; now rewrite H).
  rewrite E. reflexivity.
Qed.

Lemma round32_comp (a b : Q) : a == b -> round32 a = round32 b.
Proof.
  intros H. unfold round32. rewrite H.
  destruct (b ?= 0); [reflexivity | |].
  - apply round_mag_comp. now rewrite H.
  - now apply round_mag_comp.
Qed.

(** A positive value [m * 2^e] with [m] below [2^24] and [e] at least the
    exponent of the smallest float is not changed by the rounding. *)
Lemma round_mag_exact (neg : bool) (m e : Z) :
  (0 < m < 2 ^ 24)%Z -> (emin <= e)%Z ->
  inject_Z m * two_pow e < two_pow emax ->
  round_mag neg (inject_Z m * two_pow e)
  = Fin (Q2Qc (if neg then - (inject_Z m * two_pow e)
               else inject_Z m * two_pow e)).
Proof.
  intros Hm He Hmax. set (a := inject_Z m * two_pow e).
  assert (Ha : 0 < a).
  { unfold a. apply Qmult_lt_0_compat; [|apply two_pow_pos].
    change 0 with (inject_Z 0). rewrite <- Zlt_Qlt. lia. }
  unfold round_mag. fold a.
  set (fe := Z.max (ilog2 a - (prec - 1)) emin).
  assert (Hfe : (fe <= e)%Z).
  { unfold fe. apply Z.max_lub; [|exact He].
    assert (H : two_pow (ilog2 a) < two_pow (24 + e)).
    { apply Qle_lt_trans with a; [now apply ilog2_le|].
      unfold a. rewrite two_pow_plus.
      apply Qmult_lt_compat_r; [apply two_pow_pos|].
      rewrite two_pow_Z by lia. rewrite <- Zlt_Qlt. lia. }
    apply Qpower_lt_compat_l_inv in H; [|reflexivity]. unfold prec. lia. }
  set (K := (m * 2 ^ (e - fe))%Z).
  assert (HK : a / two_pow fe == inject_Z K).
  { unfold a, K. rewrite inject_Z_mult, <- two_pow_Z by lia.
    replace (e - fe)%Z with (e + - fe)%Z by lia.
    rewrite two_pow_plus, two_pow_opp.
    field. intros E. pose proof (two_pow_pos fe) as P. rewrite E in P. discriminate. }
  rewrite (rne_comp _ _ HK), rne_Z. unfold pack.
  assert (Hv : inject_Z K * two_pow fe == a).
  { rewrite <- HK. field.
    intros E. pose proof (two_pow_pos fe) as P. rewrite E in P. discriminate. }
  assert (Hov : Qle_bool (two_pow emax) (inject_Z K * two_pow fe) = false).
  { destruct (Qle_bool _ _) eqn:E; [|reflexivity].
    apply Qle_bool_iff in E. rewrite Hv in E.
    exfalso. apply (Qlt_not_le _ _ Hmax). exact E. }
  rewrite Hov.
  assert (HK0 : (K =? 0)%Z = false).
  { apply Z.eqb_neq. unfold K.
    assert (0 < 2 ^ (e - fe))%Z by (apply Z.pow_pos_nonneg; lia). nia. }
  rewrite HK0. f_equal. apply Q2Qc_eq_iff. rewrite Qred_correct.
  destruct neg; now rewrite Hv.
Qed.

Lemma round32_exact (m e : Z) :
  (Z.abs m < 2 ^ 24)%Z -> (emin <= e)%Z ->
  inject_Z (Z.abs m) * two_pow e < two_pow emax ->
  round32 (inject_Z m * two_pow e) = Fin (Q2Qc (inject_Z m * two_pow e)).
Proof.
  intros Hm He Hmax. unfold round32.
  pose proof (two_pow_pos e) as Hp.
  destruct (Z.lt_trichotomy m 0) as [Hneg | [-> | Hpos]].
  - assert (Hlt : inject_Z m * two_pow e < 0).
    { setoid_replace 0 with (0 * two_pow e) by ring.
      apply Qmult_lt_compat_r; [exact Hp|].
      change 0 with (inject_Z 0). rewrite <- Zlt_Qlt. exact Hneg. }
    rewrite (proj1 (Qlt_alt _ _) Hlt).
    assert (E : - (inject_Z m * two_pow e) == inject_Z (Z.abs m) * two_pow e).
    { rewrite Z.abs_neq by lia. rewrite inject_Z_opp. ring. }
    rewrite (round_mag_comp _ _ _ E), round_mag_exact; try assumption; [|lia].
    f_equal. apply Q2Qc_eq_iff. rewrite <- E. ring.
  - assert (E : inject_Z 0 * two_pow e == 0) by ring.
    rewrite (proj1 (Qeq_alt _ _) E). f_equal.
    apply Q2Qc_eq_iff. now rewrite E.
  - assert (Hgt : 0 < inject_Z m * two_pow e).
    { apply Qmult_lt_0_compat; [|exact Hp].
      change 0 with (inject_Z 0). rewrite <- Zlt_Qlt. exact Hpos. }
    rewrite (proj1 (Qgt_alt _ _) Hgt).
    rewrite Z.abs_eq in * by lia.
    apply (round_mag_exact false); try assumption. lia.
Qed.

(** Every integer of magnitude at most [2^24] is a float. *)
Lemma round32_Z (z : Z) :
  (Z.abs z <= 2 ^ 24)%Z -> round32 (inject_Z z) = of_Z z.
Proof.
  intros H.
  destruct (Z.eq_dec (Z.abs z) (2 ^ 24)) as [E|E].
  - destruct z as [|p|p]; simpl in E; try discriminate;
      inversion E; subst; vm_compute; reflexivity.
  - assert (Hq : inject_Z z == inject_Z z * two_pow 0)
      by (unfold two_pow; simpl; ring).
    rewrite (round32_comp _ _ Hq), round32_exact.
    + unfold of_Z, of_Q. f_equal. apply Q2Qc_eq_iff. now rewrite <- Hq.
    + lia.
    + unfold emin. lia.
    + unfold two_pow at 1. simpl Qpower. rewrite Qmult_1_r.
      unfold emax. rewrite two_pow_Z by lia. rewrite <- Zlt_Qlt. 
      apply Z.le_lt_trans with (2 ^ 24)%Z; [lia | reflexivity].
Qed.

(** [round32] agrees with the IEEE division of [SpecFloat] on values that
    take every path of the rounding: ties, the subnormal range, underflow
    to zero and overflow. *)
Lemma round32_agrees_with_SpecFloat :
  forallb (fun q => float_eqb (round32 q) (spec_round q))
    [ 1 # 10; 1 # 3; - (1 # 10); 7 # 5; 1; 2; 1 # 2; 16777217 # 1;
      16777219 # 1; 33554434 # 1; 123456789 # 1000;
      Qpower 10 39; Qpower 10 38; (34028235 # 1) * Qpower 10 31;
      (34028236 # 1) * Qpower 10 31; Qpower 10 (-39); Qpower 10 (-45);
      (7 # 10) * Qpower 10 (-45); Qpower 10 (-46); - Qpower 10 (-46);
      two_pow 128 - two_pow 103; two_pow 128 - two_pow 103 - (1 # 1000);
      two_pow (-150); two_pow (-150) + two_pow (-200);
      (3 # 1) * two_pow (-150); (5 # 1) * two_pow (-150);
      (16777215 # 1) * two_pow (-149); (16777217 # 2) * two_pow (-126) ]%Q
  = true.
Proof. vm_compute. reflexivity. Qed.

(** ** Operations that do not round *)

Lemma has_val_Fin (q : Qc) : has_val (Fin q) q.
Proof. split; reflexivity. Qed.

Lemma has_val_nonzero (x : float) (q : Qc) :
  has_val x q -> q <> 0%Qc -> x = Fin q.
Proof.
  intros [Hf Hv] Hq. destruct x; simpl in *; try discriminate.
  - now subst.
  - congruence.
Qed.

Lemma has_val_eq (x : float) (q r : Qc) : has_val x q -> q = r -> has_val x r.
Proof. intros H <-. exact H. Qed.

Lemma is_finite_cases (x : float) :
  is_finite x = true -> x = Fin (fval x) \/ x = NZero.
Proof. destruct x; simpl; intros H; try discriminate; auto. Qed.

Lemma roundc_float (q : Qc) : is_float32 q = true -> has_val (roundc q) q.
Proof. intros H. rewrite (is_float32_round q H). apply has_val_Fin. Qed.

Lemma has_val_add (x y : float) (p q r : Qc) :
  has_val x p -> has_val y q -> (p + q)%Qc = r -> is_float32 r = true ->
  has_val (x + y)%float r.
Proof.
  intros [Fx <-] [Fy <-] <- Hr.
  destruct (is_finite_cases x Fx) as [Ex | ->],
           (is_finite_cases y Fy) as [Ey | ->];
    try rewrite Ex in *; try rewrite Ey in *; cbn [fadd fval] in *;
    try (apply roundc_float; exact Hr).
  split; reflexivity.
Qed.

Lemma has_val_opp (x : float) (p : Qc) :
  has_val x p -> has_val (- x)%float (- p)%Qc.
Proof.
  intros [Fx <-]. destruct (is_finite_cases x Fx) as [Ex | ->].
  - rewrite Ex. cbn [fopp fval]. destruct (Qc_is_zero (fval x)) eqn:E.
    + apply Qc_is_zero_true in E. rewrite E. split; reflexivity.
    + apply has_val_Fin.
  - split; reflexivity.
Qed.

Lemma has_val_sub (x y : float) (p q r : Qc) :
  has_val x p -> has_val y q -> (p - q)%Qc = r -> is_float32 r = true ->
  has_val (x - y)%float r.
Proof.
  intros Hx Hy Hr He. unfold fsub.
  apply (has_val_add _ _ p (- q)%Qc); [exact Hx | now apply has_val_opp | | exact He].
  exact Hr.
Qed.

Lemma signed_zero_val (neg : bool) : has_val (signed_zero neg) 0%Qc.
Proof. destruct neg; split; reflexivity. Qed.

Lemma has_val_mul (x y : float) (p q r : Qc) :
  has_val x p -> has_val y q -> (p * q)%Qc = r -> is_float32 r = true ->
  has_val (x * y)%float r.
Proof.
  intros [Fx <-] [Fy <-] <- Hr.
  assert (E : (x * y)%float
              = if Qc_is_zero (fval x * fval y)
                then signed_zero (xorb (sign_bit x) (sign_bit y))
                else roundc (fval x * fval y)).
  { unfold fmul. rewrite Fx, Fy. destruct x, y; try discriminate; reflexivity. }
  rewrite E. destruct (Qc_is_zero _) eqn:Ez.
  - apply Qc_is_zero_true in Ez. rewrite Ez. apply signed_zero_val.
  - apply roundc_float, Hr.
Qed.

Lemma has_val_div (x y : float) (p q r : Qc) :
  has_val x p -> has_val y q -> q <> 0%Qc -> (p / q)%Qc = r ->
  is_float32 r = true -> has_val (x / y)%float r.
Proof.
  intros [Fx <-] [Fy <-] Hq <- Hr.
  assert (Zy : is_zero y = false).
  { destruct y; simpl in *; try discriminate.
    - now apply Qc_is_zero_false.
    - congruence. }
  assert (E : (x / y)%float
              = if Qc_is_zero (fval x / fval y)
                then signed_zero (xorb (sign_bit x) (sign_bit y))
                else roundc (fval x / fval y)).
  { unfold fdiv. rewrite Fx, Fy, Zy. destruct x, y; try discriminate; reflexivity. }
  rewrite E. destruct (Qc_is_zero _) eqn:Ez.
  - apply Qc_is_zero_true in Ez. rewrite Ez. apply signed_zero_val.
  - apply roundc_float, Hr.
Qed.

(** The difference of a value with itself is the positive zero, and the
    quotient of a positive value by it the positive infinity. *)
Lemma fsub_self (a : Qc) : (Fin a - Fin a)%float = Fin 0.
Proof.
  unfold fsub, fopp. destruct (Qc_is_zero a) eqn:E.
  - apply Qc_is_zero_true in E. subst. reflexivity.
  - cbn [fadd fval]. rewrite Qcplus_opp_r. reflexivity.
Qed.

(** ** Binary32 values *)

(** A rational [m * 2^e] with [m] of less than 24 bits, [e] at least the
    exponent of the smallest float, and magnitude below [2^128], is a
    binary32 value. *)
Lemma is_float32_dyadic (q : Qc) (m e : Z) :
  (q == inject_Z m * two_pow e)%Q ->
  (Z.abs m < 2 ^ 24)%Z -> (emin <= e)%Z ->
  (inject_Z (Z.abs m) * two_pow e < two_pow emax)%Q ->
  is_float32 q = true.
Proof.
  intros Hq Hm He Hmax. unfold is_float32, roundc.
  rewrite (round32_comp _ _ Hq), round32_exact by assumption.
  assert (E : Q2Qc (inject_Z m * two_pow e) = q).
  { apply Qc_is_canon. cbn [this Q2Qc].
    apply Qeq_trans with (inject_Z m * two_pow e)%Q;
      [apply Qred_correct | now symmetry]. }
  rewrite E. unfold float_eqb.
  apply Qc_is_zero_true. ring.
Qed.

Lemma this_Q2Qc (q : Q) : (this (Q2Qc q) == q)%Q.
Proof. apply Qred_correct. Qed.
Lemma this_plus (a b : Qc) : (this (a + b)%Qc == this a + this b)%Q.
Proof. apply Qred_correct. Qed.
Lemma this_opp (a : Qc) : (this (- a)%Qc == - this a)%Q.
Proof. apply Qred_correct. Qed.
Lemma this_minus (a b : Qc) : (this (a - b)%Qc == this a - this b)%Q.
Proof. unfold Qcminus. rewrite this_plus, this_opp. reflexivity. Qed.
Lemma this_mult (a b : Qc) : (this (a * b)%Qc == this a * this b)%Q.
Proof. apply Qred_correct. Qed.
Lemma this_inv (a : Qc) : (this (/ a)%Qc == / this a)%Q.
Proof. apply Qred_correct. Qed.
Lemma this_div (a b : Qc) : (this (a / b)%Qc == this a / this b)%Q.
Proof. unfold Qcdiv. rewrite this_mult, this_inv. reflexivity. Qed.

Lemma below_emax (m e : Z) :
  (Z.abs m < 2 ^ 24)%Z -> (e <= 100)%Z ->
  (inject_Z (Z.abs m) * two_pow e < two_pow emax)%Q.
Proof.
  intros Hm He.
  apply Qlt_le_trans with (two_pow 24 * two_pow e)%Q.
  - apply Qmult_lt_compat_r; [apply two_pow_pos|].
    rewrite two_pow_Z by lia. rewrite <- Zlt_Qlt. exact Hm.
  - rewrite <- two_pow_plus. apply two_pow_le. unfold emax. lia.
Qed.

End FloatFacts.

Module ViewerFacts.
Import IStream Float Glm Viewer.

(** ** The parser *)

Lemma command_eqb_eq (a b : list ascii) : command_eqb a b = true <-> a = b.
Proof.
  unfold command_eqb. destruct (list_eq_dec ascii_dec a b); split; congruence.
Qed.

(** On a line that is not empty the loop body either extends the frontier
    or reports the first token, according to that token alone. *)
Lemma parse_line_cases (indet : vertex) (line : list ascii) (f : frontier) :
  is_nil line = false ->
  if unknown_command line
  then parse_line indet line f = inl (command_of line)
  else exists f', parse_line indet line f = inr f'.
Proof.
  intros Hne. unfold parse_line, unknown_command, command_of. rewrite Hne.
  destruct (get_string (open line) []) as [s command]; simpl.
  destruct (command_eqb command cmd_v) eqn:Hv; simpl.
  - destruct (get_float s (x indet)) as [s1 vx].
    destruct (get_float s1 (y indet)) as [s2 vy].
    destruct (get_float s2 (z indet)) as [s3 vz]. eauto.
  - destruct (command_eqb command cmd_l) eqn:Hl; simpl.
    + destruct (get_uint32 s 0%Z) as [s1 e1].
      destruct (get_uint32 s1 0%Z) as [s2 e2]. eauto.
    + reflexivity.
Qed.

Lemma parse_lines_find (indet : vertex) (ls : list (list ascii)) :
  forall f,
    match find unknown_command ls with
    | Some line => parse_lines indet ls f = inl (command_of line)
    | None => exists f', parse_lines indet ls f = inr f'
    end.
Proof.
  induction ls as [|line rest IH]; intros f; simpl.
  - eauto.
  - destruct (is_nil line) eqn:Hne.
    + replace (unknown_command line) with false
        by (unfold unknown_command; rewrite Hne; reflexivity).
      apply IH.
    + pose proof (parse_line_cases indet line f Hne) as H.
      destruct (unknown_command line).
      * rewrite H. reflexivity.
      * destruct H as [f' ->]. apply IH.
Qed.

Lemma parse_line_v (indet : vertex) (line : list ascii) (f : frontier) :
  command_eqb (command_of line) cmd_v = true ->
  parse_line indet line f
  = inr {| vertices := vertices f ++ [read_vertex indet line];
           edges := edges f |}.
Proof.
  unfold parse_line, read_vertex, command_of.
  destruct (get_string (open line) []) as [s command]; simpl.
  intros ->.
  destruct (get_float s (x indet)) as [s1 vx].
  destruct (get_float s1 (y indet)) as [s2 vy].
  destruct (get_float s2 (z indet)) as [s3 vz]. reflexivity.
Qed.

Lemma parse_line_l (indet : vertex) (line : list ascii) (f : frontier) :
  command_eqb (command_of line) cmd_v = false ->
  command_eqb (command_of line) cmd_l = true ->
  parse_line indet line f
  = inr {| vertices := vertices f; edges := edges f ++ [read_edge line] |}.
Proof.
  unfold parse_line, read_edge, command_of.
  destruct (get_string (open line) []) as [s command]; simpl.
  intros -> ->.
  destruct (get_uint32 s 0%Z) as [s1 e1].
  destruct (get_uint32 s1 0%Z) as [s2 e2]. reflexivity.
Qed.

Lemma parse_line_unknown (indet : vertex) (line : list ascii) (f : frontier) :
  command_eqb (command_of line) cmd_v = false ->
  command_eqb (command_of line) cmd_l = false ->
  parse_line indet line f = inl (command_of line).
Proof.
  unfold parse_line, command_of.
  destruct (get_string (open line) []) as [s command]; simpl.
  intros -> ->. reflexivity.
Qed.

(** An accepted parse appends, in file order, one vertex per [v] line and
    one edge per [l] line, each read from its own line only. *)
Lemma parse_lines_content (indet : vertex) (ls : list (list ascii)) :
  forall f f',
    parse_lines indet ls f = inr f' ->
    vertices f' = vertices f ++ map (read_vertex indet) (filter is_v_line ls)
    /\ edges f' = edges f ++ map read_edge (filter is_l_line ls).
Proof.
  induction ls as [|line rest IH]; intros f f' H; simpl in *.
  - inversion H; subst. now rewrite !app_nil_r.
  - unfold is_v_line, is_l_line at 1.
    destruct (is_nil line) eqn:Hne; simpl.
    + now apply IH.
    + destruct (command_eqb (command_of line) cmd_v) eqn:Hv; simpl.
      * rewrite (parse_line_v indet line f Hv) in H.
        apply IH in H. simpl in H. destruct H as [H1 H2].
        rewrite H1, H2, <- app_assoc. split; reflexivity.
      * destruct (command_eqb (command_of line) cmd_l) eqn:Hl; simpl.
        -- rewrite (parse_line_l indet line f Hv Hl) in H.
           apply IH in H. simpl in H. destruct H as [H1 H2].
           rewrite H1, H2, <- app_assoc. split; reflexivity.
        -- rewrite (parse_line_unknown indet line f Hv Hl) in H.
           discriminate.
Qed.

Lemma span_Forall (p : ascii -> bool) (l : list ascii) :
  Forall (fun c => p c = true) (fst (span p l)).
Proof.
  induction l as [|c t IH]; simpl.
  - constructor.
  - destruct (p c) eqn:Hp.
    + destruct (span p t) as [a b]. simpl in *. constructor; assumption.
    + constructor.
Qed.

Lemma digit_value_range (c : ascii) :
  isdigit c = true -> (0 <= digit_value c <= 9)%Z.
Proof.
  unfold isdigit, digit_value. intros H.
  apply andb_true_iff in H. destruct H as [H1 H2].
  apply Nat.leb_le in H1. apply Nat.leb_le in H2. lia.
Qed.

Lemma digits_fold_nonneg (ds : list ascii) :
  Forall (fun c => isdigit c = true) ds ->
  forall acc : Z,
    (0 <= acc)%Z ->
    (0 <= fold_left (fun a c => 10 * a + digit_value c) ds acc)%Z.
Proof.
  induction 1 as [|c t Hc Ht IH]; intros acc Hacc; cbn [fold_left].
  - exact Hacc.
  - apply IH. apply digit_value_range in Hc. lia.
Qed.

Lemma digits_value_nonneg (ds : list ascii) :
  Forall (fun c => isdigit c = true) ds -> (0 <= digits_value ds)%Z.
Proof.
  intros H. unfold digits_value. apply digits_fold_nonneg; [exact H | lia].
Qed.

(** What [stream >> n] leaves in a [uint32_t] is a [uint32_t]. *)
Lemma get_uint32_range (s : istream) (old : Z) :
  is_uint32 old -> is_uint32 (snd (get_uint32 s old)).
Proof.
  unfold get_uint32, is_uint32. intros Hold.
  destruct (sentry s) as [s1 ok]. destruct ok; [|exact Hold].
  destruct (get_sign (buf s1)) as [neg b1].
  pose proof (span_Forall isdigit b1) as Hds.
  destruct (span isdigit b1) as [ds rest]. cbn [fst] in Hds.
  destruct ds as [|d ds']; cbn [snd].
  - unfold UINT32_MAX; lia.
  - apply digits_value_nonneg in Hds.
    destruct (Z.ltb_spec UINT32_MAX (digits_value (d :: ds'))); cbn [snd].
    + unfold UINT32_MAX; lia.
    + destruct neg.
      * pose proof (Z.mod_pos_bound (UINT32_MAX + 1 - digits_value (d :: ds'))
                      (UINT32_MAX + 1)) as Hm.
        unfold UINT32_MAX in *. lia.
      * lia.
Qed.

Lemma read_edge_range (line : list ascii) :
  is_uint32 (fst (read_edge line)) /\ is_uint32 (snd (read_edge line)).
Proof.
  unfold read_edge.
  destruct (get_string (open line) []) as [s command].
  pose proof (get_uint32_range s 0) as H1.
  destruct (get_uint32 s 0%Z) as [s1 e1].
  pose proof (get_uint32_range s1 0) as H2.
  destruct (get_uint32 s1 0%Z) as [s2 e2]. cbn [fst snd] in *.
  split; [apply H1 | apply H2]; unfold is_uint32, UINT32_MAX; lia.
Qed.

Lemma find_all_false {A : Type} (p : A -> bool) (l : list A) :
  (forall a, In a l -> p a = false) -> find p l = None.
Proof.
  induction l as [|a t IH]; intros H; simpl.
  - reflexivity.
  - rewrite (H a (or_introl eq_refl)). apply IH. intros b Hb. apply H. now right.
Qed.

Lemma filter_all_false {A : Type} (p : A -> bool) (l : list A) :
  (forall a, In a l -> p a = false) -> filter p l = [].
Proof.
  induction l as [|a t IH]; intros H; simpl.
  - reflexivity.
  - rewrite (H a (or_introl eq_refl)). apply IH. intros b Hb. apply H. now right.
Qed.

(** With a path as its one argument and a file that opens, [main] is
    [main_on] of the content of the file. *)
Lemma main_with_file
  (indet : vertex) (prog path file : string) (fs : string -> option string) :
  fs path = Some file -> main indet [prog; path] fs = main_on indet file.
Proof. intros H. unfold main. now rewrite H. Qed.

(** The parse stops at the first line that is not empty and whose first
    token is neither [v] nor [l]. *)
Lemma parse_stops_at_first_unknown (indet : vertex) (file : string) :
  let ls := getlines (list_ascii_of_string file) in
  match find unknown_command ls with
  | Some line =>
      parse indet file = inl (command_of line)
      /\ main_on indet file
         = Exit (-1) EmptyString (parse_error_message (command_of line))
  | None =>
      exists f, parse indet file = inr f /\ main_on indet file = frame f
  end.
Proof.
  intros ls.
  pose proof (parse_lines_find indet ls {| vertices := []; edges := [] |}) as H.
  unfold main_on, parse. fold ls.
  destruct (find unknown_command ls) as [line|] eqn:Hfind.
  - rewrite H. split; reflexivity.
  - destruct H as [f Hf]. rewrite Hf. eauto.
Qed.

Lemma blank_nil_iff (line : list ascii) : blank line = false -> is_nil line = false.
Proof. destruct line; [discriminate | reflexivity]. Qed.

(** Where every blank line is empty, the lines the parser stops at are the
    lines the specification names. *)
Lemma unknown_is_bad (ls : list (list ascii)) :
  blank_lines_empty ls ->
  forall line, In line ls -> unknown_command line = bad_command line.
Proof.
  intros H line Hin. unfold unknown_command, bad_command.
  destruct (blank line) eqn:E.
  - rewrite (H line Hin E). reflexivity.
  - now rewrite (blank_nil_iff line E).
Qed.

Lemma find_ext_in {A : Type} (p q : A -> bool) (l : list A) :
  (forall a, In a l -> p a = q a) -> find p l = find q l.
Proof.
  induction l as [|a t IH]; intros H; [reflexivity|].
  cbn [find]. rewrite <- (H a (or_introl eq_refl)).
  destruct (p a); [reflexivity|]. apply IH. intros b Hb. apply H. now right.
Qed.




(** C7, as amended. The edges of an accepted frontier are, in file order,
    what the two extractions read from each [l] line; both indices are
    [uint32_t] values, and nothing compares them with the vertex count. *)
Theorem parsed_edges_are_unchecked_uint32
  (indet : vertex) (file : string) (f : frontier) :
  parse indet file = inr f ->
  edges f
  = map read_edge (filter is_l_line (getlines (list_ascii_of_string file)))
  /\ Forall (fun e => is_uint32 (fst e) /\ is_uint32 (snd e)) (edges f).
Proof.
  intros H. apply parse_lines_content in H. destruct H as [_ H]. simpl in H.
  split; [exact H|]. rewrite H. apply Forall_map, Forall_forall.
  intros line _. apply read_edge_range.
Qed.

Lemma parsed_edges_are_unchecked_uint32_witness :
  exists f,
    parse (fvec 0 0 0) "l 0 5"%string = inr f
    /\ edges f = [(0, 5)%Z]
    /\ Forall (fun e => is_uint32 (fst e) /\ is_uint32 (snd e)) (edges f).
Proof.
  eexists. split; [vm_compute; reflexivity|].
  split; [reflexivity|].
  exact (proj2 (parsed_edges_are_unchecked_uint32
                  (fvec 0 0 0) "l 0 5"%string _ eq_refl)).
Defined.

(** C7, the claim as written fails: this file is accepted, it has one
    vertex, and its edge names vertex 5. *)
Lemma edge_index_beyond_vertex_count :
  exists f,
    parse (fvec 0 0 0) ("v 0 0 0" ++ nl ++ "l 0 5" ++ nl)%string = inr f
    /\ List.length (vertices f) = 1%nat
    /\ ~ Forall (edge_in_range f) (edges f).
Proof.
  eexists. split; [vm_compute; reflexivity|].
  split; [reflexivity|].
  intros H. inversion H as [|e t [_ [_ Hlt]] _]; subst.
  vm_compute in Hlt. discriminate.
Qed.

End ViewerFacts.

Module FramerFacts.
Import IStream Float Glm Viewer.

(** ** The bounding box *)

(** [vertices[0]] is read whatever the size of the vector. *)
Lemma aabb_none_iff (vs : list vertex) : aabb vs = None <-> vs = [].
Proof.
  unfold aabb. destruct vs as [|v t]; simpl; split; congruence.
Qed.

(** C10. A file in which every line is empty or an [l] line is accepted by
    the parser with an empty vertex list, and [main] then reads
    [vertices[0]] outside the vector: nothing checks that the list is not
    empty. *)
Theorem empty_vertex_list_is_read_out_of_range (indet : vertex) (file : string) :
  (forall line, In line (getlines (list_ascii_of_string file)) ->
                line = [] \/ is_l_line line = true) ->
  exists f,
    parse indet file = inr f
    /\ vertices f = []
    /\ aabb (vertices f) = None
    /\ main_on indet file = OutOfRange.
Proof.
  intros Hlines.
  set (ls := getlines (list_ascii_of_string file)) in *.
  assert (Hu : forall line, In line ls -> unknown_command line = false).
  { intros line Hin. unfold unknown_command.
    destruct (Hlines line Hin) as [-> | Hl]; [reflexivity|].
    unfold is_l_line in Hl.
    apply andb_true_iff in Hl. destruct Hl as [_ ->].
    now rewrite andb_false_r. }
  assert (Hv : forall line, In line ls -> is_v_line line = false).
  { intros line Hin. unfold is_v_line.
    destruct (Hlines line Hin) as [-> | Hl]; [reflexivity|].
    unfold is_l_line in Hl.
    apply andb_true_iff in Hl. destruct Hl as [Hl _].
    apply andb_true_iff in Hl. destruct Hl as [_ Hl].
    apply negb_true_iff in Hl. rewrite Hl. now rewrite andb_false_r. }
  pose proof (ViewerFacts.parse_lines_find indet ls
                {| vertices := []; edges := [] |}) as H.
  rewrite (ViewerFacts.find_all_false _ _ Hu) in H. destruct H as [f Hf].
  pose proof (ViewerFacts.parse_lines_content indet ls _ _ Hf) as [Hvs _].
  rewrite (ViewerFacts.filter_all_false _ _ Hv) in Hvs. simpl in Hvs.
  exists f. unfold main_on, parse. fold ls. rewrite Hf. unfold frame.
  rewrite Hvs. repeat split; reflexivity.
Qed.

Lemma empty_vertex_list_is_read_out_of_range_witness :
  exists f,
    parse (fvec 0 0 0) ("l 0 1" ++ nl ++ nl ++ "l 1 2" ++ nl)%string = inr f
    /\ vertices f = []
    /\ aabb (vertices f) = None
    /\ main_on (fvec 0 0 0) ("l 0 1" ++ nl ++ nl ++ "l 1 2" ++ nl)%string
       = OutOfRange.
Proof.
  apply (empty_vertex_list_is_read_out_of_range (fvec 0 0 0)).
  intros line Hin. vm_compute in Hin.
  destruct Hin as [<- | [<- | [<- | []]]];
    [right; reflexivity | left; reflexivity | right; reflexivity].
Defined.

Lemma nth_error_skipn {A : Type} (l : list A) (i : nat) (a : A) :
  nth_error l i = Some a -> skipn i l = a :: skipn (S i) l.
Proof.
  revert i. induction l as [|b t IH]; intros [|i] H; simpl in *;
    try discriminate.
  - now inversion H.
  - now apply IH.
Qed.

Lemma tl_skipn {A : Type} (l : list A) (i : nat) :
  tl (skipn i l) = skipn (S i) l.
Proof.
  revert i. induction l as [|b t IH]; intros [|i]; simpl; try reflexivity.
  apply IH.
Qed.

Lemma evens_cons {A : Type} (a : A) (t : list A) :
  evens (a :: t) = a :: evens (tl t).
Proof. destruct t; reflexivity. Qed.

(** The loop from index [i], with fuel enough for the vertices left, folds
    [min] and [max] over the vertices at [i], [i + 2], [i + 4], ... *)
Lemma aabb_loop_evens (vs : list vertex) (fuel : nat) :
  forall (i : nat) (mn mx : vertex),
    (List.length vs <= i + 2 * fuel)%nat ->
    aabb_loop fuel i vs mn mx
    = fold_left (fun b v => (min (fst b) v, max (snd b) v))
                (evens (skipn i vs)) (mn, mx).
Proof.
  induction fuel as [|fuel IH]; intros i mn mx Hlen; cbn [aabb_loop].
  - rewrite skipn_all2 by lia. reflexivity.
  - destruct (Nat.ltb_spec i (List.length vs)) as [Hlt|Hge].
    + destruct (nth_error vs i) as [v|] eqn:Hnth.
      * rewrite (nth_error_skipn vs i v Hnth), evens_cons, tl_skipn.
        cbn [fold_left fst snd].
        replace (S (S i)) with (i + 2)%nat by lia.
        apply IH. lia.
      * apply nth_error_None in Hnth. lia.
    + rewrite skipn_all2 by lia. reflexivity.
Qed.

(** What [main] computes is the bounding box of the vertices at the even
    positions: the vertices 1, 3, 5, ... are never looked at. *)
Lemma aabb_scans_even_positions (vs : list vertex) :
  aabb vs = bounds_of_all (evens vs).
Proof.
  unfold aabb. destruct vs as [|v0 t]; [reflexivity|].
  cbn [nth_error]. rewrite aabb_loop_evens by (simpl; lia).
  rewrite evens_cons. cbn [bounds_of_all]. destruct t; reflexivity.
Qed.

(** C1. On the tetrahedron the loop of [main] looks at the vertices 0 and 2
    only: the box it computes has maximum (0, 1, 0), while the minimum and
    maximum over every vertex are (0, 0, 0) and (1, 1, 1). *)
Theorem aabb_of_tetrahedron_skips_vertices :
  exists f,
    parse (fvec 0 0 0) tetrahedron = inr f
    /\ vertices f = [fvec 0 0 0; fvec 1 0 0; fvec 0 1 0; fvec 0 0 1]
    /\ aabb (vertices f) = Some (fvec 0 0 0, fvec 0 1 0)
    /\ bounds_of_all (vertices f) = Some (fvec 0 0 0, fvec 1 1 1)
    /\ aabb (vertices f) <> bounds_of_all (vertices f).
Proof.
  eexists. split; [vm_compute; reflexivity|].
  split; [reflexivity|]. split; [vm_compute; reflexivity|].
  split; [vm_compute; reflexivity|].
  intros H. vm_compute in H. discriminate.
Qed.

(** ** The model matrix *)

Lemma model_scale_components (ax ay az bx by_ bz : Qc) :
  model_scale (fin3 ax ay az) (fin3 bx by_ bz)
  = Vec3 (scale_factor ax bx) (scale_factor ay by_) (scale_factor az bz).
Proof. reflexivity. Qed.

(** With no extent the difference is the positive zero, so is its half, and
    the quotient is [1 / 0]: the positive infinity. *)
Lemma scale_factor_degenerate (a : Qc) : scale_factor a a = PInf.
Proof. unfold scale_factor. rewrite FloatFacts.fsub_self. reflexivity. Qed.

Import FloatFacts.

Ltac float_side :=
  match goal with
  | |- is_float32 ?e = true =>
      first [ assumption
            | match goal with
              | H : is_float32 ?h = true |- _ => replace e with h by ring; exact H
              end
            | reflexivity ]
  end.

Lemma hv4_cmul (v : vec4 float) (s : float) (a b c d q a' b' c' d' : Qc) :
  hv4 v a b c d -> has_val s q ->
  (a * q = a')%Qc -> (b * q = b')%Qc -> (c * q = c')%Qc -> (d * q = d')%Qc ->
  is_float32 a' = true -> is_float32 b' = true -> is_float32 c' = true ->
  is_float32 d' = true ->
  hv4 (cmul v s) a' b' c' d'.
Proof.
  intros [Ha [Hb [Hc Hd]]] Hs Ea Eb Ec Ed Fa Fb Fc Fd.
  repeat split; cbn [cmul x4 y4 z4 w4];
    eapply has_val_mul; eauto; apply Hs.
Qed.

Lemma hv4_cadd (u v : vec4 float) (a b c d a' b' c' d' a2 b2 c2 d2 : Qc) :
  hv4 u a b c d -> hv4 v a' b' c' d' ->
  (a + a' = a2)%Qc -> (b + b' = b2)%Qc -> (c + c' = c2)%Qc -> (d + d' = d2)%Qc ->
  is_float32 a2 = true -> is_float32 b2 = true -> is_float32 c2 = true ->
  is_float32 d2 = true ->
  hv4 (cadd u v) a2 b2 c2 d2.
Proof.
  intros [Ha [Hb [Hc Hd]]] [Ha' [Hb' [Hc' Hd']]] Ea Eb Ec Ed Fa Fb Fc Fd.
  repeat split; cbn [cadd x4 y4 z4 w4]; eapply has_val_add; eauto.
Qed.

Lemma has_val_fone : has_val fone 1.
Proof. split; reflexivity. Qed.

Lemma has_val_fzero : has_val fzero 0.
Proof. split; reflexivity. Qed.

(** The image of a point under the matrix that [glm::scale] and
    [glm::translate] build from a scale [S] and a shift [T], when the
    scale factors are floats and neither the products with the shift and
    the point nor their sums round: [s * p + s * t] on every axis. *)
Lemma affine_image (S T P : vec3 float) (sx sy sz tx ty tz px py pz : Qc) :
  has_val (x S) sx -> has_val (y S) sy -> has_val (z S) sz ->
  has_val (x T) tx -> has_val (y T) ty -> has_val (z T) tz ->
  has_val (x P) px -> has_val (y P) py -> has_val (z P) pz ->
  is_float32 sx = true -> is_float32 sy = true -> is_float32 sz = true ->
  is_float32 (sx * tx) = true -> is_float32 (sy * ty) = true ->
  is_float32 (sz * tz) = true ->
  is_float32 (sx * px) = true -> is_float32 (sy * py) = true ->
  is_float32 (sz * pz) = true ->
  is_float32 (sx * px + sx * tx) = true ->
  is_float32 (sy * py + sy * ty) = true ->
  is_float32 (sz * pz + sz * tz) = true ->
  let q := transform_point (translate (scale identity S) T) P in
  has_val (x q) (sx * px + sx * tx)%Qc
  /\ has_val (y q) (sy * py + sy * ty)%Qc
  /\ has_val (z q) (sz * pz + sz * tz)%Qc.
Proof.
  intros Sx Sy Sz Tx Ty Tz Px Py Pz Fx Fy Fz Ftx Fty Ftz Fpx Fpy Fpz Fix Fiy Fiz.
  assert (I0 : hv4 (col0 identity) 1 0 0 0)
    by (repeat split; reflexivity).
  assert (I1 : hv4 (col1 identity) 0 1 0 0)
    by (repeat split; reflexivity).
  assert (I2 : hv4 (col2 identity) 0 0 1 0)
    by (repeat split; reflexivity).
  assert (I3 : hv4 (col3 identity) 0 0 0 1)
    by (repeat split; reflexivity).
  set (M := scale identity S).
  assert (C0 : hv4 (col0 M) sx 0 0 0).
  { apply (hv4_cmul _ _ _ _ _ _ _ _ _ _ _ I0 Sx); try ring; float_side. }
  assert (C1 : hv4 (col1 M) 0 sy 0 0).
  { apply (hv4_cmul _ _ _ _ _ _ _ _ _ _ _ I1 Sy); try ring; float_side. }
  assert (C2 : hv4 (col2 M) 0 0 sz 0).
  { apply (hv4_cmul _ _ _ _ _ _ _ _ _ _ _ I2 Sz); try ring; float_side. }
  assert (C3 : hv4 (col3 M) 0 0 0 1) by exact I3.
  set (M' := translate M T).
  assert (D0 : hv4 (cmul (col0 M) (x T)) (sx * tx) 0 0 0).
  { apply (hv4_cmul _ _ _ _ _ _ _ _ _ _ _ C0 Tx); try ring; float_side. }
  assert (D1 : hv4 (cmul (col1 M) (y T)) 0 (sy * ty) 0 0).
  { apply (hv4_cmul _ _ _ _ _ _ _ _ _ _ _ C1 Ty); try ring; float_side. }
  assert (D2 : hv4 (cmul (col2 M) (z T)) 0 0 (sz * tz) 0).
  { apply (hv4_cmul _ _ _ _ _ _ _ _ _ _ _ C2 Tz); try ring; float_side. }
  assert (D01 : hv4 (cadd (cmul (col0 M) (x T)) (cmul (col1 M) (y T)))
                    (sx * tx) (sy * ty) 0 0).
  { apply (hv4_cadd _ _ _ _ _ _ _ _ _ _ _ _ _ _ D0 D1); try ring; float_side. }
  assert (D012 : hv4 (cadd (cadd (cmul (col0 M) (x T)) (cmul (col1 M) (y T)))
                           (cmul (col2 M) (z T)))
                     (sx * tx) (sy * ty) (sz * tz) 0).
  { apply (hv4_cadd _ _ _ _ _ _ _ _ _ _ _ _ _ _ D01 D2); try ring; float_side. }
  assert (C3' : hv4 (col3 M') (sx * tx) (sy * ty) (sz * tz) 1).
  { apply (hv4_cadd _ _ _ _ _ _ _ _ _ _ _ _ _ _ D012 C3); try ring; float_side. }
  assert (E0 : hv4 (cmul (col0 M') (x P)) (sx * px) 0 0 0).
  { apply (hv4_cmul _ _ _ _ _ _ _ _ _ _ _ C0 Px); try ring; float_side. }
  assert (E1 : hv4 (cmul (col1 M') (y P)) 0 (sy * py) 0 0).
  { apply (hv4_cmul _ _ _ _ _ _ _ _ _ _ _ C1 Py); try ring; float_side. }
  assert (E2 : hv4 (cmul (col2 M') (z P)) 0 0 (sz * pz) 0).
  { apply (hv4_cmul _ _ _ _ _ _ _ _ _ _ _ C2 Pz); try ring; float_side. }
  assert (E3 : hv4 (cmul (col3 M') fone) (sx * tx) (sy * ty) (sz * tz) 1).
  { apply (hv4_cmul _ _ _ _ _ _ _ _ _ _ _ C3' has_val_fone); try ring; float_side. }
  assert (E01 : hv4 (cadd (cmul (col0 M') (x P)) (cmul (col1 M') (y P)))
                    (sx * px) (sy * py) 0 0).
  { apply (hv4_cadd _ _ _ _ _ _ _ _ _ _ _ _ _ _ E0 E1); try ring; float_side. }
  assert (E23 : hv4 (cadd (cmul (col2 M') (z P)) (cmul (col3 M') fone))
                    (sx * tx) (sy * ty) (sz * pz + sz * tz) 1).
  { apply (hv4_cadd _ _ _ _ _ _ _ _ _ _ _ _ _ _ E2 E3); try ring; float_side. }
  assert (R : hv4 (mul_vec4 M' (vec4_of P fone))
                  (sx * px + sx * tx) (sy * py + sy * ty)
                  (sz * pz + sz * tz) 1).
  { apply (hv4_cadd _ _ _ _ _ _ _ _ _ _ _ _ _ _ E01 E23); try ring; float_side. }
  destruct R as [Rx [Ry [Rz _]]].
  split; [exact Rx | split; [exact Ry | exact Rz]].
Qed.

Lemma Qc_half_eq : Q2Qc (1 # 2) = (1 / (1 + 1))%Qc.
Proof. apply Qc_is_canon. reflexivity. Qed.

Lemma Qc_two_neq_0 : (1 + 1)%Qc <> 0%Qc.
Proof. intro H. apply Q2Qc_eq_iff in H. discriminate. Qed.

Lemma Qc_half_neq_0 : Q2Qc (1 # 2) <> 0%Qc.
Proof. intro H. apply Q2Qc_eq_iff in H. discriminate. Qed.

Lemma Qc_lt_minus_neq_0 (a b : Qc) : (a < b)%Qc -> (b - a)%Qc <> 0%Qc.
Proof.
  intros Hlt H. apply Qclt_minus_iff in Hlt. unfold Qcminus in H.
  rewrite H in Hlt. revert Hlt. apply Qcle_not_lt, Qcle_refl.
Qed.

Lemma half_extent_neq_0 (a b : Qc) :
  (a < b)%Qc -> (Q2Qc (1 # 2) * (b - a))%Qc <> 0%Qc.
Proof.
  intros Hlt H. apply Qcmult_integral in H. destruct H as [H|H].
  - apply Qc_half_neq_0. exact H.
  - apply (Qc_lt_minus_neq_0 a b Hlt). exact H.
Qed.

(** Scale factor and shift of an axis on which nothing rounds. *)
Lemma exact_axis_scale_shift (a b : Qc) :
  (a < b)%Qc -> exact_axis a b = true ->
  let s := (1 / (Q2Qc (1 # 2) * (b - a)))%Qc in
  let t := (- Q2Qc (1 # 2) * (b + a))%Qc in
  has_val (scale_factor a b) s
  /\ has_val (fopp fhalf * (Fin b + Fin a))%float t
  /\ is_float32 s = true /\ is_float32 (s * t) = true
  /\ is_float32 (s * a) = true /\ is_float32 (s * b) = true.
Proof.
  intros Hlt H s t. unfold exact_axis in H. cbv zeta in H. fold s t in H.
  apply andb_true_iff in H. destruct H as [H Fb].
  apply andb_true_iff in H. destruct H as [H Fa].
  apply andb_true_iff in H. destruct H as [H Fst].
  apply andb_true_iff in H. destruct H as [H Ft].
  apply andb_true_iff in H. destruct H as [H Fu].
  apply andb_true_iff in H. destruct H as [H Fs].
  apply andb_true_iff in H. destruct H as [Fd Fh].
  assert (Hd : has_val (Fin b - Fin a)%float (b - a)%Qc).
  { apply (has_val_sub _ _ b a); [apply has_val_Fin | apply has_val_Fin | | exact Fd].
    reflexivity. }
  assert (Hh : has_val (fhalf * (Fin b - Fin a))%float (Q2Qc (1 # 2) * (b - a))%Qc).
  { apply (has_val_mul _ _ (Q2Qc (1 # 2)) (b - a)%Qc);
      [apply has_val_Fin | exact Hd | reflexivity | exact Fh]. }
  assert (Hs : has_val (scale_factor a b) s).
  { unfold scale_factor.
    apply (has_val_div _ _ 1%Qc (Q2Qc (1 # 2) * (b - a))%Qc);
      [apply has_val_fone | exact Hh | now apply half_extent_neq_0
       | reflexivity | exact Fs]. }
  assert (Hu : has_val (Fin b + Fin a)%float (b + a)%Qc).
  { apply (has_val_add _ _ b a); [apply has_val_Fin | apply has_val_Fin | | exact Fu].
    reflexivity. }
  assert (Ht : has_val (fopp fhalf * (Fin b + Fin a))%float t).
  { apply (has_val_mul _ _ (- Q2Qc (1 # 2))%Qc (b + a)%Qc);
      [split; reflexivity | exact Hu | reflexivity | exact Ft]. }
  repeat split; try assumption; try apply Hs; apply Ht.
Qed.

Lemma image_of_min (a b : Qc) :
  (a < b)%Qc ->
  let s := (1 / (Q2Qc (1 # 2) * (b - a)))%Qc in
  let t := (- Q2Qc (1 # 2) * (b + a))%Qc in
  (s * a + s * t)%Qc = Q2Qc (inject_Z (-1))
  /\ (s * b + s * t)%Qc = Q2Qc (inject_Z 1).
Proof.
  intros H s t. pose proof (Qc_lt_minus_neq_0 a b H) as Hne.
  pose proof Qc_two_neq_0 as H2.
  assert (Hneg : Q2Qc (inject_Z (-1)) = (- (1))%Qc)
    by (apply Qc_is_canon; reflexivity).
  change (Q2Qc (inject_Z 1)) with 1%Qc. rewrite Hneg.
  unfold s, t. rewrite Qc_half_eq.
  split; field; split; assumption.
Qed.

(** A box whose corners on an axis are integers of magnitude at most
    [2^22], a power of two apart, is mapped without rounding. *)
Lemma exact_axis_pow2 (A K : Z) :
  (Z.abs A <= 2 ^ 22)%Z -> (0 <= K <= 22)%Z ->
  exact_axis (Q2Qc (inject_Z A)) (Q2Qc (inject_Z (A + 2 ^ K))) = true.
Proof.
  intros HA HK.
  assert (HP : (0 < 2 ^ K <= 2 ^ 22)%Z).
  { split; [apply Z.pow_pos_nonneg; lia | apply Z.pow_le_mono_r; lia]. }
  pose proof (two_pow_pos K) as Pp.
  assert (Pn : ~ (two_pow K == 0)%Q).
  { intros E. rewrite E in Pp. discriminate. }
  assert (EP : (inject_Z (2 ^ K) == two_pow K)%Q)
    by (now rewrite two_pow_Z by lia).
  assert (E1 : (two_pow (K - 1) == two_pow K / 2)%Q).
  { replace (K - 1)%Z with (K + -1)%Z by lia. rewrite two_pow_plus.
    unfold two_pow at 2. simpl. field. }
  assert (E2 : (two_pow (1 - K) == 2 / two_pow K)%Q).
  { replace (1 - K)%Z with (1 + - K)%Z by lia.
    rewrite two_pow_plus, two_pow_opp. unfold two_pow at 1. simpl.
    field. exact Pn. }
  assert (E3 : (two_pow (- K) == 1 / two_pow K)%Q).
  { rewrite two_pow_opp. field. exact Pn. }
  assert (E4 : (two_pow (-1) == 1 # 2)%Q) by reflexivity.
  assert (E5 : (two_pow 0 == 1)%Q) by reflexivity.
  unfold exact_axis. cbv zeta.
  repeat (apply andb_true_iff; split).
  - apply (is_float32_dyadic _ 1 K); [|lia|unfold emin; lia
                                     |apply below_emax; lia].
    rewrite this_minus, !this_Q2Qc, inject_Z_plus, EP. ring.
  - apply (is_float32_dyadic _ 1 (K - 1)); [|lia|unfold emin; lia
                                           |apply below_emax; lia].
    rewrite this_mult, this_minus, !this_Q2Qc, inject_Z_plus, EP, E1. field.
  - apply (is_float32_dyadic _ 1 (1 - K)); [|lia|unfold emin; lia
                                           |apply below_emax; lia].
    rewrite this_div, this_mult, this_minus, !this_Q2Qc, inject_Z_plus, EP, E2.
    change (this 1%Qc) with 1%Q. field. exact Pn.
  - apply (is_float32_dyadic _ (2 * A + 2 ^ K) 0);
      [|lia|unfold emin; lia|apply below_emax; lia].
    rewrite this_plus, !this_Q2Qc, E5, !inject_Z_plus, inject_Z_mult, EP.
    change (inject_Z 2) with 2%Q. ring.
  - apply (is_float32_dyadic _ (- (2 * A + 2 ^ K)) (-1));
      [|lia|unfold emin; lia|apply below_emax; lia].
    rewrite this_mult, this_opp, this_plus, !this_Q2Qc, E4, inject_Z_opp,
      !inject_Z_plus, inject_Z_mult, EP.
    change (inject_Z 2) with 2%Q. field.
  - apply (is_float32_dyadic _ (- (2 * A + 2 ^ K)) (- K));
      [|lia|unfold emin; lia|apply below_emax; lia].
    rewrite !this_mult, this_div, this_mult, this_opp, this_minus, this_plus,
      !this_Q2Qc, E3, inject_Z_opp, !inject_Z_plus, inject_Z_mult, EP.
    change (this 1%Qc) with 1%Q. change (inject_Z 2) with 2%Q.
    field. exact Pn.
  - apply (is_float32_dyadic _ A (1 - K));
      [|lia|unfold emin; lia|apply below_emax; lia].
    rewrite this_mult, this_div, this_mult, this_minus,
      !this_Q2Qc, E2, !inject_Z_plus, EP.
    change (this 1%Qc) with 1%Q. field. exact Pn.
  - apply (is_float32_dyadic _ (A + 2 ^ K) (1 - K));
      [|lia|unfold emin; lia|apply below_emax; lia].
    rewrite this_mult, this_div, this_mult, this_minus,
      !this_Q2Qc, E2, !inject_Z_plus, EP.
    change (this 1%Qc) with 1%Q. field. exact Pn.
Qed.




Lemma mat4_finite_diagonal (m : mat4 float) :
  mat4_finite m = true ->
  is_finite (x4 (col0 m)) = true /\ is_finite (y4 (col1 m)) = true
  /\ is_finite (z4 (col2 m)) = true.
Proof.
  unfold mat4_finite, vec4_finite. intros H.
  repeat (apply andb_true_iff in H; destruct H as [H ?]).
  repeat match goal with
         | K : _ && _ = true |- _ => apply andb_true_iff in K; destruct K
         end.
  repeat split; assumption.
Qed.

Lemma model_diagonal (mn mx : vertex) :
  let m := model_matrix mn mx in
  x4 (col0 m) = (fone * x (model_scale mn mx))%float
  /\ y4 (col1 m) = (fone * y (model_scale mn mx))%float
  /\ z4 (col2 m) = (fone * z (model_scale mn mx))%float.
Proof. repeat split. Qed.

(** C3, as amended. When the box has no extent on an axis nothing is put in
    its place: the scale factor of that axis is the quotient [1 / 0], the
    positive infinity, it is the diagonal entry of the model matrix on that
    axis, and the model matrix is not finite. [main] does not fail on it:
    it calls [application::run] with that matrix. *)
Theorem degenerate_extent_gives_infinite_scale (ax ay az bx by_ bz : Qc) :
  ax = bx \/ ay = by_ \/ az = bz ->
  let mn := fin3 ax ay az in
  let mx := fin3 bx by_ bz in
  let m := model_matrix mn mx in
  (ax = bx -> x (model_scale mn mx) = PInf /\ x4 (col0 m) = PInf)
  /\ (ay = by_ -> y (model_scale mn mx) = PInf /\ y4 (col1 m) = PInf)
  /\ (az = bz -> z (model_scale mn mx) = PInf /\ z4 (col2 m) = PInf)
  /\ mat4_finite m = false
  /\ (forall f, aabb (vertices f) = Some (mn, mx) ->
                exists sc, frame f = Run sc /\ model sc = m).
Proof.
  intros Hdeg mn mx m.
  destruct (model_diagonal mn mx) as [Dx [Dy Dz]]. fold m in Dx, Dy, Dz.
  assert (Hx : ax = bx -> x (model_scale mn mx) = PInf /\ x4 (col0 m) = PInf).
  { intros <-. rewrite Dx. unfold mn, mx. rewrite model_scale_components.
    cbn [x]. rewrite scale_factor_degenerate. split; reflexivity. }
  assert (Hy : ay = by_ -> y (model_scale mn mx) = PInf /\ y4 (col1 m) = PInf).
  { intros <-. rewrite Dy. unfold mn, mx. rewrite model_scale_components.
    cbn [y]. rewrite scale_factor_degenerate. split; reflexivity. }
  assert (Hz : az = bz -> z (model_scale mn mx) = PInf /\ z4 (col2 m) = PInf).
  { intros <-. rewrite Dz. unfold mn, mx. rewrite model_scale_components.
    cbn [z]. rewrite scale_factor_degenerate. split; reflexivity. }
  split; [exact Hx|]. split; [exact Hy|]. split; [exact Hz|]. split.
  - destruct (mat4_finite m) eqn:Hfin; [|reflexivity].
    apply mat4_finite_diagonal in Hfin. destruct Hfin as [Fx [Fy Fz]].
    destruct Hdeg as [E | [E | E]].
    + destruct (Hx E) as [_ K]. rewrite K in Fx. discriminate.
    + destruct (Hy E) as [_ K]. rewrite K in Fy. discriminate.
    + destruct (Hz E) as [_ K]. rewrite K in Fz. discriminate.
  - intros f Hf. unfold frame. rewrite Hf. eexists. split; reflexivity.
Qed.

Lemma degenerate_extent_gives_infinite_scale_witness :
  let mn := fin3 (- (1 + 1)) 0 0 in
  let mx := fin3 (1 + 1) 0 0 in
  y (model_scale mn mx) = PInf /\ mat4_finite (model_matrix mn mx) = false.
Proof.
  pose proof (degenerate_extent_gives_infinite_scale
                (- (1 + 1)) 0 0 (1 + 1) 0 0 (or_intror (or_introl eq_refl)))
    as [_ [Hy [_ [Hfin _]]]].
  split; [exact (proj1 (Hy eq_refl)) | exact Hfin].
Defined.

(** C3, the claim as written fails: for a single vertex the box has no
    extent, the viewer is run, and its model matrix is not finite. *)
Lemma single_vertex_model_is_not_finite :
  exists sc,
    main_on (fvec 0 0 0) "v 1 2 3"%string = Run sc
    /\ aabb_min sc = aabb_max sc
    /\ x (model_scale (aabb_min sc) (aabb_max sc)) = PInf
    /\ mat4_finite (model sc) = false.
Proof.
  eexists. split; [vm_compute; reflexivity|].
  repeat split; vm_compute; reflexivity.
Qed.

End FramerFacts.

Module ApplicationFacts.
Import Glm Application.
Local Open Scope R_scope.

(** ** Zoom *)

Lemma radius_step (s : state) (e : event) :
  radius (step s e)
  = match e with
    | Scroll _ yoff => radius s * exp (- 0.1 * yoff)
    | _ => radius s
    end.
Proof.
  destruct e as [xoff yoff | key action | w h | xpos ypos l r]; simpl.
  - reflexivity.
  - unfold key_callback. destruct (_ && _); reflexivity.
  - reflexivity.
  - unfold update. destruct l, r; reflexivity.
Qed.

Lemma radius_run (es : list event) :
  forall s, radius (run s es) = radius s * exp (- 0.1 * Rsum (scroll_deltas es)).
Proof.
  induction es as [|e es IH]; intros s.
  - simpl. replace (- 0.1 * 0) with 0 by ring. rewrite exp_0. ring.
  - change (run s (e :: es)) with (run (step s e) es).
    rewrite IH, radius_step.
    destruct e as [xoff yoff | key action | w h | xpos ypos l r]; simpl;
      try reflexivity.
    replace (- 0.1 * (yoff + Rsum (scroll_deltas es)))
      with (- 0.1 * yoff + - 0.1 * Rsum (scroll_deltas es)) by ring.
    rewrite exp_plus. ring.
Qed.

Lemma Rsum_abs_nonneg (l : list R) : 0 <= Rsum (map Rabs l).
Proof.
  induction l as [|a t IH]; simpl; [lra|]. pose proof (Rabs_pos a). lra.
Qed.

Lemma exp_nat (n : nat) : exp (INR n) = exp 1 ^ n.
Proof.
  induction n as [|n IH].
  - simpl. apply exp_0.
  - rewrite S_INR, exp_plus, IH. simpl. ring.
Qed.

Lemma exp_50_bound : exp 50 <= 2 ^ 80.
Proof.
  replace 50 with (INR 50) by (rewrite INR_IZR_INZ; reflexivity).
  rewrite exp_nat.
  apply Rle_trans with (3 ^ 50).
  - apply pow_incr. split; [left; apply exp_pos | apply exp_le_3].
  - rewrite !pow_IZR. apply IZR_le. vm_compute. discriminate.
Qed.

Lemma exp_le (a b : R) : a <= b -> exp a <= exp b.
Proof.
  intros [H | ->]; [left; now apply exp_increasing | right; reflexivity].
Qed.

Lemma Rabs_le_both (v a : R) : Rabs v <= a -> - a <= v <= a.
Proof. unfold Rabs. destruct (Rcase_abs v); lra. Qed.

(** Within a wheel travel of 500 the factor of the radius is between
    [2^-80] and [2^80]. *)
Lemma zoom_factor_bounds (v : R) :
  Rabs v <= 500 -> / 2 ^ 80 <= exp (- 0.1 * v) <= 2 ^ 80.
Proof.
  intros H. apply Rabs_le_both in H.
  pose proof exp_50_bound as H50.
  assert (Hpos : 0 < exp 50) by apply exp_pos.
  assert (Hup : exp (- 0.1 * v) <= exp 50) by (apply exp_le; lra).
  assert (Hlo : exp (Ropp 50) <= exp (- 0.1 * v)) by (apply exp_le; lra).
  rewrite exp_Ropp in Hlo.
  split; [|lra].
  apply Rle_trans with (/ exp 50); [|exact Hlo].
  apply Rinv_le_contravar; assumption.
Qed.

Lemma bound_eq : bound = PI / 2 - 1 / 100000.
Proof. unfold bound. lra. Qed.

Lemma bound_pos : 0 < bound.
Proof. unfold bound. pose proof PI2_1. lra. Qed.

Lemma bound_below_pole : bound < PI / 2.
Proof. unfold bound. lra. Qed.

Lemma clamp_range (v lo hi : R) : lo <= hi -> lo <= clamp v lo hi <= hi.
Proof.
  intros H. unfold clamp.
  destruct (Rlt_dec v lo); [lra|]. destruct (Rlt_dec hi v); lra.
Qed.

Lemma clamp_above (v lo hi : R) : lo <= hi -> hi < v -> clamp v lo hi = hi.
Proof.
  intros H Hv. unfold clamp.
  destruct (Rlt_dec v lo); [lra|]. destruct (Rlt_dec hi v); [reflexivity|lra].
Qed.

Lemma clamp_below (v lo hi : R) : v < lo -> clamp v lo hi = lo.
Proof.
  intros Hv. unfold clamp. destruct (Rlt_dec v lo); [reflexivity|lra].
Qed.

Lemma clamp_inside (v lo hi : R) : lo <= v <= hi -> clamp v lo hi = v.
Proof.
  intros H. unfold clamp.
  destruct (Rlt_dec v lo); [lra|]. destruct (Rlt_dec hi v); [lra|reflexivity].
Qed.

(** The altitude after a frame: clamped when the left button is down,
    untouched otherwise. *)
Lemma altitude_update (s : state) (xpos ypos : R) (l r : bool) :
  altitude (update s xpos ypos l r)
  = if l
    then clamp (altitude s + (ypos - y2 (mouse_pos s)) * 0.01) (- bound) bound
    else altitude s.
Proof. unfold update. destruct l, r; reflexivity. Qed.

Lemma altitude_clamped_step (s : state) (e : event) :
  altitude_clamped s -> altitude_clamped (step s e).
Proof.
  unfold altitude_clamped. intros H.
  destruct e as [xoff yoff | key action | w h | xpos ypos l r]; simpl.
  - exact H.
  - unfold key_callback. destruct (_ && _); exact H.
  - exact H.
  - rewrite altitude_update. destruct l; [|exact H].
    apply clamp_range. pose proof bound_pos. lra.
Qed.

Lemma altitude_clamped_run (es : list event) :
  forall s, altitude_clamped s -> altitude_clamped (run s es).
Proof.
  induction es as [|e es IH]; intros s H; [exact H|].
  change (run s (e :: es)) with (run (step s e) es).
  apply IH, altitude_clamped_step, H.
Qed.

Lemma altitude_clamped_initial : altitude_clamped initial.
Proof. unfold altitude_clamped. simpl. pose proof bound_pos. lra. Qed.

(** C4. In every state reachable from the initial one by a sequence of
    events the altitude lies between [-(PI/2 - 1e-5)] and [PI/2 - 1e-5],
    strictly between [-PI/2] and [PI/2]. A frame with the left button down
    adds 0.01 times the vertical cursor move to the altitude and clamps the
    sum to these two bounds: within them the altitude is the sum, beyond
    [PI/2 - 1e-5] it is [PI/2 - 1e-5], beyond [-(PI/2 - 1e-5)] it is
    [-(PI/2 - 1e-5)]; and at a bound it stays there under a further drag in
    the same direction. *)
Theorem altitude_stays_between_poles :
  (forall s, reachable s ->
     - (PI / 2 - 1 / 100000) <= altitude s <= PI / 2 - 1 / 100000
     /\ - PI / 2 < altitude s < PI / 2)
  /\ (forall s xpos ypos r,
        let v := altitude s + (ypos - y2 (mouse_pos s)) * 0.01 in
        let s' := update s xpos ypos true r in
        (- (PI / 2 - 1 / 100000) <= v <= PI / 2 - 1 / 100000 ->
         altitude s' = v)
        /\ (PI / 2 - 1 / 100000 < v -> altitude s' = PI / 2 - 1 / 100000)
        /\ (v < - (PI / 2 - 1 / 100000) ->
            altitude s' = - (PI / 2 - 1 / 100000)))
  /\ (forall s xpos ypos r,
        altitude s = PI / 2 - 1 / 100000 -> y2 (mouse_pos s) < ypos ->
        altitude (update s xpos ypos true r) = PI / 2 - 1 / 100000)
  /\ (forall s xpos ypos r,
        altitude s = - (PI / 2 - 1 / 100000) -> ypos < y2 (mouse_pos s) ->
        altitude (update s xpos ypos true r) = - (PI / 2 - 1 / 100000)).
Proof.
  pose proof bound_pos as Hb. pose proof bound_below_pole as Hp.
  rewrite <- !bound_eq.
  split; [|split; [|split]].
  - intros s [es ->].
    pose proof (altitude_clamped_run es initial altitude_clamped_initial) as H.
    unfold altitude_clamped in H. lra.
  - intros s xpos ypos r v s'. unfold s'. rewrite altitude_update. fold v.
    split; [intros Hv; apply clamp_inside; lra|].
    split; intros Hv; [apply clamp_above | apply clamp_below]; lra.
  - intros s xpos ypos r Ha Hy. rewrite altitude_update.
    apply clamp_above; [lra|]. rewrite Ha. nra.
  - intros s xpos ypos r Ha Hy. rewrite altitude_update.
    apply clamp_below. rewrite Ha. nra.
Qed.

Lemma altitude_stays_between_poles_witness :
  - PI / 2 < altitude (run initial (drag_down 10)) < PI / 2
  /\ altitude (run initial (drag_down 1)) = PI / 2 - 1 / 100000
  /\ altitude (update initial 0 50 true false) = 0.5.
Proof.
  destruct altitude_stays_between_poles as [H1 [H2 _]].
  split; [apply H1; exists (drag_down 10); reflexivity|].
  pose proof PI2_1 as Hpi. split.
  - specialize (H2 initial 0 (1000 * INR 1) false).
    destruct H2 as [_ [H2 _]].
    apply H2. simpl. pose proof PI_4. lra.
  - specialize (H2 initial 0 50 false).
    destruct H2 as [H2 _]. cbv zeta in H2. rewrite H2; simpl; lra.
Defined.

Lemma run_app (s : state) (es es' : list event) :
  run s (es ++ es') = run (run s es) es'.
Proof. unfold run. apply fold_left_app. Qed.

Lemma drag_down_S (n : nat) :
  drag_down (S n) = drag_down n ++ [Update 0 (1000 * INR (S n)) true false].
Proof. unfold drag_down. rewrite seq_S, map_app. reflexivity. Qed.

(** The orbit scenario: after the first frame of the drag, and after every
    later one, the altitude is [bound]. *)
Lemma drag_down_pins_altitude (n : nat) :
  let s := run initial (drag_down (S n)) in
  altitude s = bound /\ mouse_pos s = Vec2 0 (1000 * INR (S n)).
Proof.
  induction n as [|n IH].
  - split; [|reflexivity].
    change (altitude (update initial 0 (1000 * INR 1) true false) = bound).
    rewrite altitude_update. apply clamp_above.
    + pose proof bound_pos. lra.
    + simpl. unfold bound. pose proof PI_4. lra.
  - cbv zeta in IH |- *. rewrite drag_down_S, run_app.
    destruct IH as [Ha Hm].
    set (s := run initial (drag_down (S n))) in *.
    change (run s [Update 0 (1000 * INR (S (S n))) true false])
      with (update s 0 (1000 * INR (S (S n))) true false).
    split; [|reflexivity].
    rewrite altitude_update, Ha, Hm. cbn [y2].
    apply clamp_above; [pose proof bound_pos; lra|].
    rewrite (S_INR (S n)). lra.
Qed.

(** ** Pan *)

Lemma vec3_eq (a b : vec3 R) :
  x a = x b -> y a = y b -> z a = z b -> a = b.
Proof. destruct a, b; simpl; intros; subst; reflexivity. Qed.

(** The camera offset has the length of the radius. *)
Lemma dot_camera (s : state) : dot (camera s) (camera s) = radius s * radius s.
Proof.
  unfold dot, camera, muls; cbn [x y z].
  pose proof (sin2_cos2 (altitude s)) as Ha.
  pose proof (sin2_cos2 (azimuth s)) as Hz. unfold Rsqr in Ha, Hz.
  set (ca := cos (altitude s)) in *. set (sa := sin (altitude s)) in *.
  set (cz := cos (azimuth s)) in *. set (sz := sin (azimuth s)) in *.
  replace (ca * cz * radius s * (ca * cz * radius s)
           + ca * sz * radius s * (ca * sz * radius s)
           + sa * radius s * (sa * radius s))
    with (radius s * radius s
          * (ca * ca * (sz * sz + cz * cz) + sa * sa)) by ring.
  rewrite Hz. replace (ca * ca * 1 + sa * sa) with (sa * sa + ca * ca) by ring.
  rewrite Ha. ring.
Qed.

Lemma length_camera (s : state) : 0 <= radius s -> length (camera s) = radius s.
Proof.
  intros H. unfold length. rewrite dot_camera. apply sqrt_square, H.
Qed.

(** The angle [pixel_size] takes the tangent of is half the field of view
    in radians. *)
Lemma pixel_size_radians (s : state) :
  pixel_size s = 2 * tan (radians fov / 2) / IZR (screen_height s).
Proof.
  unfold pixel_size, radians. do 3 f_equal. lra.
Qed.

(** Scaling a vector by a positive factor does not change its direction. *)
Lemma normalize_smul (r : R) (v : vec3 R) :
  0 < r -> normalize (smul r v) = normalize v.
Proof.
  intros Hr. unfold normalize.
  assert (Hd : dot (smul r v) (smul r v) = r * r * dot v v)
    by (unfold dot, smul; cbn [x y z]; ring).
  rewrite Hd, sqrt_mult_alt by nra.
  rewrite sqrt_square by lra.
  unfold muls, smul, Rdiv; cbn [x y z]. rewrite Rinv_mult.
  generalize (/ sqrt (dot v v)). intros k.
  apply vec3_eq; cbn [x y z]; field; lra.
Qed.

Lemma cross_smul_l (r : R) (a b : vec3 R) :
  cross (smul r a) b = smul r (cross a b).
Proof. apply vec3_eq; unfold cross, smul; cbn [x y z]; ring. Qed.

Lemma cross_smul_r (r : R) (a b : vec3 R) :
  cross a (smul r b) = smul r (cross a b).
Proof. apply vec3_eq; unfold cross, smul; cbn [x y z]; ring. Qed.

(** The two axes of the pan do not depend on a positive radius. *)
Lemma camera_axes_radius (s : state) :
  0 < radius s ->
  camera_right s = camera_right (set_radius s 1)
  /\ camera_up s = camera_up (set_radius s 1).
Proof.
  intros Hr.
  assert (Hc : opp (camera s) = smul (radius s) (opp (camera (set_radius s 1)))).
  { apply vec3_eq; unfold opp, camera, muls, smul, set_radius;
      cbn [x y z radius altitude azimuth]; ring. }
  assert (Hright : camera_right s = camera_right (set_radius s 1)).
  { unfold camera_right. rewrite Hc, cross_smul_l. now apply normalize_smul. }
  split; [exact Hright|].
  unfold camera_up. rewrite <- Hright, Hc, cross_smul_r.
  now apply normalize_smul.
Qed.

Lemma sqrt_sqr_pos (a : R) : 0 < a -> sqrt (a * a) = a.
Proof. intros H. apply sqrt_square. lra. Qed.

(** The two axes at radius 1, for an altitude away from the poles. *)
Lemma camera_axes_unit (s : state) :
  radius s = 1 -> 0 < cos (altitude s) ->
  camera_right s = Vec3 (- sin (azimuth s)) (cos (azimuth s)) 0
  /\ camera_up s = Vec3 (- sin (altitude s) * cos (azimuth s))
                        (- sin (altitude s) * sin (azimuth s))
                        (cos (altitude s)).
Proof.
  intros Hr Hc.
  pose proof (sin2_cos2 (altitude s)) as Ha.
  pose proof (sin2_cos2 (azimuth s)) as Hz. unfold Rsqr in Ha, Hz.
  assert (Hright : camera_right s = Vec3 (- sin (azimuth s)) (cos (azimuth s)) 0).
  { unfold camera_right, camera, normalize, cross, opp, muls, up, dot.
    cbn [x y z]. rewrite Hr.
    set (ca := cos (altitude s)) in *. set (sa := sin (altitude s)) in *.
    set (cz := cos (azimuth s)) in *. set (sz := sin (azimuth s)) in *.
    match goal with
    | |- context [sqrt ?a] =>
        assert (E : a = ca * ca)
          by (transitivity (ca * ca * (sz * sz + cz * cz));
              [ring | rewrite Hz; ring]);
        rewrite E
    end.
    rewrite sqrt_sqr_pos by assumption.
    apply vec3_eq; cbn [x y z]; field; lra. }
  split; [exact Hright|].
  unfold camera_up. rewrite Hright.
  unfold camera, normalize, cross, opp, muls, dot. cbn [x y z]. rewrite Hr.
  set (ca := cos (altitude s)) in *. set (sa := sin (altitude s)) in *.
  set (cz := cos (azimuth s)) in *. set (sz := sin (azimuth s)) in *.
  match goal with
  | |- context [sqrt ?a] =>
      assert (E : a = 1)
        by (transitivity (sa * sa * (sz * sz + cz * cz)
                          + ca * ca * (sz * sz + cz * cz) * (sz * sz + cz * cz));
            [ring | rewrite Hz; lra]);
      rewrite E
  end.
  rewrite sqrt_1.
  apply vec3_eq; cbn [x y z]; try field.
  transitivity (ca * (sz * sz + cz * cz)); [field | rewrite Hz; ring].
Qed.

(** The two axes of the pan, for a positive radius and an altitude away
    from the poles. *)
Lemma camera_axes (s : state) :
  0 < radius s -> 0 < cos (altitude s) ->
  camera_right s = Vec3 (- sin (azimuth s)) (cos (azimuth s)) 0
  /\ camera_up s = Vec3 (- sin (altitude s) * cos (azimuth s))
                        (- sin (altitude s) * sin (azimuth s))
                        (cos (altitude s)).
Proof.
  intros Hr Hc.
  destruct (camera_axes_radius s Hr) as [-> ->].
  apply (camera_axes_unit (set_radius s 1)); [reflexivity | exact Hc].
Qed.

(** What [in_range] gives the proofs. *)
Lemma in_range_facts (s : state) :
  in_range s ->
  0 < radius s /\ 0 < cos (altitude s) /\ altitude_clamped s
  /\ IZR (screen_height s) <> 0.
Proof.
  intros [[Hr _] [Ha [_ [[Hh _] _]]]].
  assert (P : 0 < / 2 ^ 40) by (apply Rinv_0_lt_compat, pow_lt; lra).
  split; [lra|]. split; [|split].
  - apply cos_gt_0; lra.
  - unfold altitude_clamped. rewrite bound_eq. exact Ha.
  - apply not_0_IZR. lia.
Qed.

Lemma in_range_initial : in_range initial.
Proof.
  pose proof PI2_1 as Hpi.
  assert (P : 1 <= 2 ^ 40) by (apply pow_R1_Rle; lra).
  assert (P5 : 5 <= 2 ^ 40)
    by (rewrite pow_IZR; apply IZR_le; vm_compute; discriminate).
  assert (Pi : / 2 ^ 40 <= 1).
  { rewrite <- Rinv_1. apply Rinv_le_contravar; lra. }
  unfold in_range, cursor_in_range. cbn [initial radius altitude azimuth
    screen_height origin mouse_pos x y z x2 y2].
  rewrite Rabs_R0. repeat split; try lra; try lia.
Qed.

(** The new focus of a frame with the right button down, as [update]
    computes it. *)
Lemma origin_update_pan (s : state) (xpos ypos : R) (l : bool) :
  let k := 1.3 * pixel_size s * length (camera s) in
  let dx := xpos - x2 (mouse_pos s) in
  let dy := ypos - y2 (mouse_pos s) in
  origin (update s xpos ypos l true)
  = add (origin s)
        (add (smul (- k * dx) (camera_right s)) (smul (k * dy) (camera_up s))).
Proof. unfold update. destruct l; reflexivity. Qed.



(** ** Projection *)

Lemma PI_lower : 3 < PI.
Proof. pose proof PI2_3_2. lra. Qed.

Lemma PI_upper : PI < 3.15.
Proof.
  pose proof (PI_2_3_7_ineq 1) as [_ H].
  unfold sum_f_R0, tg_alt, PI_2_3_7_tg, Ratan_seq in H.
  simpl in H. lra.
Qed.

(** The tangent has period [PI]; seven periods. *)
Lemma tan_plus_7PI (a : R) : cos a <> 0 -> tan (a + 7 * PI) = tan a.
Proof.
  intros Hc. unfold tan.
  replace (a + 7 * PI) with (a + PI + 2 * INR 3 * PI) by (simpl; ring).
  rewrite sin_period, cos_period, neg_sin, neg_cos. field. exact Hc.
Qed.

(** 22.5 radians is 7 half turns and about 0.509 radians, an angle whose
    tangent is above that of 22.5 degrees. *)
Lemma tan_half_fov_radians : tan (PI / 8) < tan (45 / 2).
Proof.
  pose proof PI_lower as Hl. pose proof PI_upper as Hu.
  replace (45 / 2) with ((45 / 2 - 7 * PI) + 7 * PI) by ring.
  rewrite tan_plus_7PI.
  - apply tan_increasing; lra.
  - apply Rgt_not_eq, cos_gt_0; lra.
Qed.

Lemma tan_PI8_pos : 0 < tan (PI / 8).
Proof. pose proof PI_lower. pose proof PI_upper. apply tan_gt_0; lra. Qed.

(** C8. [resize] hands [fov], 45, to [glm::perspective], which reads it as
    radians: the entry [1][1] of the projection is [1 / tan (45 / 2)]. For a
    field of view of 45 degrees it is [1 / tan (PI / 8)], which is larger:
    the projection built on a resize is not the one of 45 degrees. Aspect
    ratio, near and far plane are as stated. *)
Theorem resize_reads_degrees_as_radians (s : state) (width height : Z) :
  let p := projection (resize s width height) in
  p = perspective 45 (IZR width / IZR height) 0.1 10000
  /\ y4 (col1 p) = 1 / tan (45 / 2)
  /\ y4 (col1 (projection_of_degrees width height)) = 1 / tan (PI / 8)
  /\ y4 (col1 p) < y4 (col1 (projection_of_degrees width height))
  /\ p <> projection_of_degrees width height.
Proof.
  intros p.
  assert (H1 : y4 (col1 p) = 1 / tan (45 / 2)) by reflexivity.
  assert (H2 : y4 (col1 (projection_of_degrees width height)) = 1 / tan (PI / 8)).
  { unfold projection_of_degrees, perspective, radians, fov; cbn [y4 col1].
    do 2 f_equal. lra. }
  assert (H3 : 1 / tan (45 / 2) < 1 / tan (PI / 8)).
  { pose proof tan_PI8_pos. pose proof tan_half_fov_radians.
    unfold Rdiv. rewrite !Rmult_1_l. apply Rinv_lt_contravar; [nra|lra]. }
  repeat split; try assumption.
  - rewrite H1, H2. exact H3.
  - intros E. rewrite E, H2 in H1. lra.
Qed.

End ApplicationFacts.

(** * The zoom in binary32 *)

Module Zoom32Facts.
Import Float Zoom32.
Local Open Scope R_scope.

Lemma Int_part_unit (v : R) : 0 <= v < 1 -> Int_part v = 0%Z.
Proof.
  intros H. symmetry. apply Int_part_spec. simpl. lra.
Qed.

(** A positive real number below [2^-150], half the smallest positive
    binary32 value, rounds to the positive zero. *)
Lemma round32R_underflow (r : R) :
  0 < r -> r * 2 ^ 150 < 1 -> round32R r = Fin 0.
Proof.
  intros Hr Hsmall. unfold round32R.
  destruct (total_order_T r 0) as [[H | H] | _]; try lra.
  unfold round_magR.
  assert (P150 : 0 < 2 ^ 150) by (apply pow_lt; lra).
  assert (Hlog : (ilog2R r <= -151)%Z).
  { unfold ilog2R.
    assert (Hl2 : 0 < ln 2) by (pose proof ln_lt_2; lra).
    assert (Hr' : r < / 2 ^ 150).
    { apply Rmult_lt_reg_r with (2 ^ 150); [exact P150|].
      rewrite Rinv_l; lra. }
    assert (Hln : ln r < - (INR 150 * ln 2)).
    { rewrite <- ln_pow, <- ln_Rinv by lra. now apply ln_increasing. }
    assert (Hq : ln r / ln 2 < - 150).
    { apply Rmult_lt_reg_r with (ln 2); [exact Hl2|].
      unfold Rdiv. rewrite Rmult_assoc, Rinv_l by lra.
      rewrite INR_IZR_INZ in Hln. simpl in Hln. lra. }
    destruct (base_Int_part (ln r / ln 2)) as [Hb _].
    assert (Hz : IZR (Int_part (ln r / ln 2)) < IZR (-150)) by lra.
    apply lt_IZR in Hz. lia. }
  assert (Hfe : Z.max (ilog2R r - (prec - 1)) emin = emin).
  { apply Z.max_r. unfold prec, emin. lia. }
  rewrite Hfe.
  assert (Hm : rneR (r * powerRZ 2 (- emin)) = 0%Z).
  { change (- emin)%Z with (Z.of_nat 149). rewrite <- pow_powerRZ.
    assert (E : 2 ^ 150 = 2 * 2 ^ 149) by reflexivity.
    assert (P149 : 0 < 2 ^ 149) by (apply pow_lt; lra).
    assert (Hv : 0 <= r * 2 ^ 149 < 1 / 2) by nra.
    unfold rneR. rewrite (Int_part_unit (r * 2 ^ 149)) by lra.
    destruct (total_order_T (r * 2 ^ 149 - 0) (1 / 2)) as [[K | K] | K];
      try lra; reflexivity. }
  rewrite Hm. vm_compute. reflexivity.
Qed.

Lemma exp_mult_nat (n : nat) (v : R) : exp (INR n * v) = exp v ^ n.
Proof.
  induction n as [|n IH].
  - simpl. rewrite Rmult_0_l. apply exp_0.
  - rewrite S_INR, Rmult_plus_distr_r, Rmult_1_l, exp_plus, IH. simpl. ring.
Qed.

(** [exp 110] is above [2^150]: [exp (1/16)] is at least [17/16], and the
    power 1760 of [17/16] is above [2^150]. *)
Lemma exp_110_bound : 2 ^ 150 < exp 110.
Proof.
  replace 110 with (INR 1760 * (1 / 16))
    by (rewrite INR_IZR_INZ; simpl; lra).
  rewrite exp_mult_nat.
  apply Rlt_le_trans with ((17 / 16) ^ 1760).
  - apply Rmult_lt_reg_r with (16 ^ 1760); [apply pow_lt; lra|].
    rewrite <- Rpow_mult_distr.
    replace (17 / 16 * 16) with 17 by lra.
    rewrite !pow_IZR, <- mult_IZR. apply IZR_lt. vm_compute. reflexivity.
  - apply pow_incr. split; [lra|].
    pose proof (exp_ineq1_le (1 / 16)). lra.
Qed.

(** [exp] of -110 underflows: the result is the positive zero. *)
Lemma expf_underflow : expf (of_Z (-110)) = of_Z 0.
Proof.
  unfold expf, of_Z, of_Q. apply round32R_underflow; [apply exp_pos|].
  assert (E : Q2R (Q2Qc (inject_Z (-110))) = Ropp 110)
    by (unfold Q2R; simpl; lra).
  rewrite E, exp_Ropp.
  pose proof exp_110_bound as H. pose proof (exp_pos 110) as P.
  assert (P150 : 0 < 2 ^ 150) by (apply pow_lt; lra).
  apply Rmult_lt_reg_r with (exp 110); [exact P|].
  rewrite Rmult_assoc, (Rmult_comm (2 ^ 150)), <- Rmult_assoc.
  rewrite Rinv_l by lra. lra.
Qed.

(** ** The error of a rounding *)

Lemma Q2R_inject_Z (z : Z) : Q2R (inject_Z z) = IZR z.
Proof. unfold Q2R. simpl. lra. Qed.

Lemma Q2R_two_pow (e : Z) : Q2R (two_pow e) = powerRZ 2 e.
Proof.
  unfold two_pow. rewrite RMicromega.Q2RpowerRZ by (left; discriminate).
  f_equal. unfold Q2R. simpl. lra.
Qed.

Lemma pow2_pos (e : Z) : 0 < powerRZ 2 e.
Proof. apply powerRZ_lt. lra. Qed.

Lemma pow2_add (a b : Z) : powerRZ 2 (a + b) = powerRZ 2 a * powerRZ 2 b.
Proof. apply powerRZ_add. lra. Qed.

Lemma pow2_le (a b : Z) : (a <= b)%Z -> powerRZ 2 a <= powerRZ 2 b.
Proof.
  intros H. rewrite !powerRZ_Rpower by lra.
  unfold Rpower. apply ApplicationFacts.exp_le.
  apply Rmult_le_compat_r; [|now apply IZR_le].
  left. rewrite <- ln_1. apply ln_increasing; lra.
Qed.

Lemma pow2_lt_inv (a b : Z) : powerRZ 2 a < powerRZ 2 b -> (a < b)%Z.
Proof.
  intros H. destruct (Z_lt_le_dec a b) as [L|L]; [exact L|].
  apply pow2_le in L. lra.
Qed.

Lemma pow2_pred (e : Z) : powerRZ 2 (e - 1) = powerRZ 2 e / 2.
Proof.
  replace (e - 1)%Z with (e + -1)%Z by lia. rewrite pow2_add.
  simpl. lra.
Qed.

Lemma pow2_succ (e : Z) : powerRZ 2 (e + 1) = 2 * powerRZ 2 e.
Proof.
  rewrite pow2_add. replace (powerRZ 2 1) with 2 by (simpl; lra). ring.
Qed.

Lemma pow2_inv (e : Z) : powerRZ 2 e * powerRZ 2 (- e) = 1.
Proof.
  rewrite <- pow2_add. replace (e + - e)%Z with 0%Z by lia. reflexivity.
Qed.

(** The core of the rounding: a multiple [m * 2^fe] with [m] within 1/2 of
    [a / 2^fe], for [fe] the exponent of the last of 24 bits of [a] or
    [emin], is within [a / 2^24 + 2^-150] of [a], and below [2^128] when
    [a] is below [2^127]. *)
Lemma round_core (a : R) (e m : Z) :
  0 < a -> a < powerRZ 2 127 -> powerRZ 2 e <= a ->
  let fe := Z.max (e - (prec - 1)) emin in
  Rabs (IZR m - a * powerRZ 2 (- fe)) <= 1 / 2 ->
  let v := IZR m * powerRZ 2 fe in
  Rabs (v - a) <= a * powerRZ 2 (-24) + powerRZ 2 (-150)
  /\ v < powerRZ 2 128 /\ (0 <= m)%Z.
Proof.
  intros Ha Hmax He fe Hm v.
  pose proof (pow2_pos fe) as Pfe. pose proof (pow2_pos (- fe)) as Pnfe.
  pose proof (pow2_inv fe) as Inv.
  assert (Hv : Rabs (v - a) <= powerRZ 2 (fe - 1)).
  { rewrite pow2_pred. unfold v.
    replace (IZR m * powerRZ 2 fe - a)
      with ((IZR m - a * powerRZ 2 (- fe)) * powerRZ 2 fe)
      by (rewrite Rmult_minus_distr_r, Rmult_assoc, (Rmult_comm (powerRZ 2 (- fe))), Inv; ring).
    rewrite Rabs_mult, (Rabs_pos_eq (powerRZ 2 fe)) by lra.
    apply Rle_trans with (1 / 2 * powerRZ 2 fe); [|lra].
    apply Rmult_le_compat_r; lra. }
  assert (He127 : (e < 127)%Z) by (apply pow2_lt_inv; lra).
  assert (Hfe : powerRZ 2 (fe - 1) <= a * powerRZ 2 (-24) + powerRZ 2 (-150)).
  { pose proof (pow2_pos (-150)) as P150. pose proof (pow2_pos (-24)) as P24.
    unfold fe, prec, emin.
    destruct (Z.max_spec (e - (24 - 1)) (-149)) as [[_ ->] | [_ ->]].
    - change (-149 - 1)%Z with (-150)%Z.
      assert (0 <= a * powerRZ 2 (-24)) by (apply Rmult_le_pos; lra). lra.
    - replace (e - (24 - 1) - 1)%Z with (e + -24)%Z by lia. rewrite pow2_add.
      apply Rle_trans with (a * powerRZ 2 (-24)); [|lra].
      apply Rmult_le_compat_r; lra. }
  split; [lra|]. split.
  - assert (Hfe2 : powerRZ 2 (fe - 1) <= powerRZ 2 126).
    { apply pow2_le. unfold fe, prec, emin. lia. }
    assert (P : powerRZ 2 128 = 4 * powerRZ 2 126).
    { change 128%Z with (2 + 126)%Z. rewrite pow2_add. simpl. lra. }
    assert (Q : powerRZ 2 127 = 2 * powerRZ 2 126).
    { change 127%Z with (1 + 126)%Z. rewrite pow2_add. simpl. lra. }
    pose proof (pow2_pos 126).
    apply ApplicationFacts.Rabs_le_both in Hv. lra.
  - assert (Hpos : 0 < a * powerRZ 2 (- fe)) by (apply Rmult_lt_0_compat; lra).
    apply ApplicationFacts.Rabs_le_both in Hm.
    assert (Hm1 : -1 < IZR m) by lra.
    apply lt_IZR in Hm1. lia.
Qed.

(** The value of a packed float. *)
Lemma pack_val (neg : bool) (m fe : Z) :
  (0 <= m)%Z -> IZR m * powerRZ 2 fe < powerRZ 2 128 ->
  is_finite (pack neg m fe) = true
  /\ F2R (pack neg m fe)
     = if neg then - (IZR m * powerRZ 2 fe) else IZR m * powerRZ 2 fe.
Proof.
  intros Hm Hv. unfold pack.
  assert (E : Q2R (inject_Z m * two_pow fe) = IZR m * powerRZ 2 fe)
    by now rewrite Q2R_mult, Q2R_inject_Z, Q2R_two_pow.
  destruct (Qle_bool _ _) eqn:Hov.
  - apply Qle_bool_iff, Qle_Rle in Hov.
    rewrite E, Q2R_two_pow in Hov. unfold emax in Hov. lra.
  - destruct (m =? 0)%Z eqn:Hz.
    + apply Z.eqb_eq in Hz. subst m.
      destruct neg; split; try reflexivity; unfold F2R; simpl;
        unfold Q2R; simpl; lra.
    + split; [reflexivity|]. unfold F2R. cbn [fval Q2Qc this].
      rewrite (Qeq_eqR _ _ (Qred_correct _)), (Qeq_eqR _ _ (Qred_correct _)).
      destruct neg; [rewrite Q2R_opp|]; now rewrite E.
Qed.

Lemma Q2R_half : Q2R (1 # 2) = 1 / 2.
Proof. unfold Q2R. simpl. lra. Qed.

Lemma rne_error (b : Q) : Rabs (IZR (rne b) - Q2R b) <= 1 / 2.
Proof.
  unfold rne. set (k := Qfloor b).
  pose proof (Qle_Rle _ _ (Qfloor_le b)) as H1.
  pose proof (Qlt_Rlt _ _ (Qlt_floor b)) as H2.
  rewrite Q2R_inject_Z in H1, H2. rewrite plus_IZR in H2. fold k in H1, H2.
  destruct (b - inject_Z k ?= 1 # 2)%Q eqn:C.
  - apply Qeq_alt, Qeq_eqR in C.
    rewrite Q2R_minus, Q2R_inject_Z, Q2R_half in C.
    destruct (Z.even k); rewrite ?plus_IZR; unfold Rabs;
      destruct (Rcase_abs _); lra.
  - apply Qlt_alt, Qlt_Rlt in C.
    rewrite Q2R_minus, Q2R_inject_Z, Q2R_half in C.
    unfold Rabs; destruct (Rcase_abs _); lra.
  - apply Qgt_alt, Qlt_Rlt in C.
    rewrite Q2R_minus, Q2R_inject_Z, Q2R_half in C.
    rewrite plus_IZR. unfold Rabs; destruct (Rcase_abs _); lra.
Qed.

Lemma rneR_error (a : R) : Rabs (IZR (rneR a) - a) <= 1 / 2.
Proof.
  unfold rneR. destruct (base_Int_part a) as [H1 H2].
  destruct (total_order_T _ _) as [[H|H]|H].
  - unfold Rabs; destruct (Rcase_abs _); lra.
  - destruct (Z.even _); rewrite ?plus_IZR; unfold Rabs;
      destruct (Rcase_abs _); lra.
  - rewrite plus_IZR. unfold Rabs; destruct (Rcase_abs _); lra.
Qed.

Lemma ilog2_le_R (a : Q) : (0 < a)%Q -> powerRZ 2 (ilog2 a) <= Q2R a.
Proof.
  intros H. rewrite <- Q2R_two_pow. apply Qle_Rle, FloatFacts.ilog2_le, H.
Qed.

Lemma ilog2R_le (a : R) : 0 < a -> powerRZ 2 (ilog2R a) <= a.
Proof.
  intros Ha. unfold ilog2R.
  destruct (base_Int_part (ln a / ln 2)) as [H1 _].
  assert (L2 : 0 < ln 2) by (rewrite <- ln_1; apply ln_increasing; lra).
  rewrite powerRZ_Rpower by lra. unfold Rpower.
  rewrite <- (exp_ln a Ha) at 2. apply ApplicationFacts.exp_le.
  apply Rmult_le_reg_r with (/ ln 2); [now apply Rinv_0_lt_compat|].
  rewrite Rmult_assoc, Rinv_r by lra. lra.
Qed.

(** The error of a rounding of a positive magnitude below [2^127]. *)
Lemma round_mag_error (neg : bool) (a : Q) :
  (0 < a)%Q -> Q2R a < powerRZ 2 127 ->
  is_finite (round_mag neg a) = true
  /\ exists v, F2R (round_mag neg a) = (if neg then - v else v)
               /\ Rabs (v - Q2R a)
                  <= Q2R a * powerRZ 2 (-24) + powerRZ 2 (-150).
Proof.
  intros Ha Hmax. unfold round_mag.
  set (fe := Z.max (ilog2 a - (prec - 1)) emin).
  set (m := rne (a / two_pow fe)).
  assert (Ha' : 0 < Q2R a).
  { apply Qlt_Rlt in Ha. unfold Q2R at 1 in Ha. simpl in Ha. lra. }
  assert (Hm : Rabs (IZR m - Q2R a * powerRZ 2 (- fe)) <= 1 / 2).
  { pose proof (rne_error (a / two_pow fe)) as H. fold m in H.
    rewrite Q2R_div, Q2R_two_pow in H.
    - rewrite powerRZ_neg'. exact H.
    - intros E. pose proof (FloatFacts.two_pow_pos fe) as P.
      rewrite E in P. discriminate. }
  destruct (round_core (Q2R a) (ilog2 a) m Ha' Hmax (ilog2_le_R a Ha) Hm)
    as [H1 [H2 H3]].
  destruct (pack_val neg m fe H3 H2) as [F V].
  split; [exact F|]. exists (IZR m * powerRZ 2 fe). split; assumption.
Qed.

Lemma round_magR_error (neg : bool) (a : R) :
  0 < a -> a < powerRZ 2 127 ->
  is_finite (round_magR neg a) = true
  /\ exists v, F2R (round_magR neg a) = (if neg then - v else v)
               /\ Rabs (v - a) <= a * powerRZ 2 (-24) + powerRZ 2 (-150).
Proof.
  intros Ha Hmax. unfold round_magR.
  set (fe := Z.max (ilog2R a - (prec - 1)) emin).
  set (m := rneR (a * powerRZ 2 (- fe))).
  pose proof (rneR_error (a * powerRZ 2 (- fe))) as Hm. fold m in Hm.
  destruct (round_core a (ilog2R a) m Ha Hmax (ilog2R_le a Ha) Hm)
    as [H1 [H2 H3]].
  destruct (pack_val neg m fe H3 H2) as [F V].
  split; [exact F|]. exists (IZR m * powerRZ 2 fe). split; assumption.
Qed.

(** Rounding to binary32 a number of magnitude below [2^127] gives a finite
    float within [|q| / 2^24 + 2^-150] of it. *)
Lemma round32_error (q : Q) :
  Rabs (Q2R q) < powerRZ 2 127 ->
  is_finite (round32 q) = true
  /\ Rabs (F2R (round32 q) - Q2R q)
     <= Rabs (Q2R q) * powerRZ 2 (-24) + powerRZ 2 (-150).
Proof.
  intros Hmax. unfold round32.
  pose proof (pow2_pos (-24)) as P24. pose proof (pow2_pos (-150)) as P150.
  assert (Z0 : Q2R 0 = 0) by (unfold Q2R; simpl; lra).
  destruct (q ?= 0)%Q eqn:C.
  - apply Qeq_alt, Qeq_eqR in C. rewrite Z0 in C. split; [reflexivity|].
    unfold F2R. simpl. rewrite C, Z0, Rminus_0_r, Rabs_R0. lra.
  - apply Qlt_alt in C.
    assert (Hq : Q2R q < 0) by (apply Qlt_Rlt in C; lra).
    assert (Hn : (0 < - q)%Q) by (apply (Qopp_lt_compat q 0) in C; exact C).
    assert (EA : Rabs (Q2R q) = - Q2R q) by (apply Rabs_left; lra).
    rewrite EA in Hmax |- *.
    destruct (round_mag_error true (- q) Hn) as [F [v [V E]]];
      [rewrite Q2R_opp; lra|].
    split; [exact F|]. rewrite V. rewrite Q2R_opp in E.
    replace (- v - Q2R q) with (- (v - - Q2R q)) by ring.
    rewrite Rabs_Ropp. exact E.
  - apply Qgt_alt in C.
    assert (Hq : 0 < Q2R q) by (apply Qlt_Rlt in C; lra).
    assert (EA : Rabs (Q2R q) = Q2R q) by (apply Rabs_pos_eq; lra).
    rewrite EA in Hmax |- *.
    destruct (round_mag_error false q C Hmax) as [F [v [V E]]].
    split; [exact F|]. rewrite V. exact E.
Qed.

Lemma round32R_error (r : R) :
  Rabs r < powerRZ 2 127 ->
  is_finite (round32R r) = true
  /\ Rabs (F2R (round32R r) - r)
     <= Rabs r * powerRZ 2 (-24) + powerRZ 2 (-150).
Proof.
  intros Hmax. unfold round32R.
  pose proof (pow2_pos (-24)) as P24. pose proof (pow2_pos (-150)) as P150.
  destruct (total_order_T r 0) as [[C|C]|C].
  - assert (EA : Rabs r = - r) by (apply Rabs_left; lra).
    rewrite EA in Hmax |- *.
    destruct (round_magR_error true (- r)) as [F [v [V E]]]; [lra | lra |].
    split; [exact F|]. rewrite V.
    replace (- v - r) with (- (v - - r)) by ring.
    rewrite Rabs_Ropp. exact E.
  - subst r. split; [reflexivity|]. unfold F2R. simpl.
    replace (Q2R 0) with 0 by (unfold Q2R; simpl; lra).
    rewrite Rminus_0_r, Rabs_R0. lra.
  - assert (EA : Rabs r = r) by (apply Rabs_pos_eq; lra).
    rewrite EA in Hmax |- *.
    destruct (round_magR_error false r C Hmax) as [F [v [V E]]].
    split; [exact F|]. rewrite V. exact E.
Qed.

Lemma pow2_m24 : powerRZ 2 (-24) = / 16777216.
Proof. simpl. lra. Qed.

Lemma pow2_m150 : powerRZ 2 (-150) <= / 1099511627776.
Proof.
  apply Rle_trans with (powerRZ 2 (-40)); [apply pow2_le; lia|].
  simpl. lra.
Qed.

Lemma Q2R_Qcmult (a b : Qc) : Q2R (a * b)%Qc = Q2R a * Q2R b.
Proof.
  unfold Qcmult. cbn [this Q2Qc].
  now rewrite (Qeq_eqR _ _ (Qred_correct _)), Q2R_mult.
Qed.

Lemma Q2R_0 : Q2R 0 = 0.
Proof. unfold Q2R. simpl. lra. Qed.

Lemma Q2R_Qcopp (a : Qc) : Q2R (- a)%Qc = - Q2R a.
Proof.
  unfold Qcopp. cbn [this Q2Qc].
  now rewrite (Qeq_eqR _ _ (Qred_correct _)), Q2R_opp.
Qed.

Lemma F2R_fopp (x : float) :
  is_finite x = true ->
  is_finite (fopp x) = true /\ F2R (fopp x) = - F2R x.
Proof.
  intros F. destruct x as [q| | | |]; try discriminate; unfold F2R;
    cbn [fopp fval].
  - destruct (Qc_is_zero q) eqn:E.
    + apply FloatFacts.Qc_is_zero_true in E. subst q. cbn [fval is_finite].
      change (Q2R 0%Qc) with (Q2R 0). rewrite Q2R_0. split; [reflexivity | lra].
    + split; [reflexivity|]. cbn [fval]. apply Q2R_Qcopp.
  - change (Q2R 0%Qc) with (Q2R 0). rewrite Q2R_0. split; [reflexivity | lra].
Qed.

(** The product of two finite floats whose exact product is below [2^127]
    in magnitude is a finite float within [|p| / 2^24 + 2^-150] of it. *)
Lemma fmul_error (x y : float) :
  is_finite x = true -> is_finite y = true ->
  Rabs (F2R x * F2R y) < powerRZ 2 127 ->
  is_finite (x * y)%float = true
  /\ Rabs (F2R (x * y)%float - F2R x * F2R y)
     <= Rabs (F2R x * F2R y) * powerRZ 2 (-24) + powerRZ 2 (-150).
Proof.
  intros Fx Fy Hmax.
  assert (E : (x * y)%float
              = if Qc_is_zero (fval x * fval y)
                then signed_zero (xorb (sign_bit x) (sign_bit y))
                else roundc (fval x * fval y)).
  { unfold fmul. rewrite Fx, Fy. destruct x, y; try discriminate; reflexivity. }
  rewrite E. unfold F2R at 2 3 4 5. rewrite <- !Q2R_Qcmult.
  unfold F2R in Hmax. rewrite <- Q2R_Qcmult in Hmax.
  destruct (Qc_is_zero _) eqn:Ez.
  - apply FloatFacts.Qc_is_zero_true in Ez. rewrite Ez.
    pose proof (pow2_pos (-150)).
    destruct (xorb _ _); (split; [reflexivity|]); unfold F2R; simpl;
      rewrite Q2R_0, Rminus_0_r, Rabs_R0; lra.
  - unfold roundc. apply round32_error. exact Hmax.
Qed.

(** The constant [0.1f]. *)
Lemma tenth32 : round32 (1 # 10) = of_Q (13421773 # 134217728).
Proof. vm_compute. reflexivity. Qed.

Lemma F2R_of_Q (q : Q) : F2R (of_Q q) = Q2R q.
Proof.
  unfold F2R, of_Q. cbn [fval Q2Qc this]. apply Qeq_eqR, Qred_correct.
Qed.

(** The argument of the exponential, [-0.1f * float(y)], is within [1e-5]
    of [-0.1 * y] for an offset of magnitude at most 500. *)
Lemma zoom_argument_error (y : Q) :
  Rabs (Q2R y) <= 500 ->
  let x := (fopp (round32 (1 # 10)) * round32 y)%float in
  is_finite x = true /\ Rabs (F2R x - - 0.1 * Q2R y) <= / 100000.
Proof.
  intros Hy x.
  pose proof pow2_m24 as P24. pose proof pow2_m150 as P150.
  pose proof (pow2_pos (-150)) as P150'.
  assert (P127 : 1000 <= powerRZ 2 127).
  { apply Rle_trans with (powerRZ 2 10); [simpl; lra | apply pow2_le; lia]. }
  destruct (round32_error y) as [Fy Ey].
  { apply Rle_lt_trans with 500; [exact Hy | lra]. }
  set (yf := F2R (round32 y)) in *.
  assert (Fc : is_finite (fopp (round32 (1 # 10))) = true)
    by (rewrite tenth32; reflexivity).
  assert (Vc : F2R (fopp (round32 (1 # 10))) = - (13421773 / 134217728)).
  { destruct (F2R_fopp (round32 (1 # 10))) as [_ ->];
      [rewrite tenth32; reflexivity|].
    rewrite tenth32, F2R_of_Q. unfold Q2R. simpl. lra. }
  apply ApplicationFacts.Rabs_le_both in Hy.
  assert (Ay : - (501 / 16777216) <= yf - Q2R y <= 501 / 16777216).
  { apply ApplicationFacts.Rabs_le_both in Ey.
    rewrite P24 in Ey. unfold Rabs in Ey. destruct (Rcase_abs _); lra. }
  assert (By_ : Rabs (F2R (fopp (round32 (1 # 10))) * yf) <= 51).
  { rewrite Vc. unfold Rabs. destruct (Rcase_abs _); lra. }
  destruct (fmul_error (fopp (round32 (1 # 10))) (round32 y) Fc Fy) as [Fx Ex].
  { fold yf. lra. }
  fold x yf in Fx, Ex. split; [exact Fx|].
  rewrite Vc, P24 in Ex. rewrite Vc in By_.
  apply ApplicationFacts.Rabs_le_both in Ex.
  apply ApplicationFacts.Rabs_le_both in By_.
  unfold Rabs in Ex |- *.
  destruct (Rcase_abs (- (13421773 / 134217728) * yf)),
           (Rcase_abs (F2R x - - 0.1 * Q2R y)); lra.
Qed.

Lemma exp_near_1 (t : R) : Rabs t <= 1 / 2 -> Rabs (exp t - 1) <= 2 * Rabs t.
Proof.
  intros H. apply ApplicationFacts.Rabs_le_both in H.
  pose proof (exp_ineq1_le t) as L. pose proof (exp_ineq1_le (- t)) as U.
  pose proof (exp_pos t) as P.
  assert (I : exp t * exp (- t) = 1).
  { rewrite <- exp_plus. replace (t + - t) with 0 by ring. apply exp_0. }
  destruct (Rle_dec 0 t) as [T|T].
  - rewrite (Rabs_pos_eq t T), Rabs_pos_eq by lra.
    assert (K : exp t * (1 - t) <= 1).
    { rewrite <- I. apply Rmult_le_compat_l; lra. }
    nra.
  - rewrite (Rabs_left t) by lra.
    assert (K : exp t <= 1).
    { rewrite <- exp_0. apply ApplicationFacts.exp_le. lra. }
    rewrite Rabs_left1 by lra. lra.
Qed.

Lemma rel_factor (a b d : R) :
  0 < a -> Rabs (b - a) <= a * d ->
  exists th, b = a * (1 + th) /\ - d <= th <= d.
Proof.
  intros Ha H. exists ((b - a) / a). split; [field; lra|].
  apply ApplicationFacts.Rabs_le_both in H.
  split.
  - apply Rmult_le_reg_r with a; [exact Ha|].
    unfold Rdiv. rewrite Rmult_assoc, Rinv_l by lra. lra.
  - apply Rmult_le_reg_r with a; [exact Ha|].
    unfold Rdiv. rewrite Rmult_assoc, Rinv_l by lra. lra.
Qed.

Lemma prod_bounds (a b la ua lb ub : R) :
  0 <= la -> la <= a <= ua -> 0 <= lb -> lb <= b <= ub ->
  la * lb <= a * b <= ua * ub.
Proof.
  intros H1 H2 H3 H4. split; apply Rmult_le_compat; lra.
Qed.

Lemma pow2_m23 : 2 * powerRZ 2 (-24) = / 8388608.
Proof. simpl. lra. Qed.

(** A finite float whose value is at least [2^-102]: the error of the
    rounding is at most a [2^-23]th of the value. *)
Lemma rel_error (a e : R) :
  powerRZ 2 (-102) <= a ->
  e <= a * powerRZ 2 (-24) + powerRZ 2 (-150) -> e <= a * / 8388608.
Proof.
  intros Ha He. rewrite <- pow2_m23.
  assert (H : powerRZ 2 (-150) <= a * powerRZ 2 (-24)).
  { change (-150)%Z with (-102 + -48)%Z. rewrite pow2_add.
    apply Rmult_le_compat; try (left; apply pow2_pos); [exact Ha|].
    apply pow2_le. lia. }
  lra.
Qed.

(** [exp] on a finite float, where the exponential is between [2^-81] and
    [2^81]. *)
Lemma expf_error (x : float) :
  is_finite x = true ->
  powerRZ 2 (-81) <= exp (F2R x) <= powerRZ 2 81 ->
  is_finite (expf x) = true
  /\ Rabs (F2R (expf x) - exp (F2R x)) <= exp (F2R x) * / 8388608.
Proof.
  intros F [Hlo Hup]. destruct x as [q| | | |]; try discriminate.
  - unfold expf. unfold F2R in Hlo, Hup |- *. cbn [fval] in Hlo, Hup |- *.
    fold (F2R (round32R (exp (Q2R q)))).
    pose proof (exp_pos (Q2R q)) as P.
    destruct (round32R_error (exp (Q2R q))) as [Fe Ee].
    { rewrite Rabs_pos_eq by lra.
      apply Rle_lt_trans with (powerRZ 2 81); [exact Hup|].
      apply Rlt_le_trans with (powerRZ 2 82); [|apply pow2_le; lia].
      change 82%Z with (81 + 1)%Z. rewrite pow2_succ.
      pose proof (pow2_pos 81). lra. }
    split; [exact Fe|]. rewrite (Rabs_pos_eq (exp (Q2R q))) in Ee by lra.
    apply rel_error; [|exact Ee].
    apply Rle_trans with (powerRZ 2 (-81)); [apply pow2_le; lia | exact Hlo].
  - split; [reflexivity|]. unfold expf, F2R. cbn [fval].
    change (Q2R 0%Qc) with (Q2R 0). rewrite Q2R_0, exp_0.
    fold (F2R (of_Z 1)). unfold of_Z. rewrite F2R_of_Q, Q2R_inject_Z.
    rewrite Rminus_diag, Rabs_R0. lra.
Qed.

Lemma fmul_rel (x y : float) :
  is_finite x = true -> is_finite y = true ->
  powerRZ 2 (-102) <= F2R x * F2R y <= powerRZ 2 102 ->
  is_finite (x * y)%float = true
  /\ Rabs (F2R (x * y)%float - F2R x * F2R y)
     <= F2R x * F2R y * / 8388608.
Proof.
  intros Fx Fy [Hlo Hup].
  pose proof (pow2_pos (-102)) as P.
  assert (A : Rabs (F2R x * F2R y) = F2R x * F2R y)
    by (apply Rabs_pos_eq; lra).
  destruct (fmul_error x y Fx Fy) as [F E].
  { rewrite A. apply Rle_lt_trans with (powerRZ 2 102); [exact Hup|].
    apply Rlt_le_trans with (powerRZ 2 103); [|apply pow2_le; lia].
    change 103%Z with (102 + 1)%Z. rewrite pow2_succ.
    pose proof (pow2_pos 102). lra. }
  split; [exact F|]. rewrite A in E. now apply rel_error.
Qed.

Lemma zoom_exp_bounds (v : R) :
  Rabs v <= 500 -> powerRZ 2 (-80) <= exp (- 0.1 * v) <= powerRZ 2 80.
Proof. intros H. exact (ApplicationFacts.zoom_factor_bounds v H). Qed.

(** One scroll in binary32: the radius is multiplied by
    [exp (-0.1 * y)] up to a factor within [2^-15] of 1. *)
Lemma scroll32_step (r : float) (y : Q) (N0 u : R) :
  is_finite r = true -> Rabs (Q2R y) <= 500 ->
  F2R r = N0 * u -> 9 / 10 <= u <= 11 / 10 -> 0 < N0 ->
  powerRZ 2 (-100) <= N0 * exp (- 0.1 * Q2R y) <= powerRZ 2 100 ->
  exists w, is_finite (scroll32 r y) = true
            /\ F2R (scroll32 r y) = N0 * exp (- 0.1 * Q2R y) * (u * w)
            /\ 1 - / 32768 <= w <= 1 + / 32768.
Proof.
  intros Fr Hy Vr Hu HN0 HN.
  destruct (zoom_argument_error y Hy) as [Fx Ex].
  unfold scroll32.
  set (x := (fopp (round32 (1 # 10)) * round32 y)%float) in *.
  set (t := F2R x - - 0.1 * Q2R y) in *.
  set (G := exp (- 0.1 * Q2R y)) in *.
  assert (EX : exp (F2R x) = G * exp t).
  { unfold G, t. rewrite <- exp_plus. f_equal. ring. }
  assert (Ht : Rabs (exp t - 1) <= 2 * Rabs t) by (apply exp_near_1; lra).
  apply ApplicationFacts.Rabs_le_both in Ht.
  assert (Het : 1 - / 50000 <= exp t <= 1 + / 50000) by lra.
  destruct (zoom_exp_bounds (Q2R y) Hy) as [G1 G2]. fold G in G1, G2.
  pose proof (pow2_pos (-80)) as p80. pose proof (pow2_pos 80) as P80.
  pose proof (pow2_pos (-100)) as p100. pose proof (pow2_pos 100) as P100.
  assert (HE : powerRZ 2 (-81) <= exp (F2R x) <= powerRZ 2 81).
  { rewrite EX. change 81%Z with (80 + 1)%Z. rewrite pow2_succ.
    replace (powerRZ 2 (-81)) with (powerRZ 2 (-80) / 2)
      by (rewrite <- pow2_pred; reflexivity).
    pose proof (prod_bounds G (exp t) (powerRZ 2 (-80)) (powerRZ 2 80)
                  (1 / 2) 2) as B.
    lra. }
  destruct (expf_error x Fx HE) as [Ff Ef].
  destruct (rel_factor _ _ _ (exp_pos (F2R x)) Ef) as [te [Vf Hte]].
  set (f := expf x) in *. rewrite EX in Vf.
  assert (Ha : 1 / 4 <= u * (exp t * (1 + te)) <= 4).
  { pose proof (prod_bounds (exp t) (1 + te) (99 / 100) (101 / 100)
                  (99 / 100) (101 / 100)) as B1.
    pose proof (prod_bounds u (exp t * (1 + te)) (9 / 10) (11 / 10)
                  (9801 / 10000) (10201 / 10000)) as B2.
    lra. }
  assert (Vp : F2R r * F2R f = N0 * G * (u * (exp t * (1 + te)))).
  { rewrite Vr, Vf. ring. }
  destruct (fmul_rel r f Fr Ff) as [Fp Ep].
  { rewrite Vp.
    replace (powerRZ 2 (-102)) with (powerRZ 2 (-100) / 4).
    2:{ change (-102)%Z with (-100 - 1 - 1)%Z. rewrite !pow2_pred. lra. }
    replace (powerRZ 2 102) with (4 * powerRZ 2 100).
    2:{ change 102%Z with (100 + 1 + 1)%Z. rewrite !pow2_succ. lra. }
    pose proof (prod_bounds (N0 * G) (u * (exp t * (1 + te)))
                  (powerRZ 2 (-100)) (powerRZ 2 100) (1 / 4) 4) as B.
    lra. }
  assert (Pp : 0 < F2R r * F2R f).
  { rewrite Vp. apply Rmult_lt_0_compat; lra. }
  destruct (rel_factor _ _ _ Pp Ep) as [tp [Vm Htp]].
  exists (exp t * (1 + te) * (1 + tp)).
  split; [exact Fp|]. split; [rewrite Vm, Vp; ring|].
  pose proof (prod_bounds (exp t) (1 + te) (1 - / 50000) (1 + / 50000)
                (1 - / 8388608) (1 + / 8388608)) as B1.
  pose proof (prod_bounds (exp t * (1 + te)) (1 + tp)
                ((1 - / 50000) * (1 - / 8388608))
                ((1 + / 50000) * (1 + / 8388608))
                (1 - / 8388608) (1 + / 8388608)) as B2.
  lra.
Qed.

Lemma pow_down (e : R) (k : nat) :
  0 <= e <= 1 -> 1 - INR k * e <= (1 - e) ^ k.
Proof.
  intros He. induction k as [|k IH]; [simpl; lra|].
  rewrite S_INR. simpl pow.
  pose proof (pos_INR k) as Pk.
  assert (P : 0 <= (1 - e) ^ k) by (apply pow_le; lra).
  nra.
Qed.

Lemma pow_up (e : R) (k : nat) :
  0 <= e -> 2 * INR k * e <= 1 -> (1 + e) ^ k <= 1 + 2 * INR k * e.
Proof.
  intros He. induction k as [|k IH]; [simpl; lra|].
  rewrite S_INR. intros Hk. simpl pow.
  pose proof (pos_INR k) as Pk.
  assert (IH' : (1 + e) ^ k <= 1 + 2 * INR k * e) by (apply IH; nra).
  assert (P : 0 <= (1 + e) ^ k) by (apply pow_le; lra).
  nra.
Qed.

Lemma travelQ_nonneg (ys : list Q) : 0 <= travelQ ys.
Proof. apply ApplicationFacts.Rsum_abs_nonneg. Qed.

Section Track.
Variable r0 : R.
Hypothesis Hr0 : / 1000000 <= r0 <= 1000000.

Lemma exact_radius_bounds (S : R) :
  Rabs S <= 500 ->
  powerRZ 2 (-100) <= r0 * exp (- 0.1 * S) <= powerRZ 2 100.
Proof.
  intros HS. destruct (zoom_exp_bounds S HS) as [G1 G2].
  pose proof (pow2_pos (-80)) as p80.
  assert (A : powerRZ 2 (-100) = powerRZ 2 (-20) * powerRZ 2 (-80))
    by (rewrite <- pow2_add; reflexivity).
  assert (B : powerRZ 2 100 = powerRZ 2 20 * powerRZ 2 80)
    by (rewrite <- pow2_add; reflexivity).
  assert (C : powerRZ 2 (-20) <= / 1000000) by (simpl; lra).
  assert (D : 1000000 <= powerRZ 2 20) by (simpl; lra).
  pose proof (pow2_pos (-20)) as p20.
  rewrite A, B. split; apply Rmult_le_compat; lra.
Qed.

Lemma run32_track (ys : list Q) :
  forall (r : float) (k : nat) (S u : R),
    is_finite r = true -> F2R r = r0 * exp (- 0.1 * S) * u ->
    (1 - / 32768) ^ k <= u <= (1 + / 32768) ^ k ->
    Rabs S + travelQ ys <= 500 -> (k + List.length ys <= 1000)%nat ->
    exists u',
      is_finite (run32 r ys) = true
      /\ F2R (run32 r ys) = r0 * exp (- 0.1 * (S + sumQ ys)) * u'
      /\ (1 - / 32768) ^ (k + List.length ys) <= u'
         <= (1 + / 32768) ^ (k + List.length ys).
Proof.
  induction ys as [|y ys IH]; intros r k S u Fr Vr Hu HS Hk.
  - exists u. unfold sumQ. simpl. rewrite Rplus_0_r, Nat.add_0_r. auto.
  - change (travelQ (y :: ys)) with (Rabs (Q2R y) + travelQ ys) in HS.
    cbn [List.length] in Hk.
    pose proof (travelQ_nonneg ys) as Tn.
    pose proof (Rabs_pos S) as PS. pose proof (Rabs_pos (Q2R y)) as Py.
    pose proof (Rabs_triang S (Q2R y)) as Tr.
    assert (Kk : INR k <= 1000).
    { replace 1000 with (INR 1000) by (rewrite INR_IZR_INZ; reflexivity).
      apply le_INR. lia. }
    pose proof (pos_INR k) as Pk.
    assert (U : 9 / 10 <= u <= 11 / 10).
    { pose proof (pow_down (/ 32768) k) as D.
      pose proof (pow_up (/ 32768) k) as V. lra. }
    assert (P0 : 0 < r0 * exp (- 0.1 * S)).
    { apply Rmult_lt_0_compat; [lra | apply exp_pos]. }
    assert (EN : r0 * exp (- 0.1 * S) * exp (- 0.1 * Q2R y)
                 = r0 * exp (- 0.1 * (S + Q2R y))).
    { rewrite Rmult_assoc, <- exp_plus. do 2 f_equal. ring. }
    destruct (scroll32_step r y (r0 * exp (- 0.1 * S)) u Fr) as [w [Fs [Vs Hw]]];
      try assumption; try lra.
    { rewrite EN. apply exact_radius_bounds. lra. }
    rewrite EN in Vs.
    destruct (IH (scroll32 r y) (Datatypes.S k) (S + Q2R y) (u * w) Fs Vs)
      as [u' [F' [V' H']]].
    + cbn [pow].
      assert (Q1 : 0 <= (1 - / 32768) ^ k) by (apply pow_le; lra).
      pose proof (prod_bounds u w ((1 - / 32768) ^ k) ((1 + / 32768) ^ k)
                    (1 - / 32768) (1 + / 32768)) as B.
      lra.
    + lra.
    + lia.
    + exists u'. change (run32 r (y :: ys)) with (run32 (scroll32 r y) ys).
      split; [exact F'|].
      replace (k + List.length (y :: ys))%nat with (Datatypes.S k + List.length ys)%nat
        by (cbn [List.length]; lia).
      split; [|exact H'].
      rewrite V'. change (sumQ (y :: ys)) with (Q2R y + sumQ ys).
      now rewrite Rplus_assoc.
Qed.

End Track.

(** From a radius between [1e-6] and [1e6], after at most 1000 scroll
    events that turn the wheel by at most 500 in all, the binary32 radius
    is finite, positive and within [n / 16384] of the closed form, as a
    fraction of it. *)
Lemma run32_closed_form (r : float) (ys : list Q) :
  is_finite r = true -> / 1000000 <= F2R r <= 1000000 ->
  travelQ ys <= 500 -> (List.length ys <= 1000)%nat ->
  let exact := F2R r * exp (- 0.1 * sumQ ys) in
  is_finite (run32 r ys) = true
  /\ 0 < F2R (run32 r ys)
  /\ Rabs (F2R (run32 r ys) - exact) <= INR (List.length ys) / 16384 * exact.
Proof.
  intros Fr Hr Ht Hn exact.
  destruct (run32_track (F2R r) Hr ys r 0 0 1 Fr) as [u [F [V Hu]]].
  - rewrite Rmult_0_r, exp_0. ring.
  - simpl. lra.
  - rewrite Rabs_R0. lra.
  - simpl. exact Hn.
  - rewrite Rplus_0_l in V. fold exact in V. simpl plus in Hu.
    set (n := List.length ys) in *.
    assert (Kn : INR n <= 1000).
    { replace 1000 with (INR 1000) by (rewrite INR_IZR_INZ; reflexivity).
      apply le_INR. exact Hn. }
    pose proof (pos_INR n) as Pn.
    pose proof (pow_down (/ 32768) n) as D.
    pose proof (pow_up (/ 32768) n) as U.
    assert (Pe : 0 < exact).
    { unfold exact. apply Rmult_lt_0_compat; [lra | apply exp_pos]. }
    split; [exact F|]. split.
    + rewrite V. apply Rmult_lt_0_compat; lra.
    + rewrite V. replace (exact * u - exact) with (exact * (u - 1)) by ring.
      rewrite Rabs_mult, (Rabs_pos_eq exact) by lra.
      rewrite (Rmult_comm (INR n / 16384)).
      apply Rmult_le_compat_l; [lra|].
      unfold Rabs. destruct (Rcase_abs _); lra.
Qed.

(** C5, as amended. Take a state whose radius is the float [r], between
    [1e-6] and [1e6], and a sequence of events with at most 1000 scroll
    events, of offsets [ys], that turn the wheel by at most 500 in all. In
    exact arithmetic the radius after the events is the first one times
    [exp (-0.1 * sum of the offsets)]. The binary32 radius of the program
    after these events is finite and positive, and differs from that
    closed form by at most [n / 16384] of it, for [n] scroll events: every
    event rounds, and the roundings add up. *)
Theorem scroll_radius_closed_form
  (s : Application.state) (es : list Application.event)
  (r : float) (ys : list Q) :
  is_finite r = true -> F2R r = Application.radius s ->
  Application.scroll_deltas es = map Q2R ys ->
  / 1000000 <= Application.radius s <= 1000000 ->
  Application.scroll_travel es <= 500 -> (List.length ys <= 1000)%nat ->
  let exact :=
    Application.radius s
    * exp (- 0.1 * Application.Rsum (Application.scroll_deltas es)) in
  Application.radius (Application.run s es) = exact
  /\ is_finite (run32 r ys) = true
  /\ 0 < F2R (run32 r ys)
  /\ Rabs (F2R (run32 r ys) - exact) <= INR (List.length ys) / 16384 * exact.
Proof.
  intros Fr Vr Hd Hr Ht Hn exact.
  split; [apply ApplicationFacts.radius_run|].
  unfold exact, Application.scroll_travel in *. rewrite Hd in *.
  rewrite <- Vr in *.
  exact (run32_closed_form r ys Fr Hr Ht Hn).
Qed.

Lemma scroll_radius_closed_form_witness :
  let ys := [3 # 1; - (3 # 1)]%Q in
  is_finite (run32 (of_Z 5) ys) = true
  /\ 0 < F2R (run32 (of_Z 5) ys)
  /\ Rabs (F2R (run32 (of_Z 5) ys) - 5) <= 2 / 16384 * 5.
Proof.
  intros ys.
  set (es := [Application.Scroll 0 3; Application.Update 1 2 true false;
              Application.Scroll 0 (- 3)]).
  assert (Fr : is_finite (of_Z 5) = true) by reflexivity.
  assert (Vr : F2R (of_Z 5) = Application.radius Application.initial).
  { unfold of_Z. rewrite F2R_of_Q, Q2R_inject_Z. reflexivity. }
  assert (Hd : Application.scroll_deltas es = map Q2R ys).
  { simpl. repeat f_equal; unfold Q2R; simpl; lra. }
  assert (Hr : / 1000000 <= Application.radius Application.initial <= 1000000)
    by (simpl; lra).
  assert (Ht : Application.scroll_travel es <= 500).
  { unfold Application.scroll_travel. simpl. unfold Rabs.
    repeat destruct (Rcase_abs _); lra. }
  assert (Hn : (List.length ys <= 1000)%nat) by (simpl; lia).
  destruct (scroll_radius_closed_form Application.initial es (of_Z 5) ys
              Fr Vr Hd Hr Ht Hn) as [_ [F [P E]]].
  split; [exact F|]. split; [exact P|].
  change (Application.radius Application.initial) with 5 in E.
  change (Application.Rsum (Application.scroll_deltas es))
    with (3 + (- 3 + 0)) in E.
  change (INR (List.length ys)) with (1 + 1) in E.
  replace (- 0.1 * (3 + (- 3 + 0))) with 0 in E by lra.
  rewrite exp_0, Rmult_1_r in E.
  replace (2 / 16384 * 5) with ((1 + 1) / 16384 * 5) by lra. exact E.
Defined.

(** C5, the claim as written fails. The radius of the program is a
    binary32 value: from the initial radius 5 one scroll event of offset
    1100 multiplies it by [exp (-110)], which underflows to zero, and the
    radius is 0, where [5 * exp (-0.1 * 1100)] is positive. From then on
    the camera sits on the focus: zero times any finite factor is zero. *)
Lemma scroll_in_reaches_zero :
  (fopp (round32 (1 # 10)) * round32 (1100 # 1))%float = of_Z (-110)
  /\ scroll32 (of_Z 5) (1100 # 1) = of_Z 0
  /\ 0 < 5 * exp (- 0.1 * 1100)
  /\ (forall factor : Qc, (of_Z 0 * Fin factor)%float = of_Z 0
                          \/ (of_Z 0 * Fin factor)%float = NZero).
Proof.
  assert (E : (fopp (round32 (1 # 10)) * round32 (1100 # 1))%float = of_Z (-110))
    by (vm_compute; reflexivity).
  split; [exact E|]. split; [|split].
  - unfold scroll32. rewrite E, expf_underflow. vm_compute. reflexivity.
  - apply Rmult_lt_0_compat; [lra | apply exp_pos].
  - intros factor.
    destruct (FloatFacts.has_val_mul (of_Z 0) (Fin factor) 0%Qc factor 0%Qc)
      as [Hf Hv]; [split; reflexivity | apply FloatFacts.has_val_Fin
                  | apply Qcmult_0_l | reflexivity |].
    destruct (of_Z 0 * Fin factor)%float as [q| | | |]; try discriminate Hf.
    + left. cbn [fval] in Hv. subst q. reflexivity.
    + now right.
Qed.

End Zoom32Facts.

(** * Further properties of the parser and the framer *)

Module WriterFacts.
Import IStream Float Glm Viewer Writer.

(** ** Lines *)

Lemma getlines_from_line (l : list ascii) :
  ~ In line_feed l ->
  forall cur rest,
    getlines_from cur (l ++ line_feed :: rest)
    = (rev cur ++ l) :: getlines_from [] rest.
Proof.
  induction l as [|c t IH]; intros Hnl cur rest; simpl.
  - now rewrite app_nil_r.
  - destruct (Ascii.eqb_spec c "010"%char) as [->|Hc].
    + exfalso. apply Hnl. now left.
    + rewrite IH by (intros H; apply Hnl; now right).
      simpl. now rewrite <- app_assoc.
Qed.

Lemma getlines_from_last (l : list ascii) :
  ~ In line_feed l -> l <> [] ->
  forall cur, getlines_from cur l = [rev cur ++ l].
Proof.
  induction l as [|c t IH]; intros Hnl Hne cur; [congruence|]. simpl.
  destruct (Ascii.eqb_spec c "010"%char) as [->|Hc].
  - exfalso. apply Hnl. now left.
  - destruct t as [|d t'].
    + simpl. reflexivity.
    + rewrite IH; [|intros H; apply Hnl; now right|discriminate].
      simpl. now rewrite <- app_assoc.
Qed.

Lemma getlines_of_unlines (ls : list (list ascii)) :
  Forall (fun l => ~ In line_feed l) ls -> getlines (unlines ls) = ls.
Proof.
  intros Hls. unfold getlines.
  induction Hls as [|l t Hl Ht IH]; [reflexivity|].
  simpl. rewrite <- app_assoc. simpl.
  rewrite getlines_from_line by assumption. simpl. now rewrite IH.
Qed.

(** X1. The loop [while (getline(file, line))] gives back the lines a file
    was made of: lines without a line feed, each ended by one, are read
    back one by one, the empty ones included; a last line that is not
    empty need not be ended. *)
Theorem getlines_unlines (ls : list (list ascii)) (last : list ascii) :
  Forall (fun l => ~ In line_feed l) ls -> ~ In line_feed last ->
  getlines (unlines ls) = ls
  /\ (last <> [] -> getlines (unlines ls ++ last) = ls ++ [last]).
Proof.
  intros Hls Hlast. split; [now apply getlines_of_unlines|].
  unfold getlines.
  - intros Hne. induction Hls as [|l t Hl Ht IH].
    + simpl. now rewrite getlines_from_last.
    + simpl. rewrite <- !app_assoc. simpl.
      rewrite getlines_from_line by assumption. simpl. now rewrite IH.
Qed.

Lemma getlines_unlines_witness :
  getlines (unlines [["v"%char]; []; ["l"%char]]) = [["v"%char]; []; ["l"%char]]
  /\ getlines (unlines [["v"%char]] ++ ["l"%char]) = [["v"%char]; ["l"%char]].
Proof.
  assert (H1 : Forall (fun l => ~ In line_feed l) [["v"%char]; []; ["l"%char]]).
  { repeat constructor; simpl; intros H;
      repeat (destruct H as [H|H]; [discriminate|]); exact H. }
  assert (H2 : Forall (fun l => ~ In line_feed l) [["v"%char]]).
  { repeat constructor; simpl; intros H;
      repeat (destruct H as [H|H]; [discriminate|]); exact H. }
  assert (H3 : ~ In line_feed ["l"%char]).
  { simpl; intros H; repeat (destruct H as [H|H]; [discriminate|]); exact H. }
  split.
  - exact (proj1 (getlines_unlines _ ["l"%char] H1 H3)).
  - apply (proj2 (getlines_unlines _ ["l"%char] H2 H3)). discriminate.
Defined.

(** ** Decimal numbers *)

(** What a digit is not. *)
Lemma digit_char (c : ascii) :
  isdigit c = true ->
  isspace c = false /\ is_e c = false /\ c <> line_feed
  /\ c <> "."%char /\ forall t, get_sign (c :: t) = (false, c :: t).
Proof.
  destruct c as [[] [] [] [] [] [] [] []]; intros H;
    try discriminate H; repeat split; try discriminate; reflexivity.
Qed.

Lemma uint_chars_digits (d : Decimal.uint) :
  Forall (fun c => isdigit c = true) (uint_chars d).
Proof. induction d; simpl; constructor; try reflexivity; assumption. Qed.

Lemma uint_chars_acc (d : Decimal.uint) :
  forall acc : positive,
    fold_left (fun a c => 10 * a + digit_value c)%Z (uint_chars d) (Zpos acc)
    = Zpos (Pos.of_uint_acc d acc).
Proof.
  induction d; intros acc; cbn [uint_chars fold_left Pos.of_uint_acc];
    try reflexivity;
    match goal with
    | |- fold_left _ _ ?z = _ =>
        match goal with
        | |- _ = Zpos (Pos.of_uint_acc _ ?p) =>
            replace z with (Zpos p)
              by (rewrite ?Pos2Z.inj_add, ?Pos2Z.inj_mul;
                  match goal with
                  | |- context [digit_value ?c] =>
                      let v := eval vm_compute in (digit_value c) in
                      change (digit_value c) with v
                  end; lia)
        end
    end; apply IHd.
Qed.

Lemma uint_chars_value (d : Decimal.uint) :
  digits_value (uint_chars d) = Z.of_N (Pos.of_uint d).
Proof.
  unfold digits_value.
  induction d; cbn [uint_chars fold_left Pos.of_uint]; try reflexivity;
    try exact IHd;
    match goal with
    | |- fold_left _ _ ?z = Z.of_N (Npos (Pos.of_uint_acc _ ?p)) =>
        change z with (Zpos p); apply uint_chars_acc
    end.
Qed.

Lemma decimal_value (n : N) : digits_value (decimal n) = Z.of_N n.
Proof.
  unfold decimal. rewrite uint_chars_value.
  change (Pos.of_uint (N.to_uint n)) with (N.of_uint (N.to_uint n)).
  now rewrite DecimalN.Unsigned.of_to.
Qed.

Lemma decimal_digits (n : N) : Forall (fun c => isdigit c = true) (decimal n).
Proof. apply uint_chars_digits. Qed.

Lemma decimal_cons (n : N) :
  exists c t, decimal n = c :: t /\ isdigit c = true.
Proof.
  pose proof (decimal_digits n) as H. unfold decimal in *.
  destruct (uint_chars (N.to_uint n)) as [|c t] eqn:E.
  - exfalso. destruct n as [|p]; [discriminate E|].
    apply (DecimalPos.Unsigned.to_uint_nonnil p).
    simpl in E. destruct (Pos.to_uint p); try discriminate E. reflexivity.
  - exists c, t. split; [reflexivity|]. now inversion H.
Qed.

(** ** Reading back what was written *)

Lemma span_digits (ds rest : list ascii) :
  Forall (fun c => isdigit c = true) ds -> field_end rest ->
  span isdigit (ds ++ rest) = (ds, rest).
Proof.
  intros Hds Hrest. induction Hds as [|c t Hc Ht IH]; simpl.
  - destruct Hrest as [-> | [t ->]]; reflexivity.
  - rewrite Hc, IH. reflexivity.
Qed.

Lemma skipws_decimal (n : N) (rest : list ascii) :
  skipws (" "%char :: decimal n ++ rest) = decimal n ++ rest
  /\ decimal n ++ rest <> [].
Proof.
  destruct (decimal_cons n) as [c [t [E Hc]]]. rewrite E.
  destruct (digit_char c Hc) as [Hs _].
  cbn [skipws app]. change (isspace " "%char) with true. cbn iota.
  cbn [skipws]. rewrite Hs. split; [reflexivity | discriminate].
Qed.

Lemma get_sign_decimal (n : N) (rest : list ascii) :
  get_sign (decimal n ++ rest) = (false, decimal n ++ rest).
Proof.
  destruct (decimal_cons n) as [c [t [E Hc]]]. rewrite E.
  destruct (digit_char c Hc) as [_ [_ [_ [_ Hg]]]]. apply Hg.
Qed.

Lemma sentry_field (b : list ascii) (c : ascii) (t : list ascii) :
  skipws b = c :: t ->
  sentry {| buf := b; eofbit := false; failbit := false |}
  = ({| buf := c :: t; eofbit := false; failbit := false |}, true).
Proof. intros H. unfold sentry, good. cbn [buf eofbit failbit negb andb]. now rewrite H. Qed.

(** [stream >> n] reads a decimal index below 2^32 back. *)
Lemma get_uint32_decimal (n : N) (rest : list ascii) (old : Z) :
  (Z.of_N n <= UINT32_MAX)%Z -> field_end rest ->
  get_uint32 {| buf := " "%char :: decimal n ++ rest;
                eofbit := false; failbit := false |} old
  = ({| buf := rest; eofbit := is_nil rest; failbit := false |}, Z.of_N n).
Proof.
  intros Hn Hrest. unfold get_uint32.
  destruct (skipws_decimal n rest) as [Hs Hne].
  destruct (decimal n ++ rest) as [|c t] eqn:E; [congruence|].
  rewrite (sentry_field _ c t Hs). cbn [buf]. rewrite <- E.
  rewrite get_sign_decimal, (span_digits _ _ (decimal_digits n) Hrest).
  pose proof (decimal_value n) as Hv.
  destruct (decimal_cons n) as [c' [t' [E' _]]]. rewrite E' in *. rewrite Hv.
  destruct (Z.ltb_spec UINT32_MAX (Z.of_N n)); [lia|reflexivity].
Qed.

Lemma not_point (rest : list ascii) :
  field_end rest ->
  match rest with
  | "."%char :: t => span isdigit t
  | _ => ([], rest)
  end = ([], rest).
Proof. intros [-> | [t ->]]; reflexivity. Qed.

Lemma scan_float_natural (neg : bool) (n : N) (rest : list ascii) :
  field_end rest ->
  scan_float ((if neg then ["-"%char] else []) ++ decimal n ++ rest)
  = (Some (inject_Z (if neg then - Z.of_N n else Z.of_N n)
           * Qpower (10 # 1) (- Z.of_nat 0))%Q, rest).
Proof.
  intros Hrest. unfold scan_float.
  assert (Hg : get_sign ((if neg then ["-"%char] else []) ++ decimal n ++ rest)
               = (neg, decimal n ++ rest)).
  { destruct neg; [reflexivity | apply get_sign_decimal]. }
  rewrite Hg, (span_digits _ _ (decimal_digits n) Hrest), (not_point _ Hrest).
  rewrite app_nil_r, decimal_value.
  destruct (decimal_cons n) as [c [t [E _]]]. rewrite E. cbn [List.length].
  destruct Hrest as [-> | [t' ->]]; reflexivity.
Qed.

Lemma decimal_Z_split (z : Z) :
  decimal_Z z = (if negative z then ["-"%char] else []) ++ decimal (magnitude z)
  /\ (if negative z then - Z.of_N (magnitude z) else Z.of_N (magnitude z))%Z = z.
Proof. destruct z; split; reflexivity. Qed.

Lemma get_sign_signed (neg : bool) (n : N) (rest : list ascii) :
  get_sign ((if neg then ["-"%char] else []) ++ decimal n ++ rest)
  = (neg, decimal n ++ rest).
Proof. destruct neg; [reflexivity | apply get_sign_decimal]. Qed.

(** [strtof] gives an integer of magnitude at most [2^24] exactly. *)
Lemma strtof_integer (neg : bool) (z : Z) :
  (Z.abs z <= 2 ^ 24)%Z -> (z = 0%Z -> neg = false) ->
  strtof neg (inject_Z z * Qpower (10 # 1) (- Z.of_nat 0)) = of_Z z.
Proof.
  intros Hz Hneg. unfold strtof.
  assert (E : inject_Z z * Qpower (10 # 1) (- Z.of_nat 0) == inject_Z z)
    by (simpl; apply Qmult_1_r).
  destruct (Qeq_bool _ _) eqn:E0.
  - apply Qeq_bool_iff in E0. rewrite E in E0.
    assert (z = 0%Z).
    { unfold Qeq in E0. simpl in E0. lia. }
    subst z. rewrite Hneg by reflexivity. reflexivity.
  - rewrite (FloatFacts.round32_comp _ _ E). now apply FloatFacts.round32_Z.
Qed.

(** [stream >> x] reads an integer coordinate of magnitude at most [2^24]
    back. *)
Lemma get_float_decimal (z : Z) (rest : list ascii) (old : float) :
  (Z.abs z <= 2 ^ 24)%Z ->
  field_end rest ->
  get_float {| buf := " "%char :: decimal_Z z ++ rest;
               eofbit := false; failbit := false |} old
  = ({| buf := rest; eofbit := is_nil rest; failbit := false |}, of_Z z).
Proof.
  intros Hz Hrest. unfold get_float.
  destruct (decimal_Z_split z) as [E Hv].
  assert (Hs : skipws (" "%char :: decimal_Z z ++ rest) = decimal_Z z ++ rest
               /\ decimal_Z z ++ rest <> []).
  { rewrite E. destruct (negative z).
    - split; [reflexivity | discriminate].
    - apply skipws_decimal. }
  destruct Hs as [Hs Hne].
  destruct (decimal_Z z ++ rest) as [|c t] eqn:Eb; [congruence|].
  rewrite (sentry_field _ c t Hs). cbn [buf]. rewrite <- Eb, E, <- app_assoc.
  rewrite (scan_float_natural _ _ _ Hrest), get_sign_signed, Hv. cbn [fst].
  rewrite strtof_integer; [reflexivity | exact Hz |].
  intros ->. reflexivity.
Qed.

Lemma decimal_no_line_feed (n : N) : ~ In line_feed (decimal n).
Proof.
  intros H. pose proof (decimal_digits n) as Hd.
  rewrite Forall_forall in Hd. apply Hd in H.
  destruct (digit_char _ H) as [_ [_ [Hlf _]]]. now apply Hlf.
Qed.

Lemma decimal_Z_no_line_feed (z : Z) : ~ In line_feed (decimal_Z z).
Proof.
  destruct z; unfold decimal_Z; try apply decimal_no_line_feed.
  intros [H|H]; [discriminate | revert H; apply decimal_no_line_feed].
Qed.

Lemma v_line_no_line_feed (p : Z * Z * Z) : ~ In line_feed (v_line p).
Proof.
  destruct p as [[a b] c]. unfold v_line. intros H.
  repeat (destruct H as [H|H]; [discriminate|]).
  repeat (apply in_app_or in H; destruct H as [H|H];
          [revert H; apply decimal_Z_no_line_feed|];
          try (destruct H as [H|H]; [discriminate|])).
  revert H. apply decimal_Z_no_line_feed.
Qed.

Lemma l_line_no_line_feed (e : N * N) : ~ In line_feed (l_line e).
Proof.
  unfold l_line. intros H.
  repeat (destruct H as [H|H]; [discriminate|]).
  apply in_app_or in H. destruct H as [H|H];
    [revert H; apply decimal_no_line_feed|].
  destruct H as [H|H]; [discriminate|].
  revert H. apply decimal_no_line_feed.
Qed.

Lemma get_string_v_line (a b c : Z) :
  get_string (open (v_line (a, b, c))) []
  = ({| buf := " "%char :: decimal_Z a
               ++ " "%char :: decimal_Z b ++ " "%char :: decimal_Z c;
        eofbit := false; failbit := false |}, cmd_v).
Proof. reflexivity. Qed.

Lemma get_string_l_line (e : N * N) :
  get_string (open (l_line e)) []
  = ({| buf := " "%char :: decimal (fst e) ++ " "%char :: decimal (snd e);
        eofbit := false; failbit := false |}, cmd_l).
Proof. reflexivity. Qed.

Lemma field_end_nil : field_end [].
Proof. now left. Qed.

Lemma field_end_space (t : list ascii) : field_end (" "%char :: t).
Proof. right. now exists t. Qed.

(** A written [v] line with coordinates of magnitude at most [2^24] is
    read back as its vertex. *)
Lemma read_vertex_v_line (indet : vertex) (p : Z * Z * Z) :
  small_integers p ->
  command_of (v_line p) = cmd_v /\ read_vertex indet (v_line p) = vertex_of p.
Proof.
  destruct p as [[a b] c]. intros [Ha [Hb Hc]].
  unfold command_of, read_vertex.
  rewrite get_string_v_line. split; [reflexivity|].
  rewrite (get_float_decimal a _ _ Ha (field_end_space _)). cbn [is_nil].
  rewrite (get_float_decimal b _ _ Hb (field_end_space _)). cbn [is_nil].
  rewrite <- (app_nil_r (decimal_Z c)).
  rewrite (get_float_decimal c _ _ Hc field_end_nil). reflexivity.
Qed.

(** A written [l] line with indices below 2^32 is read back as its edge. *)
Lemma read_edge_l_line (e : N * N) :
  (Z.of_N (fst e) <= UINT32_MAX)%Z -> (Z.of_N (snd e) <= UINT32_MAX)%Z ->
  command_of (l_line e) = cmd_l /\ read_edge (l_line e) = edge_of e.
Proof.
  intros H1 H2. unfold command_of, read_edge.
  rewrite get_string_l_line. split; [reflexivity|].
  rewrite (get_uint32_decimal _ _ _ H1 (field_end_space _)). cbn [is_nil].
  rewrite <- (app_nil_r (decimal (snd e))).
  rewrite (get_uint32_decimal _ _ _ H2 field_end_nil). reflexivity.
Qed.

Lemma parse_lines_l_lines (indet : vertex) (es : list (N * N)) :
  Forall (fun e => (Z.of_N (fst e) <= UINT32_MAX)%Z
                   /\ (Z.of_N (snd e) <= UINT32_MAX)%Z) es ->
  forall f,
    parse_lines indet (map l_line es) f
    = inr {| vertices := vertices f; edges := edges f ++ map edge_of es |}.
Proof.
  induction 1 as [|e t [H1 H2] Ht IH]; intros f; simpl.
  - rewrite app_nil_r. now destruct f.
  - destruct (read_edge_l_line e H1 H2) as [Hc Hr].
    rewrite ViewerFacts.parse_line_l by (rewrite Hc; reflexivity).
    rewrite IH, Hr. cbn [vertices edges]. now rewrite <- app_assoc.
Qed.

Lemma parse_lines_written (indet : vertex) (vs : list (Z * Z * Z))
  (es : list (N * N)) :
  Forall small_integers vs ->
  Forall (fun e => (Z.of_N (fst e) <= UINT32_MAX)%Z
                   /\ (Z.of_N (snd e) <= UINT32_MAX)%Z) es ->
  forall f,
    parse_lines indet (map v_line vs ++ map l_line es) f
    = inr {| vertices := vertices f ++ map vertex_of vs;
             edges := edges f ++ map edge_of es |}.
Proof.
  intros Hvs Hes. induction Hvs as [|p t Hp Ht IH]; intros f; simpl.
  - rewrite parse_lines_l_lines by assumption. now rewrite app_nil_r.
  - destruct (read_vertex_v_line indet p Hp) as [Hc Hr].
    replace (is_nil (v_line p)) with false by (now destruct p as [[a b] c]).
    rewrite ViewerFacts.parse_line_v by (rewrite Hc; reflexivity).
    rewrite IH, Hr. cbn [vertices edges]. now rewrite <- app_assoc.
Qed.

(** X2. Writing and parsing are inverse: the text of a frontier with
    integer coordinates of magnitude at most 2^24 (every such integer is a
    binary32 value) and indices below 2^32, one command per line, is
    accepted by the parser, and the frontier parsed is the one written,
    vertices and edges in the order written. *)
Theorem parse_write_frontier (indet : vertex) (vs : list (Z * Z * Z))
  (es : list (N * N)) :
  Forall small_integers vs ->
  Forall (fun e => (Z.of_N (fst e) <= UINT32_MAX)%Z
                   /\ (Z.of_N (snd e) <= UINT32_MAX)%Z) es ->
  parse indet (write_frontier vs es)
  = inr {| vertices := map vertex_of vs; edges := map edge_of es |}.
Proof.
  intros Hvs Hes. unfold parse, write_frontier.
  rewrite list_ascii_of_string_of_list_ascii, getlines_of_unlines.
  - now rewrite parse_lines_written.
  - apply Forall_app. split; apply Forall_forall; intros l Hl;
      apply in_map_iff in Hl; destruct Hl as [p [<- _]];
      [apply v_line_no_line_feed | apply l_line_no_line_feed].
Qed.

Lemma parse_write_frontier_witness :
  parse (fvec 7 7 7)
        (write_frontier [(0, 0, 0); (-2, 13, 0); (16777216, 0, -40)]%Z
                        [(0, 1); (1, 2); (4294967295, 0)]%N)
  = inr {| vertices := [fvec 0 0 0; fvec (-2) 13 0; fvec 16777216 0 (-40)];
           edges := [(0, 1); (1, 2); (4294967295, 0)]%Z |}.
Proof.
  apply (parse_write_frontier (fvec 7 7 7)).
  - repeat constructor; vm_compute; discriminate.
  - repeat constructor; vm_compute; discriminate.
Defined.

(** An integer above [2^24] need not come back: 16777217 is read as
    16777216, and a number beyond the range of a [float] is read as the
    largest float, sets [failbit] and leaves the rest of the line unread. *)
Lemma large_coordinates_are_rounded :
  read_vertex (fvec 7 7 7) (v_line (16777217, 0, 0)%Z) = fvec 16777216 0 0
  /\ read_vertex (fvec 7 7 7) (list_ascii_of_string "v 1e39 2 3")
     = Vec3 (of_Q FLT_MAX) (of_Z 7) (of_Z 7).
Proof. split; vm_compute; reflexivity. Qed.

End WriterFacts.

Module BoxFacts.
Import IStream Float Glm Viewer Box.

(** ** Indentation and failed fields *)

Lemma skipws_app (ws l : list ascii) :
  Forall (fun c => isspace c = true) ws -> skipws (ws ++ l) = skipws l.
Proof. induction 1 as [|c t Hc Ht IH]; simpl; [reflexivity|]. now rewrite Hc. Qed.

(** X3. White space in front of a command does not matter: the loop body
    does on an indented line what it does on the line without the
    indentation, and a file stays accepted or rejected, with the same
    frontier or the same token, when a line that is not empty is indented. *)
Theorem indentation_is_skipped
  (indet : vertex) (ws line : list ascii) (f : frontier) :
  Forall (fun c => isspace c = true) ws ->
  parse_line indet (ws ++ line) f = parse_line indet line f
  /\ (line <> [] ->
      forall before after,
        parse_lines indet (before ++ (ws ++ line) :: after) f
        = parse_lines indet (before ++ line :: after) f).
Proof.
  intros Hws.
  assert (Hs : sentry (open (ws ++ line)) = sentry (open line)).
  { unfold sentry, open, good. cbn [buf eofbit failbit negb andb].
    now rewrite skipws_app. }
  assert (Hl : forall g, parse_line indet (ws ++ line) g = parse_line indet line g).
  { intros g. unfold parse_line, get_string. now rewrite Hs. }
  split; [apply Hl|].
  intros Hne before after. revert f.
  induction before as [|b t IH]; intros f; cbn [app parse_lines].
  - replace (is_nil (ws ++ line)) with false
      by (destruct ws; [destruct line; [congruence | reflexivity]
                       | reflexivity]).
    replace (is_nil line) with false
      by (destruct line; [congruence | reflexivity]).
    now rewrite Hl.
  - destruct (is_nil b); [apply IH|].
    destruct (parse_line indet b f); [reflexivity | apply IH].
Qed.

Lemma indentation_is_skipped_witness :
  parse_lines (fvec 0 0 0)
    [list_ascii_of_string "   v 1 2 3"; list_ascii_of_string "l 0 0"]
    {| vertices := []; edges := [] |}
  = parse_lines (fvec 0 0 0)
      [list_ascii_of_string "v 1 2 3"; list_ascii_of_string "l 0 0"]
      {| vertices := []; edges := [] |}.
Proof.
  assert (Hws : Forall (fun c => isspace c = true) (list_ascii_of_string "   "))
    by (repeat constructor).
  assert (Hne : list_ascii_of_string "v 1 2 3" <> []) by discriminate.
  exact (proj2 (indentation_is_skipped (fvec 0 0 0) _ _ _ Hws) Hne
               [] [list_ascii_of_string "l 0 0"]).
Defined.

Lemma skipws_blank (ws : list ascii) :
  Forall (fun c => isspace c = true) ws -> skipws ws = [].
Proof.
  induction 1 as [|c t Hc _ IH]; [reflexivity|].
  cbn [skipws]. now rewrite Hc.
Qed.

(** X25. A line of white space only is not skipped: it is not empty, the
    extraction of the command finds no token and leaves the empty string,
    which is neither [v] nor [l], and the parse ends there with the empty
    token, whatever came before in the frontier and whatever follows in
    the file. *)
Theorem white_space_line_ends_the_parse
  (indet : vertex) (ws : list ascii) (f : frontier) :
  ws <> [] -> Forall (fun c => isspace c = true) ws ->
  command_of ws = []
  /\ parse_line indet ws f = inl []
  /\ (forall rest, parse_lines indet (ws :: rest) f = inl [])
  /\ parse_error_message []
     = ("Failed to parse given file. Command '' is unknown." ++ nl)%string.
Proof.
  intros Hne Hws.
  assert (Hc : get_string (open ws) []
               = ({| buf := []; eofbit := true; failbit := true |}, [])).
  { unfold get_string, sentry, open, good. cbn [buf eofbit failbit negb andb].
    rewrite (skipws_blank ws Hws). reflexivity. }
  assert (Hp : parse_line indet ws f = inl []).
  { unfold parse_line. rewrite Hc. reflexivity. }
  split; [unfold command_of; now rewrite Hc|]. split; [exact Hp|].
  split; [|reflexivity].
  intros rest. cbn [parse_lines]. rewrite Hp.
  destruct ws; [congruence | reflexivity].
Qed.

Lemma white_space_line_ends_the_parse_witness :
  parse_lines (fvec 0 0 0)
    [list_ascii_of_string "  "; list_ascii_of_string "v 1 2 3"]
    {| vertices := []; edges := [] |}
  = inl [].
Proof.
  assert (Hne : list_ascii_of_string "  " <> []) by discriminate.
  assert (Hws : Forall (fun c => isspace c = true) (list_ascii_of_string "  "))
    by (repeat constructor).
  destruct (white_space_line_ends_the_parse (fvec 0 0 0) _
              {| vertices := []; edges := [] |} Hne Hws) as [_ [_ [H _]]].
  exact (H [list_ascii_of_string "v 1 2 3"]).
Defined.

(** Once [failbit] is set an extraction changes neither the stream's
    [failbit] nor its target. *)
Lemma get_float_failed (s : istream) (old : float) :
  failbit s = true ->
  snd (get_float s old) = old /\ failbit (fst (get_float s old)) = true.
Proof.
  intros H. unfold get_float, sentry, good. rewrite H.
  rewrite andb_false_r. split; reflexivity.
Qed.

Lemma get_uint32_failed (s : istream) (old : Z) :
  failbit s = true ->
  snd (get_uint32 s old) = old /\ failbit (fst (get_uint32 s old)) = true.
Proof.
  intros H. unfold get_uint32, sentry, good. rewrite H.
  rewrite andb_false_r. split; reflexivity.
Qed.

Lemma get_float_stream (s : istream) (old old' : float) :
  fst (get_float s old) = fst (get_float s old').
Proof.
  unfold get_float. destruct (sentry s) as [s1 [|]]; [|reflexivity].
  destruct (scan_float (buf s1)) as [[q|] rest]; reflexivity.
Qed.

Lemma get_uint32_stream (s : istream) (old old' : Z) :
  fst (get_uint32 s old) = fst (get_uint32 s old').
Proof.
  unfold get_uint32. destruct (sentry s) as [s1 [|]]; [|reflexivity].
  destruct (get_sign (buf s1)) as [neg b1].
  destruct (span isdigit b1) as [[|d ds] rest]; [reflexivity|].
  destruct (_ <? _)%Z; reflexivity.
Qed.

(** X4. A field that fails to be read ends the reading of the line: when
    the first field of a [v] line fails, the second and third coordinates
    of the vertex are what the uninitialised [glm::vec3] held, whatever
    follows on the line; when the first field of an [l] line fails, the
    second index of the edge is 0. *)
Theorem failed_field_ends_line (indet : vertex) (line : list ascii) :
  (first_v_field_fails line = true ->
   y (read_vertex indet line) = y indet /\ z (read_vertex indet line) = z indet)
  /\ (first_l_field_fails line = true -> snd (read_edge line) = 0%Z).
Proof.
  unfold first_v_field_fails, first_l_field_fails, after_command,
    read_vertex, read_edge.
  destruct (get_string (open line) []) as [s command]. cbn [fst]. split.
  - intros H. rewrite (get_float_stream s fzero (x indet)) in H.
    destruct (get_float s (x indet)) as [s1 vx]. cbn [fst] in H.
    pose proof (get_float_failed s1 (y indet) H) as [Hy Hf].
    destruct (get_float s1 (y indet)) as [s2 vy]. cbn [fst snd] in Hy, Hf.
    pose proof (get_float_failed s2 (z indet) Hf) as [Hz _].
    destruct (get_float s2 (z indet)) as [s3 vz]. cbn [snd] in Hz.
    cbn [y z]. split; assumption.
  - intros H.
    destruct (get_uint32 s 0%Z) as [s1 e1]. cbn [fst] in H.
    pose proof (get_uint32_failed s1 0%Z H) as [H2 _].
    destruct (get_uint32 s1 0%Z) as [s2 e2]. exact H2.
Qed.

Lemma failed_field_ends_line_witness :
  y (read_vertex (fvec 7 8 9) (list_ascii_of_string "v x 2 3")) = of_Z 8
  /\ snd (read_edge (list_ascii_of_string "l x 5")) = 0%Z.
Proof.
  destruct (failed_field_ends_line (fvec 7 8 9) (list_ascii_of_string "v x 2 3"))
    as [Hv _].
  destruct (failed_field_ends_line (fvec 7 8 9) (list_ascii_of_string "l x 5"))
    as [_ Hl].
  split; [exact (proj1 (Hv eq_refl)) | exact (Hl eq_refl)].
Defined.

(** ** [main] *)

(** X5. [main] calls [application::run] only when it was given exactly one
    argument, the file opened, the parse succeeded and the file holds a
    vertex; every return before that is a return of -1: with the usage
    text on the output stream exactly when the number of arguments is not
    one, with a message on the error stream otherwise. *)
Theorem main_runs_only_on_a_parsed_vertex
  (indet : vertex) (argv : list string) (fs : string -> option string) :
  (forall sc, main indet argv fs = Run sc ->
     exists prog path file,
       argv = [prog; path] /\ fs path = Some file
       /\ parse indet file = inr (scene_frontier sc)
       /\ vertices (scene_frontier sc) <> [])
  /\ (forall code out err, main indet argv fs = Exit code out err ->
        code = (-1)%Z
        /\ (List.length argv <> 2%nat -> err = EmptyString)
        /\ (List.length argv = 2%nat -> out = EmptyString))
  /\ (List.length argv <> 2%nat ->
      exists out, main indet argv fs = Exit (-1) out EmptyString).
Proof.
  unfold main.
  destruct argv as [|prog [|path [|extra rest]]]; cbn [List.length].
  1,2,4: split; [intros sc H; discriminate H|];
         split; [intros code out err H; inversion H; subst;
                 repeat split; intros; (reflexivity || lia)|];
         intros _; eexists; reflexivity.
  split; [|split; [|intros H; lia]].
  - intros sc H. exists prog, path.
    destruct (fs path) as [file|]; [|discriminate H].
    exists file. repeat split. 
    + unfold main_on in H. destruct (parse indet file) as [c|f]; [discriminate H|].
      unfold frame in H. destruct (aabb (vertices f)) as [[mn mx]|]; [|discriminate H].
      inversion H; subst. reflexivity.
    + unfold main_on in H. destruct (parse indet file) as [c|f]; [discriminate H|].
      unfold frame in H. destruct (aabb (vertices f)) as [[mn mx]|] eqn:E;
        [|discriminate H].
      inversion H; subst. cbn [scene_frontier]. intros Hv. rewrite Hv in E.
      discriminate E.
  - intros code out err H.
    destruct (fs path) as [file|].
    + unfold main_on in H. destruct (parse indet file) as [c|f].
      * inversion H; subst. repeat split; intros; (reflexivity || lia).
      * unfold frame in H. destruct (aabb (vertices f)) as [[mn mx]|];
          discriminate H.
    + inversion H; subst. repeat split; intros; (reflexivity || lia).
Qed.

Lemma main_runs_only_on_a_parsed_vertex_witness :
  (exists out, main (fvec 0 0 0) ["viewer"%string] (fun _ => None)
               = Exit (-1) out EmptyString)
  /\ exists sc,
       main (fvec 0 0 0) ["viewer"; "tetra.txt"]%string
            (fun _ => Some tetrahedron) = Run sc
       /\ vertices (scene_frontier sc) <> [].
Proof.
  pose proof (main_runs_only_on_a_parsed_vertex
                (fvec 0 0 0) ["viewer"%string] (fun _ => None)) as [_ [_ H1]].
  split; [apply H1; discriminate|].
  pose proof (main_runs_only_on_a_parsed_vertex
                (fvec 0 0 0) ["viewer"; "tetra.txt"]%string
                (fun _ => Some tetrahedron)) as [H2 _].
  destruct (main (fvec 0 0 0) ["viewer"; "tetra.txt"]%string
                 (fun _ => Some tetrahedron)) as [code out err| |sc] eqn:E;
    try (vm_compute in E; discriminate E).
  exists sc. split; [reflexivity|].
  destruct (H2 sc eq_refl) as [prog [path [file [_ [_ [_ Hv]]]]]]. exact Hv.
Defined.

(** ** The box *)

(** X6. The box [main] computes is the componentwise minimum and maximum
    of the vertices at the positions 0, 2, 4, ...: two vertex lists that
    agree at these positions get the same box, whatever they hold at the
    positions 1, 3, 5, ... *)
Theorem aabb_ignores_odd_positions (vs vs' : list vertex) :
  aabb vs = bounds_of_all (evens vs)
  /\ (evens vs = evens vs' -> aabb vs = aabb vs').
Proof.
  split; [apply FramerFacts.aabb_scans_even_positions|].
  intros H. rewrite !FramerFacts.aabb_scans_even_positions. now rewrite H.
Qed.

Lemma aabb_ignores_odd_positions_witness :
  aabb [fvec 0 0 0; fvec 9 9 9; fvec 1 2 3]
  = aabb [fvec 0 0 0; fvec (-5) 0 70; fvec 1 2 3; fvec 100 100 100].
Proof.
  exact (proj2 (aabb_ignores_odd_positions
                  [fvec 0 0 0; fvec 9 9 9; fvec 1 2 3]
                  [fvec 0 0 0; fvec (-5) 0 70; fvec 1 2 3; fvec 100 100 100])
               eq_refl).
Defined.

(** On finite values [<] compares the values. *)
Lemma fltb_finite (a b : float) :
  is_finite a = true -> is_finite b = true ->
  fltb a b = match (fval a ?= fval b)%Qc with Lt => true | _ => false end.
Proof. destruct a, b; simpl; intros; try discriminate; reflexivity. Qed.

(** The minimum and maximum of two finite values. *)
Lemma fmin_finite (a b : float) :
  is_finite a = true -> is_finite b = true ->
  is_finite (fmin a b) = true
  /\ (fval (fmin a b) <= fval a)%Qc /\ (fval (fmin a b) <= fval b)%Qc
  /\ (fmin a b = a \/ fmin a b = b).
Proof.
  intros Ha Hb. unfold fmin. rewrite (fltb_finite b a Hb Ha).
  destruct (fval b ?= fval a)%Qc eqn:E.
  - apply Qceq_alt in E. rewrite E.
    repeat split; try apply Qcle_refl; auto.
  - apply Qclt_alt in E.
    repeat split; [exact Hb | now apply Qclt_le_weak | apply Qcle_refl | now right].
  - apply Qcgt_alt in E.
    repeat split; [exact Ha | apply Qcle_refl | now apply Qclt_le_weak | now left].
Qed.

Lemma fmax_finite (a b : float) :
  is_finite a = true -> is_finite b = true ->
  is_finite (fmax a b) = true
  /\ (fval a <= fval (fmax a b))%Qc /\ (fval b <= fval (fmax a b))%Qc
  /\ (fmax a b = a \/ fmax a b = b).
Proof.
  intros Ha Hb. unfold fmax. rewrite (fltb_finite a b Ha Hb).
  destruct (fval a ?= fval b)%Qc eqn:E.
  - apply Qceq_alt in E. rewrite E.
    repeat split; try apply Qcle_refl; auto.
  - apply Qclt_alt in E.
    repeat split; [exact Hb | now apply Qclt_le_weak | apply Qcle_refl | now right].
  - apply Qcgt_alt in E.
    repeat split; [exact Ha | apply Qcle_refl | now apply Qclt_le_weak | now left].
Qed.

(** Folding [fmin] and [fmax] over finite values from a finite start:
    bounds of the start and of every value, and one of them. *)
Lemma fold_fmin_fmax (l : list float) :
  Forall (fun a => is_finite a = true) l ->
  forall (lo hi : float) (s : Qc),
    is_finite lo = true -> is_finite hi = true ->
    (fval lo <= s)%Qc -> (s <= fval hi)%Qc ->
    let lo' := fold_left fmin l lo in
    let hi' := fold_left fmax l hi in
    is_finite lo' = true /\ is_finite hi' = true
    /\ (fval lo' <= fval lo)%Qc /\ (fval hi <= fval hi')%Qc
    /\ Forall (fun a => fle lo' a /\ fle a hi') l
    /\ (lo' = lo \/ In lo' l) /\ (hi' = hi \/ In hi' l).
Proof.
  induction 1 as [|a t Ha Ht IH]; intros lo hi s Flo Fhi Hlo Hhi.
  - cbn [fold_left]. repeat split; try apply Qcle_refl; auto.
  - cbn [fold_left].
    destruct (fmin_finite lo a Flo Ha) as [Fm [Hm1 [Hm2 Hm3]]].
    destruct (fmax_finite hi a Fhi Ha) as [FM [HM1 [HM2 HM3]]].
    destruct (IH (fmin lo a) (fmax hi a) s Fm FM)
      as [F1 [F2 [H1 [H2 [H3 [H4 H5]]]]]].
    { apply (Qcle_trans _ (fval lo)); assumption. }
    { apply (Qcle_trans _ (fval hi)); assumption. }
    split; [exact F1|]. split; [exact F2|].
    split; [apply (Qcle_trans _ (fval (fmin lo a))); assumption|].
    split; [apply (Qcle_trans _ (fval (fmax hi a))); assumption|].
    split; [constructor; [|exact H3]|split].
    + split; unfold fle; repeat split; try assumption;
        [apply (Qcle_trans _ (fval (fmin lo a)))
        | apply (Qcle_trans _ (fval (fmax hi a)))]; assumption.
    + destruct H4 as [E | H4]; [|right; now right].
      rewrite E. destruct Hm3 as [E' | E']; rewrite E';
        [now left | right; now left].
    + destruct H5 as [E | H5]; [|right; now right].
      rewrite E. destruct HM3 as [E' | E']; rewrite E';
        [now left | right; now left].
Qed.

Lemma bounds_components (rest : list vertex) :
  forall mn mx : vertex,
    let r := fold_left (fun b v => (min (fst b) v, max (snd b) v)) rest (mn, mx) in
    x (fst r) = fold_left fmin (map x rest) (x mn)
    /\ y (fst r) = fold_left fmin (map y rest) (y mn)
    /\ z (fst r) = fold_left fmin (map z rest) (z mn)
    /\ x (snd r) = fold_left fmax (map x rest) (x mx)
    /\ y (snd r) = fold_left fmax (map y rest) (y mx)
    /\ z (snd r) = fold_left fmax (map z rest) (z mx).
Proof.
  induction rest as [|v t IH]; intros mn mx; cbn [fold_left map fst snd].
  - repeat split.
  - apply (IH (min mn v) (max mx v)).
Qed.

(** One coordinate of the box of a first vertex and further ones, all
    finite on this coordinate. *)
Lemma component_bounds (p : vertex -> float) (e0 : vertex) (rest : list vertex) :
  Forall (fun v => is_finite (p v) = true) (e0 :: rest) ->
  let lo := fold_left fmin (map p rest) (p e0) in
  let hi := fold_left fmax (map p rest) (p e0) in
  is_finite lo = true /\ is_finite hi = true /\ fle lo hi
  /\ (forall v, In v (e0 :: rest) -> fle lo (p v) /\ fle (p v) hi)
  /\ (exists v, In v (e0 :: rest) /\ p v = lo)
  /\ (exists v, In v (e0 :: rest) /\ p v = hi).
Proof.
  intros H. inversion H as [|? ? H0 Hrest]; subst.
  assert (Hm : Forall (fun a => is_finite a = true) (map p rest)).
  { apply Forall_map. exact Hrest. }
  destruct (fold_fmin_fmax _ Hm (p e0) (p e0) (fval (p e0)) H0 H0
              (Qcle_refl _) (Qcle_refl _))
    as [F1 [F2 [H1 [H2 [H3 [H4 H5]]]]]].
  cbv zeta.
  split; [exact F1|]. split; [exact F2|].
  split; [unfold fle; repeat split; try assumption;
          apply (Qcle_trans _ (fval (p e0))); assumption|].
  split; [|split].
  - intros v [<- | Hv].
    + unfold fle. repeat split; assumption.
    + rewrite Forall_forall in H3. apply H3. now apply in_map.
  - destruct H4 as [E | H4].
    + exists e0. split; [now left | now rewrite E].
    + apply in_map_iff in H4. destruct H4 as [v [Hv Hin]].
      exists v. split; [now right | exact Hv].
  - destruct H5 as [E | H5].
    + exists e0. split; [now left | now rewrite E].
    + apply in_map_iff in H5. destruct H5 as [v [Hv Hin]].
      exists v. split; [now right | exact Hv].
Qed.

(** X7. When the vertices at the even positions are finite, the box of
    [main] is finite, its minimum is below its maximum on every axis, every
    vertex at an even position lies between them, and on every axis the
    minimum and the maximum are coordinates of such vertices. *)
Theorem aabb_bounds_even_vertices (vs : list vertex) (mn mx : vertex) :
  Forall finite_vertex (evens vs) ->
  aabb vs = Some (mn, mx) ->
  finite_vertex mn /\ finite_vertex mx /\ vle mn mx
  /\ (forall v, In v (evens vs) -> vle mn v /\ vle v mx)
  /\ (exists u v w, In u (evens vs) /\ In v (evens vs) /\ In w (evens vs)
                    /\ x u = x mn /\ y v = y mn /\ z w = z mn)
  /\ (exists u v w, In u (evens vs) /\ In v (evens vs) /\ In w (evens vs)
                    /\ x u = x mx /\ y v = y mx /\ z w = z mx).
Proof.
  intros Hfin Haabb. rewrite FramerFacts.aabb_scans_even_positions in Haabb.
  destruct (evens vs) as [|e0 rest]; [discriminate Haabb|].
  cbn [bounds_of_all] in Haabb. inversion Haabb as [Hr]. clear Haabb.
  destruct (bounds_components rest e0 e0) as [Ex [Ey [Ez [Fx [Fy Fz]]]]].
  rewrite Hr in Ex, Ey, Ez, Fx, Fy, Fz. cbn [fst snd] in *.
  assert (Hx : Forall (fun v => is_finite (x v) = true) (e0 :: rest))
    by (eapply Forall_impl; [|exact Hfin]; intros v Hv; apply Hv).
  assert (Hy : Forall (fun v => is_finite (y v) = true) (e0 :: rest))
    by (eapply Forall_impl; [|exact Hfin]; intros v Hv; apply Hv).
  assert (Hz : Forall (fun v => is_finite (z v) = true) (e0 :: rest))
    by (eapply Forall_impl; [|exact Hfin]; intros v Hv; apply Hv).
  destruct (component_bounds x e0 rest Hx) as [X1 [X2 [X3 [X4 [X5 X6]]]]].
  destruct (component_bounds y e0 rest Hy) as [Y1 [Y2 [Y3 [Y4 [Y5 Y6]]]]].
  destruct (component_bounds z e0 rest Hz) as [Z1 [Z2 [Z3 [Z4 [Z5 Z6]]]]].
  cbv zeta in *. unfold finite_vertex, vle.
  rewrite Ex, Ey, Ez, Fx, Fy, Fz.
  split; [repeat split; assumption|]. split; [repeat split; assumption|].
  split; [split; [exact X3 | split; [exact Y3 | exact Z3]]|]. split; [|split].
  - intros v Hv. destruct (X4 v Hv) as [Xa Xb], (Y4 v Hv) as [Ya Yb],
      (Z4 v Hv) as [Za Zb].
    split; (split; [|split]); assumption.
  - destruct X5 as [u [? ?]], Y5 as [v [? ?]], Z5 as [w [? ?]].
    exists u, v, w. repeat split; assumption.
  - destruct X6 as [u [? ?]], Y6 as [v [? ?]], Z6 as [w [? ?]].
    exists u, v, w. repeat split; assumption.
Qed.

Lemma aabb_bounds_even_vertices_witness :
  vle (fvec 0 (-1) 0) (fvec 4 1 0)
  /\ vle (fvec 0 (-1) 0) (fvec 0 1 0) /\ vle (fvec 0 1 0) (fvec 4 1 0).
Proof.
  assert (Hf : Forall finite_vertex
                 (evens [fvec 0 1 0; fvec 9 9 9; fvec 4 (-1) 0])).
  { repeat constructor. }
  assert (Ha : aabb [fvec 0 1 0; fvec 9 9 9; fvec 4 (-1) 0]
               = Some (fvec 0 (-1) 0, fvec 4 1 0)).
  { vm_compute. reflexivity. }
  destruct (aabb_bounds_even_vertices _ _ _ Hf Ha) as [_ [_ [H1 [H2 _]]]].
  split; [exact H1|]. apply H2. now left.
Defined.

(** ** The model matrix *)

Lemma degenerate_axis_not_finite (mn mx : vertex) :
  x (model_scale mn mx) = PInf \/ y (model_scale mn mx) = PInf
  \/ z (model_scale mn mx) = PInf ->
  mat4_finite (model_matrix mn mx) = false.
Proof.
  intros H. destruct (FramerFacts.model_diagonal mn mx) as [Dx [Dy Dz]].
  destruct (mat4_finite (model_matrix mn mx)) eqn:Hfin; [|reflexivity].
  apply FramerFacts.mat4_finite_diagonal in Hfin.
  destruct Hfin as [Fx [Fy Fz]].
  destruct H as [E | [E | E]].
  - rewrite Dx, E in Fx. discriminate Fx.
  - rewrite Dy, E in Fy. discriminate Fy.
  - rewrite Dz, E in Fz. discriminate Fz.
Qed.

(** X9. A frontier of one or two vertices, the first one finite, gets the
    box of its first vertex alone, and [main] runs the viewer with a model
    matrix that is not finite: the second vertex of a single edge is never
    looked at. *)
Theorem one_or_two_vertices_give_a_flat_box
  (a b c : Qc) (rest : list vertex) (f : frontier) :
  (List.length rest <= 1)%nat ->
  vertices f = fin3 a b c :: rest ->
  aabb (vertices f) = Some (fin3 a b c, fin3 a b c)
  /\ exists sc, frame f = Run sc /\ mat4_finite (model sc) = false.
Proof.
  intros Hlen Hv.
  assert (Ha : aabb (vertices f) = Some (fin3 a b c, fin3 a b c)).
  { rewrite Hv. destruct rest as [|r [|r' t]]; try reflexivity.
    simpl in Hlen. lia. }
  split; [exact Ha|]. unfold frame. rewrite Ha. eexists. split; [reflexivity|].
  cbn [model]. apply degenerate_axis_not_finite. left.
  rewrite FramerFacts.model_scale_components. cbn [x].
  apply FramerFacts.scale_factor_degenerate.
Qed.

Lemma one_or_two_vertices_give_a_flat_box_witness :
  let f := {| vertices := [fin3 (- (1 + 1)) 0 0; fin3 (1 + 1) 0 0];
              edges := [(0, 1)%Z] |} in
  exists sc, frame f = Run sc /\ mat4_finite (model sc) = false.
Proof.
  intros f.
  assert (Hlen : (List.length [fin3 (1 + 1) 0 0] <= 1)%nat) by (simpl; lia).
  exact (proj2 (one_or_two_vertices_give_a_flat_box
                  (- (1 + 1)) 0 0 [fin3 (1 + 1) 0 0] f Hlen eq_refl)).
Defined.

(** ** The corners and the edges of the box *)

(** X10. The table [aabb_edges] is the twelve edges of the box: every pair
    names two of the eight corners that differ on one axis only, one at the
    minimum and one at the maximum of this axis; no edge is listed twice,
    in either direction; and the first three leave corner 0, the minimum,
    along x, y and z in this order. *)
Theorem aabb_edges_are_the_box_edges (mn mx : vertex) :
  List.length (aabb_corners mn mx) = 8%nat
  /\ List.length aabb_edges = 12%nat
  /\ Forall (fun e => exists a b,
                 corner mn mx (fst e) = Some a /\ corner mn mx (snd e) = Some b
                 /\ box_edge mn mx a b) aabb_edges
  /\ NoDup (map undirected aabb_edges)
  /\ (exists bx_ by_ bz_,
        corner mn mx 0 = Some mn
        /\ firstn 3 aabb_edges = [(0, 2); (0, 4); (0, 1)]%Z
        /\ corner mn mx 2 = Some bx_ /\ corner mn mx 4 = Some by_
        /\ corner mn mx 1 = Some bz_
        /\ bx_ = Vec3 (x mx) (y mn) (z mn)
        /\ by_ = Vec3 (x mn) (y mx) (z mn)
        /\ bz_ = Vec3 (x mn) (y mn) (z mx)).
Proof.
  split; [reflexivity|]. split; [reflexivity|]. split; [|split].
  - unfold aabb_edges, corner, box_edge, spans.
    repeat (constructor;
            [eexists; eexists; split; [reflexivity|]; split; [reflexivity|];
             cbn [x y z]; tauto|]).
    constructor.
  - unfold aabb_edges, undirected. cbn.
    repeat (constructor; [cbn; intros H;
                           repeat (destruct H as [H|H]; [discriminate H|]);
                           exact H|]).
    constructor.
  - do 3 eexists. repeat split; reflexivity.
Qed.

End BoxFacts.

(** * Further properties of the camera and the controller *)

Module ViewFacts.
Import Glm Application View.
Local Open Scope R_scope.

(** ** The axes of the pan *)

Lemma camera_frame_is_orthonormal_aux (s : state) :
  in_range s ->
  dot (camera_right s) (camera_right s) = 1
  /\ dot (camera_up s) (camera_up s) = 1
  /\ dot (camera_right s) (camera_up s) = 0
  /\ dot (camera_right s) (camera s) = 0
  /\ dot (camera_up s) (camera s) = 0.
Proof.
  intros Hs. destruct (ApplicationFacts.in_range_facts s Hs) as [Hr [Hc _]].
  destruct (ApplicationFacts.camera_axes s Hr Hc) as [Er Eu].
  rewrite Er, Eu.
  pose proof (sin2_cos2 (altitude s)) as Ha.
  pose proof (sin2_cos2 (azimuth s)) as Hz. unfold Rsqr in Ha, Hz.
  unfold dot, camera, muls. cbn [x y z].
  set (ca := cos (altitude s)) in *. set (sa := sin (altitude s)) in *.
  set (cz := cos (azimuth s)) in *. set (sz := sin (azimuth s)) in *.
  repeat split.
  - transitivity (sz * sz + cz * cz); [ring | exact Hz].
  - transitivity (sa * sa * (sz * sz + cz * cz) + ca * ca);
      [ring | rewrite Hz; lra].
  - ring.
  - ring.
  - transitivity (radius s * sa * ca * (1 - (sz * sz + cz * cz)));
      [ring | rewrite Hz; ring].
Qed.

(** X11. In a state in the range where exact arithmetic stands for
    binary32 the two axes of the pan are
    [right = (-sin az, cos az, 0)] and
    [up = (-sin alt cos az, -sin alt sin az, cos alt)]: unit vectors,
    orthogonal to one another and to the line from the focus to the
    camera, and [right] is horizontal. *)
Theorem camera_frame_is_orthonormal (s : state) :
  in_range s ->
  camera_right s = Vec3 (- sin (azimuth s)) (cos (azimuth s)) 0
  /\ camera_up s = Vec3 (- sin (altitude s) * cos (azimuth s))
                        (- sin (altitude s) * sin (azimuth s))
                        (cos (altitude s))
  /\ dot (camera_right s) (camera_right s) = 1
  /\ dot (camera_up s) (camera_up s) = 1
  /\ dot (camera_right s) (camera_up s) = 0
  /\ dot (camera_right s) (camera s) = 0
  /\ dot (camera_up s) (camera s) = 0.
Proof.
  intros Hs. destruct (ApplicationFacts.in_range_facts s Hs) as [Hr [Hc _]].
  destruct (ApplicationFacts.camera_axes s Hr Hc) as [Er Eu].
  split; [exact Er|]. split; [exact Eu|].
  apply camera_frame_is_orthonormal_aux, Hs.
Qed.

Lemma camera_frame_is_orthonormal_witness :
  camera_right initial = Vec3 (- sin 0) (cos 0) 0
  /\ dot (camera_up initial) (camera initial) = 0.
Proof.
  destruct (camera_frame_is_orthonormal initial ApplicationFacts.in_range_initial)
    as [H1 [_ [_ [_ [_ [_ H2]]]]]].
  split; [exact H1 | exact H2].
Defined.


Lemma cursor_in_range_small (a b : R) :
  0 <= a <= 1000 -> 0 <= b <= 1000 -> cursor_in_range a b.
Proof.
  intros Ha Hb. unfold cursor_in_range. rewrite !Rabs_pos_eq by lra.
  assert (P : 1000 <= 2 ^ 40)
    by (rewrite pow_IZR; apply IZR_le; vm_compute; discriminate).
  split; lra.
Qed.


(** ** The view matrix *)

Lemma self_div_sqrt (a : R) : 0 <= a -> a * a * (1 / sqrt (a * a)) = a.
Proof.
  intros H. rewrite sqrt_square by exact H.
  destruct (Req_dec a 0) as [-> | Hne]; [ring | field; exact Hne].
Qed.

(** A matrix of the shape [lookAt] builds takes [p] to the coordinates of
    [p - eye] along [s], [u] and [-f]. *)
Lemma look_matrix_apply (f s u e p : vec3 R) :
  mul_vec4 (Mat4 (Vec4 (x s) (x u) (- x f) 0)
                 (Vec4 (y s) (y u) (- y f) 0)
                 (Vec4 (z s) (z u) (- z f) 0)
                 (Vec4 (- dot s e) (- dot u e) (dot f e) 1))
           (vec4_of p 1)
  = Vec4 (dot s (sub p e)) (dot u (sub p e)) (- dot f (sub p e)) 1.
Proof.
  unfold mul_vec4, vec4_of, dot, sub.
  cbn [x y z x4 y4 z4 w4 col0 col1 col2 col3]. f_equal; ring.
Qed.

Lemma lookAt_apply (e c u p : vec3 R) :
  let f := normalize (sub c e) in
  let s := normalize (cross f u) in
  mul_vec4 (lookAt e c u) (vec4_of p 1)
  = Vec4 (dot s (sub p e)) (dot (cross s f) (sub p e)) (- dot f (sub p e)) 1.
Proof. intros f s. unfold lookAt. fold f. fold s. apply look_matrix_apply. Qed.

Lemma dot_zero_r (a : vec3 R) : dot a (Vec3 0 0 0) = 0.
Proof. unfold dot; cbn [x y z]; ring. Qed.

Lemma dot_cross_scaled_l (d u : vec3 R) (k n : R) :
  dot (muls (cross (muls d k) u) n) d = 0.
Proof. unfold dot, muls, cross; cbn [x y z]; ring. Qed.

Lemma dot_cross_scaled_r (a d : vec3 R) (k : R) :
  dot (cross a (muls d k)) d = 0.
Proof. unfold dot, muls, cross; cbn [x y z]; ring. Qed.

Lemma dot_muls_l (d : vec3 R) (k : R) : dot (muls d k) d = dot d d * k.
Proof. unfold dot, muls; cbn [x y z]; ring. Qed.

(** X13. In a state in the range where exact arithmetic stands for
    binary32, with a focus that is not far from the camera in units of the
    radius, the view matrix takes the camera position to the origin and the
    focus to the point [(0, 0, -radius)]: the focus is straight ahead of
    the camera, at the distance of the radius, whatever the azimuth. *)
Theorem view_centres_the_focus (s : state) :
  in_range s -> focus_near s ->
  mul_vec4 (view s) (vec4_of (eye s) 1) = Vec4 0 0 0 1
  /\ mul_vec4 (view s) (vec4_of (origin s) 1) = Vec4 0 0 (- radius s) 1.
Proof.
  intros Hs _. destruct (ApplicationFacts.in_range_facts s Hs) as [Hr0 _].
  assert (Hr : 0 <= radius s) by lra.
  unfold view. rewrite !lookAt_apply. split.
  - assert (H0 : sub (eye s) (eye s) = Vec3 0 0 0)
      by (apply ApplicationFacts.vec3_eq; unfold sub; cbn [x y z]; ring).
    rewrite H0, !dot_zero_r. f_equal. ring.
  - set (d := sub (origin s) (eye s)).
    assert (Hn : dot d d = radius s * radius s).
    { rewrite <- ApplicationFacts.dot_camera.
      unfold d, dot, sub, eye, add; cbn [x y z]. ring. }
    unfold normalize. rewrite dot_cross_scaled_l, dot_cross_scaled_r, dot_muls_l.
    rewrite Hn, self_div_sqrt by exact Hr. reflexivity.
Qed.

Lemma view_centres_the_focus_witness :
  mul_vec4 (view initial) (vec4_of (origin initial) 1) = Vec4 0 0 (- 5) 1.
Proof.
  assert (Hf : focus_near initial).
  { unfold focus_near. cbn [initial origin radius x y z].
    rewrite Rabs_R0. repeat split; lra. }
  exact (proj2 (view_centres_the_focus initial
                  ApplicationFacts.in_range_initial Hf)).
Defined.

(** ** Frames without the left button *)

Lemma run_cons (s : state) (e : event) (es : list event) :
  run s (e :: es) = run (step s e) es.
Proof. reflexivity. Qed.

(** X14. The two angles change under the left button only: after any
    sequence of scroll, key and resize events and of frames in which the
    left button is up, whatever the cursor and the right button do,
    altitude and azimuth are what they were. *)
Theorem angles_change_under_the_left_button_only (es : list event) :
  forall s : state,
    forallb left_up es = true ->
    azimuth (run s es) = azimuth s /\ altitude (run s es) = altitude s.
Proof.
  induction es as [|e es IH]; intros s H.
  - split; reflexivity.
  - cbn [forallb] in H. apply andb_true_iff in H. destruct H as [He Hes].
    rewrite run_cons. destruct (IH (step s e) Hes) as [-> ->].
    destruct e as [xoff yoff | key action | w h | xpos ypos l r];
      cbn [left_up] in He; cbn [step];
      [ | unfold key_callback; destruct (_ && _) |
        | apply negb_true_iff in He; subst l; unfold update; destruct r ];
      split; reflexivity.
Qed.

Lemma angles_change_under_the_left_button_only_witness :
  let es := [Update 10 0 false false; Scroll 0 1; Update 300 5 false true;
             FramebufferSize 640 480] in
  azimuth (run initial es) = 0 /\ altitude (run initial es) = 0.
Proof.
  intros es.
  exact (angles_change_under_the_left_button_only es initial eq_refl).
Defined.

(** ** A frame without a cursor move *)

(** X15. A frame in which the cursor has not moved changes nothing of the
    camera of a state in the range where exact arithmetic stands for
    binary32, whichever buttons are down: pressing a button does not make
    the view jump, because the cursor is tracked in every frame and only
    the move since the frame before counts. *)
Theorem still_cursor_keeps_the_camera (s : state) (l r : bool) :
  in_range s ->
  let s' := update s (x2 (mouse_pos s)) (y2 (mouse_pos s)) l r in
  altitude s' = altitude s /\ azimuth s' = azimuth s
  /\ origin s' = origin s /\ radius s' = radius s
  /\ projection s' = projection s /\ mouse_pos s' = mouse_pos s.
Proof.
  intros Hs s'.
  destruct (ApplicationFacts.in_range_facts s Hs) as [_ [_ [Ha _]]].
  unfold altitude_clamped in Ha.
  assert (Hc : clamp (altitude s + (y2 (mouse_pos s) - y2 (mouse_pos s)) * 0.01)
                     (- bound) bound = altitude s).
  { replace (altitude s + (y2 (mouse_pos s) - y2 (mouse_pos s)) * 0.01)
      with (altitude s) by ring.
    now apply ApplicationFacts.clamp_inside. }
  assert (Hm : Vec2 (x2 (mouse_pos s)) (y2 (mouse_pos s)) = mouse_pos s)
    by (destruct (mouse_pos s); reflexivity).
  unfold s', update, orbit, pan.
  destruct l, r;
    cbn [altitude azimuth origin radius projection mouse_pos old_mouse_pos
         set_mouse set_angles set_origin x2 y2];
    rewrite ?Hc; repeat split; try exact Hm; try lra;
    apply ApplicationFacts.vec3_eq; unfold add, smul; cbn [x y z]; ring.
Qed.

Lemma still_cursor_keeps_the_camera_witness :
  origin (update initial 0 0 true true) = origin initial
  /\ altitude (update initial 0 0 true true) = altitude initial.
Proof.
  destruct (still_cursor_keeps_the_camera initial true true
              ApplicationFacts.in_range_initial) as [Ha [_ [Ho _]]].
  split; [exact Ho | exact Ha].
Defined.

(** ** Zoom *)

(** X24. A scroll moves the camera along the line through the focus: the
    offset of the camera from the focus is multiplied by
    [exp (-0.1 * yoff)], a positive factor, the focus and the two angles
    stay, and as long as the state before and the state after are in the
    range where exact arithmetic stands for binary32 so do the two axes of
    the pan. *)
Theorem scroll_moves_along_the_line_of_sight (s : state) (xoff yoff : R) :
  let s' := scroll s xoff yoff in
  in_range s -> in_range s' ->
  camera s' = smul (exp (- 0.1 * yoff)) (camera s)
  /\ origin s' = origin s /\ altitude s' = altitude s
  /\ azimuth s' = azimuth s
  /\ camera_right s' = camera_right s /\ camera_up s' = camera_up s.
Proof.
  intros s' Hs Hs'.
  destruct (ApplicationFacts.in_range_facts s Hs) as [Hr _].
  destruct (ApplicationFacts.in_range_facts s' Hs') as [Hr' _].
  split; [|repeat split].
  - apply ApplicationFacts.vec3_eq;
      unfold s', camera, scroll, muls, smul, set_radius;
      cbn [x y z radius altitude azimuth]; ring.
  - destruct (ApplicationFacts.camera_axes_radius _ Hr') as [-> _].
    destruct (ApplicationFacts.camera_axes_radius s Hr) as [-> _]. reflexivity.
  - destruct (ApplicationFacts.camera_axes_radius _ Hr') as [_ ->].
    destruct (ApplicationFacts.camera_axes_radius s Hr) as [_ ->]. reflexivity.
Qed.

Lemma scroll_moves_along_the_line_of_sight_witness :
  camera_right (scroll initial 0 3) = camera_right initial.
Proof.
  assert (H' : in_range (scroll initial 0 3)).
  { pose proof ApplicationFacts.in_range_initial as [_ H].
    split; [|exact H]. cbn [scroll set_radius radius initial].
    pose proof (exp_ineq1_le (- 0.1 * 3)) as Hlo.
    assert (Hup : exp (- 0.1 * 3) <= exp 0) by (apply ApplicationFacts.exp_le; lra).
    rewrite exp_0 in Hup.
    assert (P5 : 5 <= 2 ^ 40)
      by (rewrite pow_IZR; apply IZR_le; vm_compute; discriminate).
    assert (Pi : / 2 ^ 40 <= 1).
    { rewrite <- Rinv_1. apply Rinv_le_contravar; lra. }
    split; nra. }
  destruct (scroll_moves_along_the_line_of_sight initial 0 3
              ApplicationFacts.in_range_initial H') as [_ [_ [_ [_ [H _]]]]].
  exact H.
Defined.

(** ** Closing and resizing *)

Lemma should_close_step (s : state) (e : event) :
  should_close (step s e) = should_close s || escape_press e.
Proof.
  destruct e as [xoff yoff | key action | w h | xpos ypos l r];
    cbn [step escape_press]; rewrite ?orb_false_r; try reflexivity.
  - unfold key_callback. destruct (_ && _); [|now rewrite orb_false_r].
    cbn. now rewrite orb_true_r.
  - unfold update. destruct l, r; reflexivity.
Qed.

Lemma should_close_run (es : list event) :
  forall s, should_close (run s es) = should_close s || existsb escape_press es.
Proof.
  induction es as [|e es IH]; intros s.
  - cbn. now rewrite orb_false_r.
  - rewrite run_cons, IH, should_close_step. cbn [existsb]. now rewrite orb_assoc.
Qed.

(** X17. The close flag is set by a press of the Escape key and by nothing
    else the controller handles, and it is never cleared: after any
    sequence of events it is set exactly when it was set before or the
    sequence holds such a press; a release or a repeat of Escape, and any
    other key, leave it alone. *)
Theorem escape_press_requests_close (s : state) (es : list event) :
  should_close (run s es) = should_close s || existsb escape_press es.
Proof. apply should_close_run. Qed.

(** X18. Projection and screen size are those of the last resize: after any
    sequence of events the screen size is the last framebuffer size
    delivered and, when its height is not zero, the projection is the one
    [resize] builds from it; both are what they were before when no resize
    was. No other event touches them. *)
Theorem last_resize_wins (es : list event) :
  forall s : state,
    match last_size es with
    | Some (width, height) =>
        (height <> 0%Z ->
         projection (run s es)
         = perspective fov (IZR width / IZR height) 0.1 10000)
        /\ screen_width (run s es) = width
        /\ screen_height (run s es) = height
    | None =>
        projection (run s es) = projection s
        /\ screen_width (run s es) = screen_width s
        /\ screen_height (run s es) = screen_height s
    end.
Proof.
  induction es as [|e es IH]; intros s.
  - cbn. repeat split.
  - rewrite run_cons. cbn [last_size]. specialize (IH (step s e)).
    destruct (last_size es) as [[w h]|]; [exact IH|].
    destruct IH as [-> [-> ->]].
    destruct e as [xoff yoff | key action | w h | xpos ypos l r]; cbn [step].
    + repeat split.
    + unfold key_callback. destruct (_ && _); repeat split.
    + repeat split.
    + unfold update. destruct l, r; repeat split.
Qed.

Lemma last_resize_wins_witness :
  let es := [FramebufferSize 640 480; Scroll 0 1; FramebufferSize 800 600;
             Update 3 4 true false] in
  projection (run initial es) = perspective fov (IZR 800 / IZR 600) 0.1 10000.
Proof.
  intros es. pose proof (last_resize_wins es initial) as H.
  cbn [es last_size] in H. apply (proj1 H). lia.
Defined.

(** X19. Whatever the width of a framebuffer that has a height, the
    projection [resize] builds sends a point at the depth of the near plane, 0.1 in front of the
    camera, to the clip depth [-w] and a point at the depth of the far
    plane, 10000, to the clip depth [+w]: after the division by [w] the
    two planes are the two ends of the depth range. *)
Theorem projection_depth_range (s : state) (width height : Z) (px py : R) :
  height <> 0%Z ->
  let p := projection (resize s width height) in
  let near := mul_vec4 p (Vec4 px py (- 0.1) 1) in
  let far := mul_vec4 p (Vec4 px py (- 10000) 1) in
  w4 near = 0.1 /\ z4 near = - w4 near
  /\ w4 far = 10000 /\ z4 far = w4 far.
Proof.
  intros _. cbv zeta. unfold resize, perspective, mul_vec4.
  cbn [projection x4 y4 z4 w4 col0 col1 col2 col3].
  repeat split; lra.
Qed.

Lemma projection_depth_range_witness :
  let p := projection (resize initial 800 600) in
  z4 (mul_vec4 p (Vec4 1 2 (- 10000) 1)) = w4 (mul_vec4 p (Vec4 1 2 (- 10000) 1)).
Proof.
  intros p.
  assert (Hh : 600%Z <> 0%Z) by lia.
  destruct (projection_depth_range initial 800 600 1 2 Hh) as [_ [_ [H1 H2]]].
  unfold p. rewrite H2. reflexivity.
Defined.

(** ** The loop of [application::run] *)

Lemma should_close_turn (s : state) (fr : frame_input) :
  should_close (turn s fr) = should_close s || closes fr.
Proof.
  unfold turn, poll_events, closes.
  assert (Hu : forall t a b l r, should_close (update t a b l r) = should_close t)
    by (intros; unfold update; destruct l, r; reflexivity).
  rewrite Hu. destruct (close_requested fr).
  - cbn. now rewrite orb_true_r.
  - rewrite should_close_run. reflexivity.
Qed.

Lemma main_loop_open (frames : list frame_input) :
  forall s,
    should_close s = false ->
    forallb (fun fr => negb (closes fr)) frames = true ->
    main_loop frames s = (turns s frames, List.length frames)
    /\ should_close (turns s frames) = false.
Proof.
  induction frames as [|fr rest IH]; intros s Hs Hall.
  - split; [reflexivity | exact Hs].
  - cbn [forallb] in Hall. apply andb_true_iff in Hall.
    destruct Hall as [Hfr Hrest]. apply negb_true_iff in Hfr.
    assert (Hs' : should_close (turn s fr) = false)
      by (rewrite should_close_turn, Hs, Hfr; reflexivity).
    destruct (IH (turn s fr) Hs' Hrest) as [E1 E2].
    cbn [main_loop]. rewrite Hs, E1. split; [reflexivity | exact E2].
Qed.

(** X20. The loop runs the turns one after the other as long as the window
    is not asked to close. The turn in which Escape is pressed or the
    window system asks for the close is still carried out, update and
    render included, and it is the last one: the turns after it are never
    run. Without such a turn every turn is run. *)
Theorem main_loop_stops_after_the_closing_turn
  (s : state) (before : list frame_input) (fr : frame_input)
  (after : list frame_input) :
  should_close s = false ->
  forallb (fun fr => negb (closes fr)) before = true ->
  (main_loop before s = (turns s before, List.length before))
  /\ (closes fr = true ->
      main_loop (before ++ fr :: after) s
      = (turns s (before ++ [fr]), S (List.length before))).
Proof.
  intros Hs Hall. split; [apply main_loop_open; assumption|].
  intros Hfr. revert s Hs Hall.
  induction before as [|b rest IH]; intros s Hs Hall.
  - cbn [app main_loop List.length]. rewrite Hs.
    assert (Hc : should_close (turn s fr) = true)
      by (rewrite should_close_turn, Hfr; apply orb_true_r).
    destruct after as [|a t]; cbn [main_loop]; [reflexivity|].
    rewrite Hc. reflexivity.
  - cbn [forallb] in Hall. apply andb_true_iff in Hall.
    destruct Hall as [Hb Hrest]. apply negb_true_iff in Hb.
    assert (Hs' : should_close (turn s b) = false)
      by (rewrite should_close_turn, Hs, Hb; reflexivity).
    cbn [app main_loop List.length]. rewrite Hs, (IH _ Hs' Hrest). reflexivity.
Qed.

Lemma main_loop_stops_after_the_closing_turn_witness :
  let quiet := mk_frame_input [OnScroll 0 1] false (10, 10) true false in
  let escape := mk_frame_input [OnKey 256 1] false (20, 10) true false in
  main_loop [quiet; escape; quiet; quiet] initial
  = (turns initial [quiet; escape], 2%nat).
Proof.
  intros quiet escape.
  exact (proj2 (main_loop_stops_after_the_closing_turn
                  initial [quiet] escape [quiet; quiet] eq_refl eq_refl)
               eq_refl).
Defined.

End ViewFacts.

(** * Rendering and lifecycle *)

Module RenderFacts.
Import Glm Viewer Render.

Lemma pair_up_element_data (es : list edge) :
  forall rest, pair_up (element_data es ++ rest) = es ++ pair_up rest.
Proof.
  induction es as [|[a b] t IH]; intros rest; [reflexivity|].
  cbn [element_data flat_map app fst snd pair_up].
  fold (element_data t). now rewrite IH.
Qed.

Lemma length_element_data (es : list edge) :
  List.length (element_data es) = (2 * List.length es)%nat.
Proof.
  induction es as [|e t IH]; [reflexivity|].
  cbn [element_data flat_map List.length app]. fold (element_data t).
  rewrite IH. lia.
Qed.

(** X21. What [render] draws is the frontier and the box, each edge once:
    the first draw reads back from the element buffer exactly the edges
    that were uploaded, in their order, as segments of width 1.5; the two
    draws on the box split its twelve edges into the first three, of width
    3, and the other nine, of width 1, with no edge left out and none
    drawn twice. *)
Theorem render_draws_every_edge_once
  (edges : list edge) (bound : array_id) (width : Q) :
  segments (element_buffer_of edges) bound width (render edges)
  = map (fun e => (vertex_array, (3 # 2)%Q, e)) edges
    ++ map (fun e => (aabb_vertex_array, 3%Q, e)) (firstn 3 aabb_edges)
    ++ map (fun e => (aabb_vertex_array, 1%Q, e)) (skipn 3 aabb_edges).
Proof.
  unfold render. cbn [segments element_buffer_of].
  assert (H : drawn (element_data edges) (2 * List.length edges) 0 = edges).
  { unfold drawn. change (0 / sizeof_index)%nat with 0%nat. cbn [skipn].
    rewrite <- length_element_data, firstn_all.
    rewrite <- (app_nil_r (element_data edges)), pair_up_element_data.
    apply app_nil_r. }
  rewrite H, app_nil_r. reflexivity.
Qed.

End RenderFacts.

Module LifecycleFacts.
Import Glm Application View Lifecycle.

(** X22. [init] and [free] guard themselves: on an application that is
    initialised [init] changes nothing, on one that is not [free] changes
    nothing, so calling either twice is calling it once; with shaders that
    compile and link and a framebuffer that has a height, [init] on a
    fresh application opens the window, builds the projection from the
    framebuffer size and sets the flag, and [free] after it closes the
    window, ends GLFW and clears the flag. *)
Theorem init_and_free_are_idempotent (env : answers) (a : app) :
  free (free a) = free a
  /\ (is_initialized a = false -> free a = a)
  /\ (is_initialized a = true -> init env a = Returned a)
  /\ (is_initialized a = false -> shaders_ok env = true ->
      snd (framebuffer_size env) <> 0%Z ->
      exists a1,
        init env a = Returned a1 /\ init env a1 = Returned a1
        /\ is_initialized a1 = true /\ window a1 = true /\ glfw a1 = true
        /\ projection (globals a1)
           = perspective fov (IZR (fst (framebuffer_size env))
                              / IZR (snd (framebuffer_size env))) 0.1 10000
        /\ free a1 = mk_app false false false false (globals a1)).
Proof.
  split; [|split; [|split]].
  - unfold free. destruct (is_initialized a) eqn:E; cbn; rewrite ?E; reflexivity.
  - intros H. unfold free. now rewrite H.
  - intros H. unfold init. now rewrite H.
  - intros H Hok _. unfold shaders_ok in Hok.
    apply andb_true_iff in Hok. destruct Hok as [Hok Hl].
    apply andb_true_iff in Hok. destruct Hok as [Hv Hf].
    unfold init, init_shader. rewrite H, Hv, Hf, Hl. cbn [negb].
    eexists. split; [reflexivity|]. repeat split.
Qed.

Lemma init_and_free_are_idempotent_witness :
  let env := mk_answers true true true EmptyString (500, 500)%Z in
  exists a1,
    init env fresh = Returned a1 /\ init env a1 = Returned a1
    /\ is_initialized a1 = true.
Proof.
  intros env.
  destruct (init_and_free_are_idempotent env fresh) as [_ [_ [_ H]]].
  assert (Hh : snd (framebuffer_size env) <> 0%Z) by (cbn; lia).
  destruct (H eq_refl eq_refl Hh) as [a1 [H1 [H2 [H3 _]]]].
  exists a1. repeat split; assumption.
Defined.

(** X23. When a shader does not compile or the program does not link,
    [init] throws after the window was created, and leaves the flag
    cleared: a call of [free] after the failure does nothing, so the
    window stays open and GLFW stays initialised. *)
Theorem failed_init_is_not_torn_down (env : answers) (a : app) :
  is_initialized a = false -> shaders_ok env = false ->
  exists what a1,
    init env a = Thrown what a1
    /\ is_initialized a1 = false /\ window a1 = true /\ glfw a1 = true
    /\ free a1 = a1
    /\ forall frames, app_run env a frames = Thrown what a1.
Proof.
  intros H Hbad. unfold shaders_ok in Hbad.
  unfold app_run, init, init_shader, init_window. rewrite H. cbn [negb].
  destruct (vertex_compiled env); cbn [negb andb] in *.
  - destruct (fragment_compiled env); cbn [negb andb] in *.
    + rewrite Hbad. cbn [negb]. do 2 eexists. split; [reflexivity|].
      cbn. rewrite ?H. repeat split.
    + do 2 eexists. split; [reflexivity|]. cbn. rewrite ?H. repeat split.
  - do 2 eexists. split; [reflexivity|]. cbn. rewrite ?H. repeat split.
Qed.

Lemma failed_init_is_not_torn_down_witness :
  exists what a1,
    init (mk_answers true false true EmptyString (500, 500)%Z) fresh = Thrown what a1
    /\ window a1 = true /\ free a1 = a1.
Proof.
  destruct (failed_init_is_not_torn_down
              (mk_answers true false true EmptyString (500, 500)%Z) fresh eq_refl eq_refl)
    as [what [a1 [H1 [_ [H2 [_ [H3 _]]]]]]].
  exists what, a1. repeat split; assumption.
Defined.

End LifecycleFacts.
